(** * QFbScreen: the damage-tracked framebuffer compositor

    A shallow embedding of [src/platformsupport/fbconvenience/qfbscreen.cpp]
    and the properties of its window stack, damage accumulator, update
    scheduler and redraw algorithm.

    Conventions.  C++ [int] coordinates are unbounded [Z] (no overflow is
    assumed, signed overflow being undefined in C++).  Pointers to windows
    and backing stores are natural numbers, dereferenced through total
    stores kept in the state; [nullptr] is [None]. *)

From Stdlib Require Import ZArith List Bool Lia Arith Permutation.
Import ListNotations.
Local Open Scope Z_scope.

Set Implicit Arguments.

(* ===================================================================== *)
(** * Geometry primitives *)
(* ===================================================================== *)

Module Geometry.

(** Modelled from the spec: QPoint (Qt core, not part of the sources at
    hand), a point with integer coordinates. *)
Record QPoint : Type := mkPoint { px : Z; py : Z }.

Definition QPoint_neg (p : QPoint) : QPoint := mkPoint (- px p) (- py p).

(** Modelled from the spec: QSize (Qt core), a width and a height. *)
Record QSize : Type := mkSize { sz_width : Z; sz_height : Z }.

(** Modelled from the spec: QRect (Qt core).  "Region/Rect geometry
    utilities: set-union of rectangles, intersection, translation."  A
    rectangle is kept, as Qt keeps it, by its inclusive corner coordinates:
    it covers the integer points [x1..x2] x [y1..y2] and is empty as soon
    as [x1 > x2] or [y1 > y2].  Intersection and translation are the
    set-theoretic ones. *)
Record QRect : Type := mkRect { x1 : Z; y1 : Z; x2 : Z; y2 : Z }.

(** [QRect()] *)
Definition QRect_null : QRect := mkRect 0 0 (-1) (-1).

(** [QRect(x, y, width, height)] *)
Definition QRect_xywh (x y w h : Z) : QRect := mkRect x y (x + w - 1) (y + h - 1).

(** [QRect(topLeft, bottomRight)], both corners included. *)
Definition QRect_corners (l t r b : Z) : QRect := mkRect l t r b.

Definition QRect_left (r : QRect) : Z := x1 r.
Definition QRect_top (r : QRect) : Z := y1 r.
Definition QRect_width (r : QRect) : Z := x2 r - x1 r + 1.
Definition QRect_height (r : QRect) : Z := y2 r - y1 r + 1.
Definition QRect_topLeft (r : QRect) : QPoint := mkPoint (x1 r) (y1 r).
Definition QRect_size (r : QRect) : QSize := mkSize (QRect_width r) (QRect_height r).

Definition QRect_isEmpty (r : QRect) : bool := (x2 r <? x1 r) || (y2 r <? y1 r).

(** [contains(p, false)]: the edges belong to the rectangle. *)
Definition QRect_contains (r : QRect) (p : QPoint) : bool :=
  (x1 r <=? px p) && (px p <=? x2 r) && (y1 r <=? py p) && (py p <=? y2 r).

Definition QRect_translated_xy (r : QRect) (dx dy : Z) : QRect :=
  mkRect (x1 r + dx) (y1 r + dy) (x2 r + dx) (y2 r + dy).

Definition QRect_translated (r : QRect) (d : QPoint) : QRect :=
  QRect_translated_xy r (px d) (py d).

Definition QRect_intersected (a b : QRect) : QRect :=
  mkRect (Z.max (x1 a) (x1 b)) (Z.max (y1 a) (y1 b))
         (Z.min (x2 a) (x2 b)) (Z.min (y2 a) (y2 b)).

Definition QRect_intersects (a b : QRect) : bool :=
  negb (QRect_isEmpty (QRect_intersected a b)).

(** Modelled from the spec: QRegion (Qt gui).  "A set of disjoint (or
    overlapping, later merged) rectangles."  The model keeps the non-empty
    rectangles in the order they were united and does not merge them; what
    a region means is the set of points of its rectangles
    ([QRegion_contains]), and iterating over a region visits its
    rectangles. *)
Definition QRegion : Type := list QRect.

(** [QRegion()] *)
Definition QRegion_new : QRegion := [].

Definition QRegion_isEmpty (R : QRegion) : bool :=
  match R with [] => true | _ :: _ => false end.

(** [region += rect]: an empty rectangle adds nothing. *)
Definition QRegion_addRect (R : QRegion) (r : QRect) : QRegion :=
  if QRect_isEmpty r then R else R ++ [r].

(** [region += otherRegion] *)
Definition QRegion_united (R S : QRegion) : QRegion := R ++ S.

Definition QRegion_intersects (R : QRegion) (r : QRect) : bool :=
  existsb (fun q => QRect_intersects q r) R.

Definition QRegion_contains (R : QRegion) (p : QPoint) : bool :=
  existsb (fun q => QRect_contains q p) R.

(** Every rectangle of a well-formed region has at least one point. *)
Definition QRegion_wf (R : QRegion) : Prop :=
  Forall (fun q => QRect_isEmpty q = false) R.

End Geometry.
Export Geometry.

(* ===================================================================== *)
(** * Images and the painter *)
(* ===================================================================== *)

Module Imaging.

(** Modelled from the spec: a pixel value, with an alpha channel
    ("fully transparent", "opaque black"); channels range over 0..255 and
    colour channels are premultiplied by alpha. *)
Record QColor : Type := mkColor { alpha : Z; red : Z; green : Z; blue : Z }.

Definition Qt_transparent : QColor := mkColor 0 0 0 0.
Definition Qt_black : QColor := mkColor 255 0 0 0.

(** Modelled from the spec: the pixel formats a screen image can have; the
    one thing the compositor asks of a format is whether it "supports an
    alpha channel". *)
Inductive Format : Type :=
| Format_RGB32
| Format_ARGB32
| Format_ARGB32_Premultiplied
| Format_RGB16
| Format_RGB888.

Definition Format_hasAlpha (f : Format) : bool :=
  match f with
  | Format_ARGB32 | Format_ARGB32_Premultiplied => true
  | Format_RGB32 | Format_RGB16 | Format_RGB888 => false
  end.

(** Modelled from the spec: QImage (Qt gui), a pixel buffer of a given size
    and format.  Pixels are read through [pixel]; only the points of
    [QImage_rect] belong to the buffer. *)
Record QImage : Type := mkImage {
  img_size : QSize;
  img_format : Format;
  pixel : QPoint -> QColor
}.

Definition QImage_hasAlphaChannel (i : QImage) : bool := Format_hasAlpha (img_format i).

Definition QImage_rect (i : QImage) : QRect :=
  QRect_xywh 0 0 (sz_width (img_size i)) (sz_height (img_size i)).

(** An image of one colour. *)
Definition QImage_solid (sz : QSize) (f : Format) (c : QColor) : QImage :=
  mkImage sz f (fun _ => c).

(** Modelled from the spec: the two composition modes the compositor
    selects, "source-replace compositing" and "source-over blending". *)
Inductive CompositionMode : Type :=
| CompositionMode_SourceOver
| CompositionMode_Source.

(** Rounded division by 255 of a product of two channels. *)
Definition div255 (x : Z) : Z := Z.shiftr (x + Z.shiftr x 8 + 128) 8.

Definition blend_channel (s d sa : Z) : Z := s + div255 (d * (255 - sa)).

(** Source-over of premultiplied pixels: [s + d * (1 - alpha s)]. *)
Definition sourceOver (s d : QColor) : QColor :=
  mkColor (blend_channel (alpha s) (alpha d) (alpha s))
          (blend_channel (red s) (red d) (alpha s))
          (blend_channel (green s) (green d) (alpha s))
          (blend_channel (blue s) (blue d) (alpha s)).

Definition compose (m : CompositionMode) (src dst : QColor) : QColor :=
  match m with
  | CompositionMode_Source => src
  | CompositionMode_SourceOver => sourceOver src dst
  end.

(** Modelled from the spec: QPainter (Qt gui).  A painter owns its current
    composition mode; the device it paints on is the screen image, which
    the model passes next to it.  A freshly constructed painter blends
    source-over. *)
Record QPainter : Type := mkPainter { compositionMode : CompositionMode }.

Definition QPainter_new : QPainter := mkPainter CompositionMode_SourceOver.

(** [painter.fillRect(rect, color)] on device [dev]: every device pixel of
    [rect] is composed with [color]. *)
Definition QPainter_fillRect (p : QPainter) (dev : QImage) (rect : QRect) (c : QColor)
  : QImage :=
  mkImage (img_size dev) (img_format dev)
    (fun q => if QRect_contains rect q && QRect_contains (QImage_rect dev) q
              then compose (compositionMode p) c (pixel dev q)
              else pixel dev q).

(** [painter.drawImage(target, image, source)] on device [dev], for a
    source rectangle of the size of the target (no scaling): "copy the
    corresponding sub-image into the output at the rectangle's position".
    The pixel of [target] at offset [(dx, dy)] receives the pixel of
    [source] at the same offset; the part of [source] that lies outside
    [image] supplies nothing and leaves the device as it is. *)
Definition QPainter_drawImage (p : QPainter) (dev : QImage) (target : QRect)
           (image : QImage) (source : QRect) : QImage :=
  mkImage (img_size dev) (img_format dev)
    (fun q =>
       let sq := mkPoint (px q - x1 target + x1 source) (py q - y1 target + y1 source) in
       if QRect_contains target q && QRect_contains (QImage_rect dev) q
          && QRect_contains source sq && QRect_contains (QImage_rect image) sq
       then compose (compositionMode p) (pixel image sq) (pixel dev q)
       else pixel dev q).

End Imaging.
Export Imaging.

(* ===================================================================== *)
(** * Collaborators: windows, backing stores, the cursor *)
(* ===================================================================== *)

(** [QWindow*], [QFbWindow*] and [QFbBackingStore*]: identities of objects
    that live outside the screen. *)
Definition QWindowPtr : Type := nat.
Definition QFbWindowPtr : Type := nat.
Definition QFbBackingStorePtr : Type := nat.
Definition WId : Type := Z.

(** Modelled from the spec: the window "type classification (used to
    determine top-level eligibility)", the enumeration [Qt::WindowType]. *)
Inductive WindowType : Type :=
| Qt_Widget | Qt_Window | Qt_Dialog | Qt_Sheet | Qt_Drawer | Qt_Popup
| Qt_Tool | Qt_ToolTip | Qt_SplashScreen | Qt_Desktop | Qt_SubWindow
| Qt_ForeignWindow | Qt_CoverWindow.

Definition isWindowOrDialog (t : WindowType) : bool :=
  match t with Qt_Window | Qt_Dialog => true | _ => false end.

(** Modelled from the spec: what the compositor reads of a [QWindow]. *)
Record QWindow : Type := mkWindow {
  win_type : WindowType;
  win_isVisible : bool
}.

(** Modelled from the spec: what the compositor reads (and, for the backing
    store, writes) of a [QFbWindow]: [window()], [geometry()],
    [backingStore()] / [setBackingStore()], [winId()]. *)
Record QFbWindow : Type := mkFbWindow {
  fbw_window : QWindowPtr;
  fbw_geometry : QRect;
  fbw_backingStore : option QFbBackingStorePtr;
  fbw_winId : WId
}.

Definition QFbWindow_setBackingStore (w : QFbWindow) (bs : QFbBackingStorePtr) : QFbWindow :=
  mkFbWindow (fbw_window w) (fbw_geometry w) (Some bs) (fbw_winId w).

(** Modelled from the spec: what the compositor reads of a
    [QFbBackingStore]: [window()] and [image()]. *)
Record QFbBackingStore : Type := mkBackingStore {
  bs_window : QWindowPtr;
  bs_image : QImage
}.

(** The cursor is an external collaborator, reached only through
    [isDirty()], [isOnScreen()], [dirtyRect()], [lastPainted()] and
    [drawCursor(painter)].  It is a parameter of the development: [C] is
    the state of the cursor object, [dirtyRect] and [drawCursor] may change
    it, and [drawCursor] paints through the painter it is handed (the
    painter and its device) and returns the region it touched. *)
Class QFbCursorOps (C : Type) : Type := {
  isDirty : C -> bool;
  isOnScreen : C -> bool;
  dirtyRect : C -> QRect * C;
  lastPainted : C -> QRect;
  drawCursor : C -> QPainter * QImage -> QRegion * C * (QPainter * QImage)
}.

(** Events delivered to [QFbScreen::event]. *)
Inductive QEvent : Type :=
| UpdateRequest
| OtherEvent (type : nat).

Definition QEvent_isUpdateRequest (e : QEvent) : bool :=
  match e with UpdateRequest => true | OtherEvent _ => false end.

(** What a call of [event] amounts to: a returned value, or the tail call
    [return QObject::event(event)] into the base class. *)
Inductive EventResult : Type :=
| Returned (b : bool)
| QObject_event (e : QEvent).

(** Calls that leave the screen object, in the order they were made. *)
Inductive Effect : Type :=
| NewPainter
| SetCompositionMode (m : CompositionMode)
| FillRect (rect : QRect) (c : QColor)
| Lock (bs : QFbBackingStorePtr)
| DrawImage (target : QRect) (bs : QFbBackingStorePtr) (source : QRect)
| Unlock (bs : QFbBackingStorePtr)
| DrawCursor (touched : QRegion)
| HandleWindowActivated (w : option QWindowPtr)
| TopWindowChanged (w : option QWindowPtr).

(** [Q_ASSERT] is modelled as it behaves when assertions are compiled in:
    a failed assertion ends the program. *)
Inductive Outcome (A : Type) : Type :=
| Finished (a : A)
| AssertionFailed.
Arguments AssertionFailed {A}.

(** The value of a finished computation, [d] for one that failed. *)
Definition Outcome_value {A : Type} (d : A) (o : Outcome A) : A :=
  match o with Finished a => a | AssertionFailed => d end.

(* ===================================================================== *)
(** * QList operations used by the screen *)
(* ===================================================================== *)

Module QList.

Definition size {A} (l : list A) : Z := Z.of_nat (length l).

Definition isEmpty {A} (l : list A) : bool :=
  match l with [] => true | _ :: _ => false end.

Definition prepend {A} (x : A) (l : list A) : list A := x :: l.

Fixpoint indexOf_from (l : list nat) (x : nat) (i : Z) : Z :=
  match l with
  | [] => -1
  | y :: t => if Nat.eqb y x then i else indexOf_from t x (i + 1)
  end.

(** Index of the first occurrence, [-1] when there is none. *)
Definition indexOf (l : list nat) (x : nat) : Z := indexOf_from l x 0.

(** Removes the first occurrence, if any. *)
Fixpoint removeOne (l : list nat) (x : nat) : list nat :=
  match l with
  | [] => []
  | y :: t => if Nat.eqb y x then t else y :: removeOne t x
  end.

Definition removeAt {A} (l : list A) (i : Z) : list A :=
  firstn (Z.to_nat i) l ++ skipn (S (Z.to_nat i)) l.

Definition insertAt {A} (l : list A) (i : Z) (x : A) : list A :=
  firstn (Z.to_nat i) l ++ x :: skipn (Z.to_nat i) l.

(** [move(from, to)]: takes the item out of position [from] and puts it
    back at position [to]. *)
Definition move {A} (l : list A) (from to : Z) : list A :=
  match nth_error l (Z.to_nat from) with
  | Some x => insertAt (removeAt l from) to x
  | None => l
  end.

End QList.

(* ===================================================================== *)
(** * The screen and its operations *)
(* ===================================================================== *)

Section Screen.

Context {Cursor : Type} {cursorOps : QFbCursorOps Cursor}.

(** The members of [QFbScreen] that the compositor uses, the objects its
    pointers lead to, the host's queue of events posted to the screen and
    the calls made so far to the outside ([effects], oldest first). *)
Record State : Type := mkState {
  mUpdatePending : bool;
  mCursor : option Cursor;
  mDepth : Z;
  mFormat : Format;
  mPainter : option QPainter;
  mGeometry : QRect;
  mScreenImage : QImage;
  mRepaintRegion : QRegion;
  mWindowStack : list QFbWindowPtr;
  mPendingBackingStores : list QFbBackingStorePtr;
  fbWindows : QFbWindowPtr -> QFbWindow;
  windows : QWindowPtr -> QWindow;
  backingStores : QFbBackingStorePtr -> QFbBackingStore;
  postedEvents : list QEvent;
  effects : list Effect
}.

Definition set_mUpdatePending (v : bool) (s : State) : State :=
  mkState v (mCursor s) (mDepth s) (mFormat s) (mPainter s) (mGeometry s)
    (mScreenImage s) (mRepaintRegion s) (mWindowStack s) (mPendingBackingStores s)
    (fbWindows s) (windows s) (backingStores s) (postedEvents s) (effects s).

Definition set_mCursor (v : option Cursor) (s : State) : State :=
  mkState (mUpdatePending s) v (mDepth s) (mFormat s) (mPainter s) (mGeometry s)
    (mScreenImage s) (mRepaintRegion s) (mWindowStack s) (mPendingBackingStores s)
    (fbWindows s) (windows s) (backingStores s) (postedEvents s) (effects s).

Definition set_mPainter (v : option QPainter) (s : State) : State :=
  mkState (mUpdatePending s) (mCursor s) (mDepth s) (mFormat s) v (mGeometry s)
    (mScreenImage s) (mRepaintRegion s) (mWindowStack s) (mPendingBackingStores s)
    (fbWindows s) (windows s) (backingStores s) (postedEvents s) (effects s).

Definition set_mScreenImage (v : QImage) (s : State) : State :=
  mkState (mUpdatePending s) (mCursor s) (mDepth s) (mFormat s) (mPainter s) (mGeometry s)
    v (mRepaintRegion s) (mWindowStack s) (mPendingBackingStores s)
    (fbWindows s) (windows s) (backingStores s) (postedEvents s) (effects s).

Definition set_mRepaintRegion (v : QRegion) (s : State) : State :=
  mkState (mUpdatePending s) (mCursor s) (mDepth s) (mFormat s) (mPainter s) (mGeometry s)
    (mScreenImage s) v (mWindowStack s) (mPendingBackingStores s)
    (fbWindows s) (windows s) (backingStores s) (postedEvents s) (effects s).

Definition set_mWindowStack (v : list QFbWindowPtr) (s : State) : State :=
  mkState (mUpdatePending s) (mCursor s) (mDepth s) (mFormat s) (mPainter s) (mGeometry s)
    (mScreenImage s) (mRepaintRegion s) v (mPendingBackingStores s)
    (fbWindows s) (windows s) (backingStores s) (postedEvents s) (effects s).

Definition set_mPendingBackingStores (v : list QFbBackingStorePtr) (s : State) : State :=
  mkState (mUpdatePending s) (mCursor s) (mDepth s) (mFormat s) (mPainter s) (mGeometry s)
    (mScreenImage s) (mRepaintRegion s) (mWindowStack s) v
    (fbWindows s) (windows s) (backingStores s) (postedEvents s) (effects s).

Definition set_fbWindows (v : QFbWindowPtr -> QFbWindow) (s : State) : State :=
  mkState (mUpdatePending s) (mCursor s) (mDepth s) (mFormat s) (mPainter s) (mGeometry s)
    (mScreenImage s) (mRepaintRegion s) (mWindowStack s) (mPendingBackingStores s)
    v (windows s) (backingStores s) (postedEvents s) (effects s).

Definition set_postedEvents (v : list QEvent) (s : State) : State :=
  mkState (mUpdatePending s) (mCursor s) (mDepth s) (mFormat s) (mPainter s) (mGeometry s)
    (mScreenImage s) (mRepaintRegion s) (mWindowStack s) (mPendingBackingStores s)
    (fbWindows s) (windows s) (backingStores s) v (effects s).

Definition set_effects (v : list Effect) (s : State) : State :=
  mkState (mUpdatePending s) (mCursor s) (mDepth s) (mFormat s) (mPainter s) (mGeometry s)
    (mScreenImage s) (mRepaintRegion s) (mWindowStack s) (mPendingBackingStores s)
    (fbWindows s) (windows s) (backingStores s) (postedEvents s) v.

(** Records one outgoing call. *)
Definition emit (e : Effect) (s : State) : State := set_effects (effects s ++ [e]) s.

(** [QCoreApplication::postEvent(this, event)] *)
Definition postEvent (e : QEvent) (s : State) : State :=
  set_postedEvents (postedEvents s ++ [e]) s.

(** [window->setBackingStore(bs)], through the pointer. *)
Definition setBackingStore (w : QFbWindowPtr) (bs : QFbBackingStorePtr) (s : State) : State :=
  set_fbWindows
    (fun x => if Nat.eqb x w then QFbWindow_setBackingStore (fbWindows s w) bs
              else fbWindows s x) s.

(** The constructor: nothing pending, no cursor, depth 16, RGB16, no
    painter; the members without an initialiser are default-constructed.
    The objects outside the screen and the (empty) image are arguments. *)
Definition QFbScreen_new (ws : QFbWindowPtr -> QFbWindow) (qs : QWindowPtr -> QWindow)
           (bs : QFbBackingStorePtr -> QFbBackingStore) (img : QImage) : State :=
  mkState false None 16 Format_RGB16 None QRect_null img QRegion_new [] [] ws qs bs [] [].

(** ** Damage accumulation and update scheduling *)

Definition scheduleUpdate (s : State) : State :=
  if negb (mUpdatePending s)
  then postEvent UpdateRequest (set_mUpdatePending true s)
  else s.

Definition setDirty (rect : QRect) (s : State) : State :=
  let intersection := QRect_intersected rect (mGeometry s) in
  let screenOffset := QRect_topLeft (mGeometry s) in
  let s := set_mRepaintRegion
             (QRegion_addRect (mRepaintRegion s)
                (QRect_translated intersection (QPoint_neg screenOffset))) s in
  scheduleUpdate s.

(** [QImage(size, format)] leaves the pixels uninitialised: their content
    [garbage] is an argument. *)
Definition initializeCompositor (garbage : QPoint -> QColor) (s : State) : State :=
  let s := set_mScreenImage (mkImage (QRect_size (mGeometry s)) (mFormat s) garbage) s in
  scheduleUpdate s.

(** ** The window stack *)

Fixpoint topWindow_in (s : State) (l : list QFbWindowPtr) : option QWindowPtr :=
  match l with
  | [] => None
  | fbw :: t =>
      if isWindowOrDialog (win_type (windows s (fbw_window (fbWindows s fbw))))
      then Some (fbw_window (fbWindows s fbw))
      else topWindow_in s t
  end.

Definition topWindow (s : State) : option QWindowPtr := topWindow_in s (mWindowStack s).

Fixpoint topLevelAt_in (s : State) (l : list QFbWindowPtr) (p : QPoint) : option QWindowPtr :=
  match l with
  | [] => None
  | fbw :: t =>
      if QRect_contains (fbw_geometry (fbWindows s fbw)) p
         && win_isVisible (windows s (fbw_window (fbWindows s fbw)))
      then Some (fbw_window (fbWindows s fbw))
      else topLevelAt_in s t p
  end.

Definition topLevelAt (p : QPoint) (s : State) : option QWindowPtr :=
  topLevelAt_in s (mWindowStack s) p.

Definition windowCount (s : State) : Z := QList.size (mWindowStack s).

Fixpoint windowForId_in (s : State) (l : list QFbWindowPtr) (wid : WId) : option QFbWindowPtr :=
  match l with
  | [] => None
  | w :: t => if fbw_winId (fbWindows s w) =? wid then Some w else windowForId_in s t wid
  end.

Definition windowForId (wid : WId) (s : State) : option QFbWindowPtr :=
  windowForId_in s (mWindowStack s) wid.

(** The common tail of the four stack operations: [topWindow()] is
    computed once and handed to the two announcements. *)
Definition announceTopWindow (s : State) : State :=
  let w := topWindow s in
  emit (TopWindowChanged w) (emit (HandleWindowActivated w) s).

(** The scan of the pending list in [addWindow]: index and pointer of the
    first pending store whose [window()] is [target]. *)
Fixpoint findPending (s : State) (l : list QFbBackingStorePtr) (i : Z) (target : QWindowPtr)
  : option (Z * QFbBackingStorePtr) :=
  match l with
  | [] => None
  | bs :: t =>
      if Nat.eqb (bs_window (backingStores s bs)) target then Some (i, bs)
      else findPending s t (i + 1) target
  end.

Definition addWindow (window : QFbWindowPtr) (s : State) : Outcome State :=
  match fbw_backingStore (fbWindows s window) with
  | None => AssertionFailed
  | Some _ =>
      let s := set_mWindowStack (QList.prepend window (mWindowStack s)) s in
      let s :=
        if negb (QList.isEmpty (mPendingBackingStores s))
        then match findPending s (mPendingBackingStores s) 0
                     (fbw_window (fbWindows s window)) with
             | Some (i, bs) =>
                 let s := setBackingStore window bs s in
                 set_mPendingBackingStores (QList.removeAt (mPendingBackingStores s) i) s
             | None => s
             end
        else s in
      let s := setDirty (fbw_geometry (fbWindows s window)) s in
      Finished (announceTopWindow s)
  end.

Definition removeWindow (window : QFbWindowPtr) (s : State) : State :=
  let s := set_mWindowStack (QList.removeOne (mWindowStack s) window) s in
  let s := setDirty (fbw_geometry (fbWindows s window)) s in
  announceTopWindow s.

Definition raise (window : QFbWindowPtr) (s : State) : State :=
  let index := QList.indexOf (mWindowStack s) window in
  if index <=? 0 then s
  else
    let s := set_mWindowStack (QList.move (mWindowStack s) index 0) s in
    let s := setDirty (fbw_geometry (fbWindows s window)) s in
    announceTopWindow s.

Definition lower (window : QFbWindowPtr) (s : State) : State :=
  let index := QList.indexOf (mWindowStack s) window in
  if (index =? -1) || (index =? QList.size (mWindowStack s) - 1) then s
  else
    let s := set_mWindowStack
               (QList.move (mWindowStack s) index (QList.size (mWindowStack s) - 1)) s in
    let s := setDirty (fbw_geometry (fbWindows s window)) s in
    announceTopWindow s.

(** ** The redraw algorithm *)

(** Calls on [mPainter].  They are made after the painter has been
    created; on a null painter the model does nothing. *)
Definition painter_setCompositionMode (m : CompositionMode) (s : State) : State :=
  match mPainter s with
  | Some _ => emit (SetCompositionMode m) (set_mPainter (Some (mkPainter m)) s)
  | None => s
  end.

Definition painter_fillRect (rect : QRect) (c : QColor) (s : State) : State :=
  match mPainter s with
  | Some p =>
      emit (FillRect rect c)
           (set_mScreenImage (QPainter_fillRect p (mScreenImage s) rect c) s)
  | None => s
  end.

Definition painter_drawImage (target : QRect) (bs : QFbBackingStorePtr) (source : QRect)
           (s : State) : State :=
  match mPainter s with
  | Some p =>
      emit (DrawImage target bs source)
           (set_mScreenImage
              (QPainter_drawImage p (mScreenImage s) target
                 (bs_image (backingStores s bs)) source) s)
  | None => s
  end.

(** Body of the layer loop, for one [layerIndex]. *)
Definition paintLayer (screenOffset : QPoint) (rect : QRect) (layerIndex : nat) (s : State)
  : State :=
  match nth_error (mWindowStack s) layerIndex with
  | None => s
  | Some w =>
      if negb (win_isVisible (windows s (fbw_window (fbWindows s w)))) then s
      else
        let windowRect :=
          QRect_translated (fbw_geometry (fbWindows s w)) (QPoint_neg screenOffset) in
        let windowIntersect :=
          QRect_translated_xy rect (- QRect_left windowRect) (- QRect_top windowRect) in
        match fbw_backingStore (fbWindows s w) with
        | Some backingStore =>
            let s := emit (Lock backingStore) s in
            let s := painter_drawImage rect backingStore windowIntersect s in
            emit (Unlock backingStore) s
        | None => s
        end
  end.

(** [for (layerIndex = size - 1; layerIndex != -1; layerIndex--)]: with
    [n] layers left, the next index is [n - 1]. *)
Fixpoint paintLayers (screenOffset : QPoint) (rect : QRect) (n : nat) (s : State) : State :=
  match n with
  | O => s
  | S layerIndex =>
      paintLayers screenOffset rect layerIndex (paintLayer screenOffset rect layerIndex s)
  end.

(** Body of the loop over the rectangles of the damage region. *)
Definition paintRect (screenOffset : QPoint) (screenRect : QRect) (s : State) (rect : QRect)
  : State :=
  let rect := QRect_intersected rect screenRect in
  if QRect_isEmpty rect then s
  else
    let s := painter_setCompositionMode CompositionMode_Source s in
    let s := painter_fillRect rect
               (if QImage_hasAlphaChannel (mScreenImage s) then Qt_transparent else Qt_black)
               s in
    paintLayers screenOffset rect (length (mWindowStack s)) s.

(** The first statement of [doRedraw]: a dirty, on-screen cursor adds
    [dirtyRect()] to the damage. *)
Definition absorbCursorDamage (s : State) : State :=
  match mCursor s with
  | Some c =>
      if isDirty c && isOnScreen c
      then let (lastCursor, c') := dirtyRect c in
           set_mRepaintRegion (QRegion_addRect (mRepaintRegion s) lastCursor)
             (set_mCursor (Some c') s)
      else s
  | None => s
  end.

(** [mCursor && mCursor->isDirty()] *)
Definition cursorIsDirty (s : State) : bool :=
  match mCursor s with Some c => isDirty c | None => false end.

(** [if (!mPainter) mPainter = new QPainter(&mScreenImage);] *)
Definition ensurePainter (s : State) : State :=
  match mPainter s with
  | Some _ => s
  | None => emit NewPainter (set_mPainter (Some QPainter_new) s)
  end.

(** The cursor overlay that follows the rectangle loop; returns what it
    adds to [touchedRegion]. *)
Definition overlayCursor (s : State) : QRegion * State :=
  match mCursor s with
  | Some c =>
      if isDirty c || QRegion_intersects (mRepaintRegion s) (lastPainted c)
      then
        let s := painter_setCompositionMode CompositionMode_SourceOver s in
        match mPainter s with
        | Some p =>
            let '(touched, c', (p', image')) := drawCursor c (p, mScreenImage s) in
            (touched,
             emit (DrawCursor touched)
                  (set_mScreenImage image' (set_mPainter (Some p') (set_mCursor (Some c') s))))
        | None => (QRegion_new, s)
        end
      else (QRegion_new, s)
  | None => (QRegion_new, s)
  end.

Definition doRedraw (s : State) : QRegion * State :=
  let screenOffset := QRect_topLeft (mGeometry s) in
  let touchedRegion := QRegion_new in
  let s := absorbCursorDamage s in
  if QRegion_isEmpty (mRepaintRegion s) && negb (cursorIsDirty s)
  then (touchedRegion, s)
  else
    let s := ensurePainter s in
    let screenRect := QRect_translated (mGeometry s) (QPoint_neg screenOffset) in
    let s := fold_left (paintRect screenOffset screenRect) (mRepaintRegion s) s in
    let (cursorRegion, s) := overlayCursor s in
    let touchedRegion := QRegion_united touchedRegion cursorRegion in
    let touchedRegion := QRegion_united touchedRegion (mRepaintRegion s) in
    let s := set_mRepaintRegion QRegion_new s in
    (touchedRegion, s).

(** ** Event delivery *)

Definition event (e : QEvent) (s : State) : EventResult * State :=
  if QEvent_isUpdateRequest e
  then
    let (_, s) := doRedraw s in
    let s := set_mUpdatePending false s in
    (Returned true, s)
  else (QObject_event e, s).

(** ** The host: operations on the screen and the event loop *)

(** One turn of the event loop: the oldest posted event leaves the queue
    and is delivered to [event]. *)
Definition dispatch (s : State) : State :=
  match postedEvents s with
  | [] => s
  | e :: rest => snd (event e (set_postedEvents rest s))
  end.

(** What the platform plugin and the event loop can ask of the screen. *)
Inductive Op : Type :=
| OpAddWindow (w : QFbWindowPtr)
| OpRemoveWindow (w : QFbWindowPtr)
| OpRaise (w : QFbWindowPtr)
| OpLower (w : QFbWindowPtr)
| OpSetDirty (rect : QRect)
| OpScheduleUpdate
| OpInitializeCompositor (garbage : QPoint -> QColor)
| OpDispatch.

Definition step (op : Op) (s : State) : Outcome State :=
  match op with
  | OpAddWindow w => addWindow w s
  | OpRemoveWindow w => Finished (removeWindow w s)
  | OpRaise w => Finished (raise w s)
  | OpLower w => Finished (lower w s)
  | OpSetDirty rect => Finished (setDirty rect s)
  | OpScheduleUpdate => Finished (scheduleUpdate s)
  | OpInitializeCompositor garbage => Finished (initializeCompositor garbage s)
  | OpDispatch => Finished (dispatch s)
  end.

Fixpoint run (ops : list Op) (s : State) : Outcome State :=
  match ops with
  | [] => Finished s
  | op :: rest =>
      match step op s with
      | Finished s' => run rest s'
      | AssertionFailed => AssertionFailed
      end
  end.

(** Number of [addWindow] calls in a sequence. *)
Fixpoint countAdds (ops : list Op) : Z :=
  match ops with
  | [] => 0
  | OpAddWindow _ :: rest => 1 + countAdds rest
  | _ :: rest => countAdds rest
  end.

Definition inStack (w : QFbWindowPtr) (s : State) : bool :=
  existsb (Nat.eqb w) (mWindowStack s).

(** Number of [removeWindow] calls of a sequence run from [s] that find
    their window in the stack. *)
Fixpoint countRemoved (ops : list Op) (s : State) : Z :=
  match ops with
  | [] => 0
  | op :: rest =>
      match step op s with
      | Finished s' =>
          (match op with
           | OpRemoveWindow w => if inStack w s then 1 else 0
           | _ => 0
           end) + countRemoved rest s'
      | AssertionFailed => 0
      end
  end.

(** Number of redraw notifications waiting in the queue. *)
Definition queuedRedraws (s : State) : nat :=
  length (filter QEvent_isUpdateRequest (postedEvents s)).

(** The queue and the flag agree: one notification is queued exactly when
    an update is pending. *)
Definition flagMatchesQueue (s : State) : Prop :=
  queuedRedraws s = if mUpdatePending s then 1%nat else 0%nat.

(** ** Observations used to state the properties *)

(** The calls made to the outside between [s] and a later state [s']. *)
Definition performed (s s' : State) : list Effect :=
  skipn (length (effects s)) (effects s').

Definition isDrawCursor (e : Effect) : bool :=
  match e with DrawCursor _ => true | _ => false end.

Definition cursorComposited (calls : list Effect) : bool := existsb isDrawCursor calls.

Definition isPaint (e : Effect) : bool :=
  match e with
  | FillRect _ _ | DrawImage _ _ _ | DrawCursor _ => true
  | _ => false
  end.

Fixpoint filledRects (calls : list Effect) : list QRect :=
  match calls with
  | [] => []
  | FillRect r _ :: rest => r :: filledRects rest
  | _ :: rest => filledRects rest
  end.

(** "Fully transparent if the output image supports an alpha channel,
    otherwise opaque black." *)
Definition backgroundColor (s : State) : QColor :=
  if QImage_hasAlphaChannel (mScreenImage s) then Qt_transparent else Qt_black.

(** The screen in its own coordinates. *)
Definition screenRect (s : State) : QRect :=
  QRect_translated (mGeometry s) (QPoint_neg (QRect_topLeft (mGeometry s))).

(** A window's geometry in the screen's coordinates. *)
Definition windowRect (s : State) (w : QFbWindowPtr) : QRect :=
  QRect_translated (fbw_geometry (fbWindows s w)) (QPoint_neg (QRect_topLeft (mGeometry s))).

Definition isVisible (s : State) (w : QFbWindowPtr) : bool :=
  win_isVisible (windows s (fbw_window (fbWindows s w))).

(** The damaged rectangles as the loop processes them: clipped to the
    screen, the empty ones dropped. *)
Definition processedRects (s : State) (R : QRegion) : list QRect :=
  filter (fun r => negb (QRect_isEmpty r))
         (map (fun r => QRect_intersected r (screenRect s)) R).

(** The calls expected for one window when [rect] is repainted. *)
Definition layerCalls (s : State) (rect : QRect) (w : QFbWindowPtr) : list Effect :=
  if isVisible s w then
    match fbw_backingStore (fbWindows s w) with
    | Some bs =>
        [Lock bs;
         DrawImage rect bs
           (QRect_translated_xy rect (- QRect_left (windowRect s w)) (- QRect_top (windowRect s w)));
         Unlock bs]
    | None => []
    end
  else [].

(** The calls expected for one processed rectangle: background first, then
    the stack from its last entry to its first. *)
Definition rectCalls (s : State) (rect : QRect) : list Effect :=
  SetCompositionMode CompositionMode_Source
  :: FillRect rect (backgroundColor s)
  :: flat_map (layerCalls s rect) (rev (mWindowStack s)).

(** The pixel the stack shows at the screen point [p]: that of the first
    window from the top that is visible, has a backing store and covers
    [p]; the background when there is none. *)
Fixpoint topmostPixel (s : State) (bg : QColor) (stack : list QFbWindowPtr) (p : QPoint)
  : QColor :=
  match stack with
  | [] => bg
  | w :: below =>
      match fbw_backingStore (fbWindows s w) with
      | Some bs =>
          if isVisible s w && QRect_contains (windowRect s w) p
          then pixel (bs_image (backingStores s bs))
                     (mkPoint (px p - x1 (windowRect s w)) (py p - y1 (windowRect s w)))
          else topmostPixel s bg below p
      | None => topmostPixel s bg below p
      end
  end.

(** The image after one window has been drawn over [rect] of [img]. *)
Definition layerImage (s : State) (p : QPainter) (rect : QRect) (img : QImage)
           (w : QFbWindowPtr) : QImage :=
  if isVisible s w then
    match fbw_backingStore (fbWindows s w) with
    | Some bs =>
        QPainter_drawImage p img rect (bs_image (backingStores s bs))
          (QRect_translated_xy rect (- QRect_left (windowRect s w)) (- QRect_top (windowRect s w)))
    | None => img
    end
  else img.

(** The image after one processed rectangle: background, then the stack
    from its last entry to its first, all in source-replace mode. *)
Definition rectImage (s : State) (img : QImage) (rect : QRect) : QImage :=
  fold_left (layerImage s (mkPainter CompositionMode_Source) rect) (rev (mWindowStack s))
    (QPainter_fillRect (mkPainter CompositionMode_Source) img rect (backgroundColor s)).

Definition regionImage (s : State) (img : QImage) (rects : list QRect) : QImage :=
  fold_left (rectImage s) rects img.

(** [s] after some painting: a painter in state [p], the image [img] and
    the further calls [calls]. *)
Definition painted (p : QPainter) (img : QImage) (calls : list Effect) (s : State) : State :=
  set_effects (effects s ++ calls) (set_mScreenImage img (set_mPainter (Some p) s)).

(** The early exit of [doRedraw], on the state that has absorbed the
    cursor's damage. *)
Definition skipsRedraw (s1 : State) : bool :=
  QRegion_isEmpty (mRepaintRegion s1) && negb (cursorIsDirty s1).

(** The condition under which [doRedraw] composites the cursor, on the
    state that has absorbed the cursor's damage. *)
Definition redrawsCursor (s1 : State) : bool :=
  match mCursor s1 with
  | Some c => isDirty c || QRegion_intersects (mRepaintRegion s1) (lastPainted c)
  | None => false
  end.

(** What [drawCursor] reports when it is handed a source-over painter on
    the image left by the rectangle loop. *)
Definition cursorTouched (s1 : State) : QRegion :=
  match mCursor s1 with
  | Some c =>
      fst (fst (drawCursor c
                  (mkPainter CompositionMode_SourceOver,
                   regionImage s1 (mScreenImage s1)
                     (processedRects s1 (mRepaintRegion s1)))))
  | None => QRegion_new
  end.

(** The calls one redraw is expected to make, in order. *)
Definition redrawCalls (s : State) : list Effect :=
  let s1 := absorbCursorDamage s in
  if skipsRedraw s1 then []
  else
    (match mPainter s1 with Some _ => [] | None => [NewPainter] end)
    ++ flat_map (rectCalls s1) (processedRects s1 (mRepaintRegion s1))
    ++ (if redrawsCursor s1
        then [SetCompositionMode CompositionMode_SourceOver; DrawCursor (cursorTouched s1)]
        else []).

(** The region one redraw is expected to return. *)
Definition redrawTouched (s : State) : QRegion :=
  let s1 := absorbCursorDamage s in
  if skipsRedraw s1 then QRegion_new
  else QRegion_united (if redrawsCursor s1 then cursorTouched s1 else QRegion_new)
                      (mRepaintRegion s1).

(** The state after the rectangle loop of a redraw that is not skipped. *)
Definition afterRects (s1 : State) : State :=
  painted (match processedRects s1 (mRepaintRegion s1) with
           | [] => match mPainter s1 with Some p => p | None => QPainter_new end
           | _ :: _ => mkPainter CompositionMode_Source
           end)
    (regionImage s1 (mScreenImage s1) (processedRects s1 (mRepaintRegion s1)))
    ((match mPainter s1 with Some _ => [] | None => [NewPainter] end)
     ++ flat_map (rectCalls s1) (processedRects s1 (mRepaintRegion s1))) s1.

(** Every stacked window's backing-store image has the size of the
    window. *)
Definition storesFitWindows (s : State) : Prop :=
  forall w bs, In w (mWindowStack s) ->
    fbw_backingStore (fbWindows s w) = Some bs ->
    img_size (bs_image (backingStores s bs)) = QRect_size (fbw_geometry (fbWindows s w)).

(** ** Further observations *)

(** [topWindow]'s test on a stack entry: a normal window or a dialog. *)
Definition qualifies (s : State) (w : QFbWindowPtr) : bool :=
  isWindowOrDialog (win_type (windows s (fbw_window (fbWindows s w)))).

(** [topLevelAt]'s test on a stack entry: its geometry contains the point
    and its window is visible. *)
Definition hits (s : State) (p : QPoint) (w : QFbWindowPtr) : bool :=
  QRect_contains (fbw_geometry (fbWindows s w)) p
  && win_isVisible (windows s (fbw_window (fbWindows s w))).

(** The stack entry [topLevelAt] stops at. *)
Fixpoint topLevelEntryAt (s : State) (l : list QFbWindowPtr) (p : QPoint)
  : option QFbWindowPtr :=
  match l with
  | [] => None
  | w :: t => if hits s p w then Some w else topLevelEntryAt s t p
  end.

(** What [setDirty rect] unites with the damage region: [rect] clipped to
    the screen geometry, in the screen's own coordinates. *)
Definition damageOf (s : State) (rect : QRect) : QRect :=
  QRect_translated (QRect_intersected rect (mGeometry s))
    (QPoint_neg (QRect_topLeft (mGeometry s))).

(** Several [setDirty] calls in a row. *)
Definition setDirtyAll (rects : list QRect) (s : State) : State :=
  fold_left (fun st r => setDirty r st) rects s.

(** The locking discipline of a sequence of calls, [held] being the store
    locked so far: a store is locked only when none is, an image is drawn
    only from the locked store, the locked store is the one unlocked, and
    nothing else is painted and no painter is made while a store is
    locked; no store stays locked at the end. *)
Fixpoint lockDiscipline (held : option QFbBackingStorePtr) (calls : list Effect) : bool :=
  match calls with
  | [] => match held with None => true | Some _ => false end
  | Lock bs :: rest =>
      match held with None => lockDiscipline (Some bs) rest | Some _ => false end
  | DrawImage _ bs _ :: rest =>
      match held with
      | Some b => Nat.eqb b bs && lockDiscipline held rest
      | None => false
      end
  | Unlock bs :: rest =>
      match held with
      | Some b => Nat.eqb b bs && lockDiscipline None rest
      | None => false
      end
  | FillRect _ _ :: rest | DrawCursor _ :: rest | NewPainter :: rest =>
      match held with None => lockDiscipline None rest | Some _ => false end
  | _ :: rest => lockDiscipline held rest
  end.

(** The rectangles of the output image that a sequence of calls paints
    on through [fillRect] and [drawImage]. *)
Fixpoint paintTargets (calls : list Effect) : list QRect :=
  match calls with
  | [] => []
  | FillRect r _ :: rest => r :: paintTargets rest
  | DrawImage r _ _ :: rest => r :: paintTargets rest
  | _ :: rest => paintTargets rest
  end.

(** [a] has a point and lies inside [b]. *)
Definition QRect_within (a b : QRect) : bool :=
  negb (QRect_isEmpty a)
  && (x1 b <=? x1 a) && (x2 a <=? x2 b) && (y1 b <=? y1 a) && (y2 a <=? y2 b).

(** Number of painters constructed in a sequence of calls. *)
Definition countNewPainter (calls : list Effect) : nat :=
  length (filter (fun e => match e with NewPainter => true | _ => false end) calls).

(** The output image has the size of the screen geometry. *)
Definition sizeMatches (s : State) : Prop :=
  img_size (mScreenImage s) = QRect_size (mGeometry s).

(** The two announcements that end a change of the stack. *)
Definition announcements (w : option QWindowPtr) : list Effect :=
  [HandleWindowActivated w; TopWindowChanged w].

(** The painter exists exactly when its construction has been recorded
    once. *)
Definition painterMadeOnce (s : State) : Prop :=
  countNewPainter (effects s) = match mPainter s with Some _ => 1%nat | None => 0%nat end.

(** Every stacked window has a backing store. *)
Definition allHaveStores (s : State) : Prop :=
  forall w, In w (mWindowStack s) -> fbw_backingStore (fbWindows s w) <> None.

(** The global point that the screen point [p] stands for. *)
Definition toGlobal (s : State) (p : QPoint) : QPoint :=
  mkPoint (px p + x1 (mGeometry s)) (py p + y1 (mGeometry s)).

(** [p] is a damaged point of the screen that the output image holds. *)
Definition damagedOnScreen (s : State) (p : QPoint) : bool :=
  QRegion_contains (mRepaintRegion s) p && QRect_contains (screenRect s) p
  && QRect_contains (QImage_rect (mScreenImage s)) p.

(** The pixel of a window's backing store that belongs at the screen
    point [p]; [bg] for a window without store. *)
Definition windowPixelAt (s : State) (bg : QColor) (w : QFbWindowPtr) (p : QPoint) : QColor :=
  match fbw_backingStore (fbWindows s w) with
  | Some bs =>
      pixel (bs_image (backingStores s bs))
            (mkPoint (px p - x1 (windowRect s w)) (py p - y1 (windowRect s w)))
  | None => bg
  end.

(** [drawCursor] leaves the size of the image it paints on as it is. *)
Definition cursorKeepsImageSize : Prop :=
  forall (c : Cursor) (pd : QPainter * QImage),
    img_size (snd (snd (drawCursor c pd))) = img_size (snd pd).

End Screen.

(* ===================================================================== *)
(** * Fixtures: a concrete cursor and concrete screens *)
(* ===================================================================== *)

Module Fixture.

(** A cursor implementation to run the screen with: a sprite that
    remembers where it was last painted and where it is now.  It stands
    for no particular platform cursor. *)
Record SpriteCursor : Type := mkSprite {
  sc_visible : bool;
  sc_dirty : bool;
  sc_onScreen : bool;
  sc_prevRect : QRect;
  sc_currentRect : QRect;
  sc_image : QImage
}.

Definition sprite_dirtyRect (c : SpriteCursor) : QRect * SpriteCursor :=
  if sc_onScreen c
  then (sc_prevRect c,
        mkSprite (sc_visible c) (sc_dirty c) false (sc_prevRect c) (sc_currentRect c) (sc_image c))
  else (QRect_null, c).

Definition sprite_drawCursor (c : SpriteCursor) (pd : QPainter * QImage)
  : QRegion * SpriteCursor * (QPainter * QImage) :=
  if negb (sc_visible c) then (QRegion_new, c, pd)
  else if QRect_isEmpty (sc_currentRect c)
  then (QRegion_new,
        mkSprite true false (sc_onScreen c) (sc_prevRect c) (sc_currentRect c) (sc_image c),
        pd)
  else (QRegion_addRect QRegion_new (sc_currentRect c),
        mkSprite true false true (sc_currentRect c) (sc_currentRect c) (sc_image c),
        (fst pd,
         QPainter_drawImage (fst pd) (snd pd) (sc_currentRect c) (sc_image c)
           (QImage_rect (sc_image c)))).

#[export] Instance spriteCursorOps : QFbCursorOps SpriteCursor := {
  isDirty := sc_dirty;
  isOnScreen := sc_onScreen;
  dirtyRect := sprite_dirtyRect;
  lastPainted := sc_prevRect;
  drawCursor := sprite_drawCursor
}.

Definition red : QColor := mkColor 255 255 0 0.
Definition grey : QColor := mkColor 255 128 128 128.

(** A 4x4 opaque arrow sprite (one colour is enough here). *)
Definition arrow : QImage := QImage_solid (mkSize 4 4) Format_ARGB32_Premultiplied red.

(** Every window pointer leads to a window of geometry [geom] whose
    backing store is store 1. *)
Definition oneWindow (geom : QRect) : QFbWindowPtr -> QFbWindow :=
  fun _ => mkFbWindow 1%nat geom (Some 1%nat) 1.
Definition allVisible : QWindowPtr -> QWindow := fun _ => mkWindow Qt_Window true.
Definition solidStore (sz : QSize) (f : Format) (c : QColor)
  : QFbBackingStorePtr -> QFbBackingStore :=
  fun _ => mkBackingStore 1%nat (QImage_solid sz f c).

(** The screen of the scenario with its rectangles read by their corners:
    corners (0,0) and (100,100), one visible window with corners (10,10)
    and (50,50) filled with [c], an output image of format [f] whose
    previous content is [old]; no cursor. *)
Definition scene {Cursor : Type} (f : Format) (c : QColor) (old : QPoint -> QColor)
  : @State Cursor :=
  mkState false None 32 f None (QRect_corners 0 0 100 100)
    (mkImage (mkSize 101 101) f old) QRegion_new [1%nat] []
    (oneWindow (QRect_corners 10 10 50 50)) allVisible
    (solidStore (mkSize 41 41) f c) [] [].

(** The screen of the scenario with its rectangles read as (x, y, width,
    height), the way [QRect] is constructed: a 100x100 screen at (0,0) and
    one visible 50x50 window at (10,10) filled with [c]. *)
Definition sceneXYWH {Cursor : Type} (f : Format) (c : QColor) (old : QPoint -> QColor)
  : @State Cursor :=
  mkState false None 32 f None (QRect_xywh 0 0 100 100)
    (mkImage (mkSize 100 100) f old) QRegion_new [1%nat] []
    (oneWindow (QRect_xywh 10 10 50 50)) allVisible
    (solidStore (mkSize 50 50) f c) [] [].

(** A screen whose top-left corner is not the origin: 100x100 at
    (100, 0), no window, no cursor. *)
Definition offsetScreen : @State SpriteCursor :=
  mkState false None 32 Format_RGB32 None (QRect_xywh 100 0 100 100)
    (QImage_solid (mkSize 100 100) Format_RGB32 Qt_black) QRegion_new [] []
    (oneWindow QRect_null) allVisible (solidStore (mkSize 0 0) Format_RGB32 grey) [] [].

(** A 100x100 screen at the origin with a clean cursor last painted at
    [A = (20,20) 4x4] and now standing at [(60,60) 4x4]. *)
Definition movedCursor : SpriteCursor :=
  mkSprite true false true (QRect_xywh 20 20 4 4) (QRect_xywh 60 60 4 4) arrow.

Definition cursorScreen (c : option SpriteCursor) : @State SpriteCursor :=
  mkState false c 32 Format_RGB32 None (QRect_xywh 0 0 100 100)
    (QImage_solid (mkSize 100 100) Format_RGB32 Qt_black) QRegion_new [1%nat] []
    (oneWindow (QRect_xywh 10 10 50 50)) allVisible
    (solidStore (mkSize 50 50) Format_RGB32 grey) [] [].

(** A dirty, on-screen cursor about to leave [(20,20) 4x4]. *)
Definition dirtyCursor : SpriteCursor :=
  mkSprite true true true (QRect_xywh 20 20 4 4) (QRect_xywh 60 60 4 4) arrow.

(** Stores for the window-stack examples: windows 1..3, window 3 a
    tooltip without backing store, one pending store (7) made for the
    surface of window 2. *)
Definition stackWindows : QFbWindowPtr -> QFbWindow :=
  fun w => match w with
           | 1%nat => mkFbWindow 11%nat (QRect_xywh 0 0 30 30) (Some 1%nat) 101
           | 2%nat => mkFbWindow 12%nat (QRect_xywh 20 20 30 30) (Some 2%nat) 102
           | _ => mkFbWindow 13%nat (QRect_xywh 5 5 10 10) None 103
           end.
Definition stackQWindows : QWindowPtr -> QWindow :=
  fun q => match q with
           | 13%nat => mkWindow Qt_ToolTip true
           | _ => mkWindow Qt_Window true
           end.
Definition stackStores : QFbBackingStorePtr -> QFbBackingStore :=
  fun b => match b with
           | 7%nat => mkBackingStore 12%nat (QImage_solid (mkSize 30 30) Format_RGB32 red)
           | 2%nat => mkBackingStore 99%nat (QImage_solid (mkSize 30 30) Format_RGB32 grey)
           | _ => mkBackingStore 11%nat (QImage_solid (mkSize 30 30) Format_RGB32 grey)
           end.

Definition stackScreen (stack : list QFbWindowPtr) (pending : list QFbBackingStorePtr)
  : @State SpriteCursor :=
  mkState false None 32 Format_RGB32 None (QRect_xywh 0 0 100 100)
    (QImage_solid (mkSize 100 100) Format_RGB32 Qt_black) QRegion_new stack pending
    stackWindows stackQWindows stackStores [] [].

(** A desk for the examples of the stack and of hit testing: window 1 a
    normal window at (0,0) 30x30 drawn grey, window 2 a normal window at
    (20,20) 30x30 drawn red, every other window a tooltip at (5,5) 10x10
    drawn black; each has a backing store of its own size. *)
Definition deskWindows : QFbWindowPtr -> QFbWindow :=
  fun w => match w with
           | 1%nat => mkFbWindow 11%nat (QRect_xywh 0 0 30 30) (Some 1%nat) 101
           | 2%nat => mkFbWindow 12%nat (QRect_xywh 20 20 30 30) (Some 2%nat) 102
           | _ => mkFbWindow 13%nat (QRect_xywh 5 5 10 10) (Some 3%nat) 103
           end.
Definition deskStores : QFbBackingStorePtr -> QFbBackingStore :=
  fun b => match b with
           | 1%nat => mkBackingStore 11%nat (QImage_solid (mkSize 30 30) Format_RGB32 grey)
           | 2%nat => mkBackingStore 12%nat (QImage_solid (mkSize 30 30) Format_RGB32 red)
           | _ => mkBackingStore 13%nat (QImage_solid (mkSize 10 10) Format_RGB32 Qt_black)
           end.

Definition deskScreen (stack : list QFbWindowPtr) : @State SpriteCursor :=
  mkState false None 32 Format_RGB32 None (QRect_xywh 0 0 100 100)
    (QImage_solid (mkSize 100 100) Format_RGB32 Qt_black) QRegion_new stack []
    deskWindows stackQWindows deskStores [] [].

(** A dirty cursor that has not been painted yet, standing at (60,60) 4x4. *)
Definition unpaintedCursor : SpriteCursor :=
  mkSprite true true false QRect_null (QRect_xywh 60 60 4 4) arrow.

(** The 100x100 screen at (0,0) with one visible 50x50 window at (10,10)
    whose backing store has kept a larger image, 100x100, filled with
    [c]. *)
Definition oversizedStoreScene {Cursor : Type} (f : Format) (c : QColor)
           (old : QPoint -> QColor) : @State Cursor :=
  mkState false None 32 f None (QRect_xywh 0 0 100 100)
    (mkImage (mkSize 100 100) f old) QRegion_new [1%nat] []
    (oneWindow (QRect_xywh 10 10 50 50)) allVisible
    (solidStore (mkSize 100 100) f c) [] [].

(** A clean cursor standing at the bottom-right corner of the 100x100
    screen, last painted at (98,98) 4x4: half of it hangs over the edge. *)
Definition edgeCursor : SpriteCursor :=
  mkSprite true false true (QRect_xywh 98 98 4 4) (QRect_xywh 98 98 4 4) arrow.

End Fixture.

(* ===================================================================== *)
(** * Properties *)
(* ===================================================================== *)

Unset Implicit Arguments.

(** ** Rectangles and regions as sets of points *)

Ltac zbool :=
  repeat match goal with
         | |- context [?a <=? ?b] => destruct (Z.leb_spec a b)
         | |- context [?a <? ?b] => destruct (Z.ltb_spec a b)
         | |- context [?a =? ?b] => destruct (Z.eqb_spec a b)
         end;
  simpl; try reflexivity; try lia.

Lemma QRect_contains_intersected (a b : QRect) (p : QPoint) :
  QRect_contains (QRect_intersected a b) p = QRect_contains a p && QRect_contains b p.
Proof.
  unfold QRect_contains, QRect_intersected; simpl. zbool.
Qed.

Lemma QRect_contains_translated (r : QRect) (d p : QPoint) :
  QRect_contains (QRect_translated r d) p
  = QRect_contains r (mkPoint (px p - px d) (py p - py d)).
Proof.
  unfold QRect_contains, QRect_translated, QRect_translated_xy; simpl. zbool.
Qed.

Lemma QRect_contains_translated_xy (r : QRect) (dx dy : Z) (p : QPoint) :
  QRect_contains (QRect_translated_xy r dx dy) p
  = QRect_contains r (mkPoint (px p - dx) (py p - dy)).
Proof.
  unfold QRect_contains, QRect_translated_xy; simpl. zbool.
Qed.

Lemma QRect_empty_contains (r : QRect) (p : QPoint) :
  QRect_isEmpty r = true -> QRect_contains r p = false.
Proof.
  unfold QRect_isEmpty, QRect_contains. intros H.
  apply orb_true_iff in H. rewrite !Z.ltb_lt in H. zbool.
Qed.

Lemma QRect_nonempty_topLeft (r : QRect) :
  QRect_isEmpty r = false -> QRect_contains r (QRect_topLeft r) = true.
Proof.
  unfold QRect_isEmpty, QRect_contains, QRect_topLeft; simpl. intros H.
  apply orb_false_iff in H. rewrite !Z.ltb_ge in H. zbool.
Qed.

Lemma QRect_isEmpty_iff (r : QRect) :
  QRect_isEmpty r = true <-> forall p, QRect_contains r p = false.
Proof.
  split.
  - intros H p. now apply QRect_empty_contains.
  - intros H. destruct (QRect_isEmpty r) eqn:E; [reflexivity|].
    apply QRect_nonempty_topLeft in E. rewrite H in E. discriminate.
Qed.

Lemma QRect_intersects_iff (a b : QRect) :
  QRect_intersects a b = true
  <-> exists p, QRect_contains a p = true /\ QRect_contains b p = true.
Proof.
  unfold QRect_intersects. split.
  - intros H. apply negb_true_iff in H. apply QRect_nonempty_topLeft in H.
    rewrite QRect_contains_intersected in H. apply andb_true_iff in H.
    eexists; exact H.
  - intros [p [Ha Hb]]. apply negb_true_iff.
    destruct (QRect_isEmpty (QRect_intersected a b)) eqn:E; [|reflexivity].
    apply QRect_empty_contains with (p := p) in E.
    rewrite QRect_contains_intersected, Ha, Hb in E. discriminate.
Qed.

Lemma QRegion_contains_app (R S : QRegion) (p : QPoint) :
  QRegion_contains (R ++ S) p = QRegion_contains R p || QRegion_contains S p.
Proof. unfold QRegion_contains. apply existsb_app. Qed.

Lemma QRegion_contains_addRect (R : QRegion) (r : QRect) (p : QPoint) :
  QRegion_contains (QRegion_addRect R r) p = QRegion_contains R p || QRect_contains r p.
Proof.
  unfold QRegion_addRect. destruct (QRect_isEmpty r) eqn:E.
  - rewrite (QRect_empty_contains r p E). now rewrite orb_false_r.
  - rewrite QRegion_contains_app. simpl. now rewrite orb_false_r.
Qed.

Lemma QRegion_addRect_wf (R : QRegion) (r : QRect) :
  QRegion_wf R -> QRegion_wf (QRegion_addRect R r).
Proof.
  unfold QRegion_wf, QRegion_addRect. intros H.
  destruct (QRect_isEmpty r) eqn:E; [exact H|].
  apply Forall_app. split; [exact H|]. constructor; [exact E|constructor].
Qed.

Lemma QRegion_isEmpty_nil (R : QRegion) : QRegion_isEmpty R = true -> R = [].
Proof. destruct R; [reflexivity|discriminate]. Qed.

Lemma QRegion_intersects_iff (R : QRegion) (r : QRect) :
  QRegion_intersects R r = true
  <-> exists p, QRegion_contains R p = true /\ QRect_contains r p = true.
Proof.
  unfold QRegion_intersects, QRegion_contains. rewrite existsb_exists. split.
  - intros [q [Hin Hq]]. apply QRect_intersects_iff in Hq. destruct Hq as [p [H1 H2]].
    exists p. split; [|exact H2]. apply existsb_exists. now exists q.
  - intros [p [H1 H2]]. apply existsb_exists in H1. destruct H1 as [q [Hin Hq]].
    exists q. split; [exact Hin|]. apply QRect_intersects_iff. now exists p.
Qed.

Section ScreenProperties.

Context {Cursor : Type} {cursorOps : QFbCursorOps Cursor}.

Local Abbreviation St := (@State Cursor).

(** ** Damage accumulation *)

Lemma scheduleUpdate_region (s : St) :
  mRepaintRegion (scheduleUpdate s) = mRepaintRegion s.
Proof. unfold scheduleUpdate. now destruct (mUpdatePending s). Qed.

Lemma scheduleUpdate_pending (s : St) : mUpdatePending (scheduleUpdate s) = true.
Proof. unfold scheduleUpdate. now destruct (mUpdatePending s) eqn:E. Qed.

Lemma scheduleUpdate_posted (s : St) :
  postedEvents (scheduleUpdate s)
  = if mUpdatePending s then postedEvents s else postedEvents s ++ [UpdateRequest].
Proof. unfold scheduleUpdate. now destruct (mUpdatePending s). Qed.

Lemma setDirty_region (rect : QRect) (s : St) :
  mRepaintRegion (setDirty rect s)
  = QRegion_addRect (mRepaintRegion s)
      (QRect_translated (QRect_intersected rect (mGeometry s))
         (QPoint_neg (QRect_topLeft (mGeometry s)))).
Proof. unfold setDirty. now rewrite scheduleUpdate_region. Qed.

(** The points of the damage that [setDirty rect] records, in the
    screen's coordinates. *)
Lemma setDirty_damage_contains (rect : QRect) (s : St) (p : QPoint) :
  QRect_contains
    (QRect_translated (QRect_intersected rect (mGeometry s))
       (QPoint_neg (QRect_topLeft (mGeometry s)))) p
  = QRect_contains rect (mkPoint (px p + x1 (mGeometry s)) (py p + y1 (mGeometry s)))
    && QRect_contains (mGeometry s) (mkPoint (px p + x1 (mGeometry s)) (py p + y1 (mGeometry s))).
Proof.
  rewrite QRect_contains_translated, QRect_contains_intersected. simpl.
  now replace (px p - - x1 (mGeometry s)) with (px p + x1 (mGeometry s)) by lia;
    replace (py p - - y1 (mGeometry s)) with (py p + y1 (mGeometry s)) by lia.
Qed.

(** C2.  [setDirty rect] makes the damage region the union of what it was
    with [rect], clipped to the screen geometry and moved to the screen's
    own coordinates (a local point [p] stands for the global point
    [p + topLeft]); it asks for a redraw (the update is pending afterwards
    and a notification is posted unless one was pending); a rectangle
    with no point inside the geometry leaves the damage region as it
    was. *)
Theorem setDirty_accumulates_damage (rect : QRect) (s : St) :
  (forall p,
      QRegion_contains (mRepaintRegion (setDirty rect s)) p
      = QRegion_contains (mRepaintRegion s) p
        || (QRect_contains rect (mkPoint (px p + x1 (mGeometry s)) (py p + y1 (mGeometry s)))
            && QRect_contains (mGeometry s)
                 (mkPoint (px p + x1 (mGeometry s)) (py p + y1 (mGeometry s)))))
  /\ setDirty rect s
     = scheduleUpdate
         (set_mRepaintRegion
            (QRegion_addRect (mRepaintRegion s)
               (QRect_translated (QRect_intersected rect (mGeometry s))
                  (QPoint_neg (QRect_topLeft (mGeometry s))))) s)
  /\ mUpdatePending (setDirty rect s) = true
  /\ postedEvents (setDirty rect s)
     = (if mUpdatePending s then postedEvents s else postedEvents s ++ [UpdateRequest])
  /\ ((forall p, QRect_contains rect p = true -> QRect_contains (mGeometry s) p = false)
      -> mRepaintRegion (setDirty rect s) = mRepaintRegion s).
Proof.
  repeat split.
  - intros p. rewrite setDirty_region, QRegion_contains_addRect.
    now rewrite setDirty_damage_contains.
  - unfold setDirty. apply scheduleUpdate_pending.
  - unfold setDirty. now rewrite scheduleUpdate_posted.
  - intros Hout. rewrite setDirty_region. unfold QRegion_addRect.
    replace (QRect_isEmpty _) with true; [reflexivity|].
    symmetry. apply QRect_isEmpty_iff. intros p.
    rewrite setDirty_damage_contains.
    destruct (QRect_contains rect _) eqn:E; [|reflexivity].
    now rewrite (Hout _ E).
Qed.

(** ** The early exit of the redraw *)

(** C4.  With an empty damage region and a cursor that is absent or not
    dirty, [doRedraw] returns the empty region and the state it was given:
    no call is made to the painter and the output image is the same. *)
Theorem doRedraw_nothing_to_do (s : St) :
  QRegion_isEmpty (mRepaintRegion s) = true ->
  cursorIsDirty s = false ->
  doRedraw s = (QRegion_new, s)
  /\ mScreenImage (snd (doRedraw s)) = mScreenImage s
  /\ performed s (snd (doRedraw s)) = [].
Proof.
  intros Hempty Hclean.
  assert (Habs : absorbCursorDamage s = s).
  { unfold absorbCursorDamage. unfold cursorIsDirty in Hclean.
    destruct (mCursor s) as [c|]; [|reflexivity]. now rewrite Hclean. }
  assert (H : doRedraw s = (QRegion_new, s)).
  { unfold doRedraw. rewrite Habs, Hempty, Hclean. reflexivity. }
  rewrite H. simpl. repeat split.
  unfold performed. apply skipn_all.
Qed.

(** ** The rectangle loop in closed form *)

Lemma painted_painted (p p' : QPainter) (img img' : QImage) (calls calls' : list Effect) (s : St) :
  painted p' img' calls' (painted p img calls s) = painted p' img' (calls ++ calls') s.
Proof. unfold painted, set_effects; simpl. now rewrite app_assoc. Qed.

Lemma painted_id (p : QPainter) (s : St) :
  mPainter s = Some p -> painted p (mScreenImage s) [] s = s.
Proof.
  destruct s; simpl. intros ->. unfold painted, set_effects; simpl.
  now rewrite app_nil_r.
Qed.

Lemma performed_painted (p : QPainter) (img : QImage) (calls : list Effect) (s : St) :
  performed s (painted p img calls s) = calls.
Proof.
  unfold performed, painted; simpl.
  rewrite skipn_app, skipn_all, Nat.sub_diag. reflexivity.
Qed.

Lemma firstn_snoc {A} (l : list A) (k : nat) (x : A) :
  nth_error l k = Some x -> firstn (S k) l = firstn k l ++ [x].
Proof.
  revert k. induction l as [|a l IH]; intros [|k] H; simpl in *; try discriminate.
  - now inversion H.
  - now rewrite (IH k H).
Qed.

Lemma paintLayer_painted (s : St) (p : QPainter) (rect : QRect) (k : nat) (w : QFbWindowPtr) :
  mPainter s = Some p ->
  nth_error (mWindowStack s) k = Some w ->
  paintLayer (QRect_topLeft (mGeometry s)) rect k s
  = painted p (layerImage s p rect (mScreenImage s) w) (layerCalls s rect w) s.
Proof.
  intros Hp Hw. unfold paintLayer, layerImage, layerCalls, isVisible. rewrite Hw.
  destruct (win_isVisible _); simpl.
  - destruct (fbw_backingStore (fbWindows s w)) as [bs|].
    + unfold painter_drawImage. simpl. rewrite Hp.
      unfold painted, emit, set_effects; simpl. rewrite <- !app_assoc, Hp. reflexivity.
    + symmetry. now apply painted_id.
  - symmetry. now apply painted_id.
Qed.

Lemma paintLayers_painted (n : nat) : forall (s : St) (p : QPainter) (rect : QRect),
  mPainter s = Some p ->
  (n <= length (mWindowStack s))%nat ->
  paintLayers (QRect_topLeft (mGeometry s)) rect n s
  = painted p
      (fold_left (layerImage s p rect) (rev (firstn n (mWindowStack s))) (mScreenImage s))
      (flat_map (layerCalls s rect) (rev (firstn n (mWindowStack s)))) s.
Proof.
  induction n as [|k IH]; intros s p rect Hp Hn.
  - simpl. symmetry. now apply painted_id.
  - destruct (nth_error (mWindowStack s) k) as [w|] eqn:Hw.
    2:{ apply nth_error_None in Hw. lia. }
    simpl paintLayers. rewrite (paintLayer_painted s p rect k w Hp Hw).
    rewrite (firstn_snoc _ _ _ Hw), rev_app_distr. simpl rev. simpl app.
    set (s' := painted p (layerImage s p rect (mScreenImage s) w) (layerCalls s rect w) s).
    change (QRect_topLeft (mGeometry s)) with (QRect_topLeft (mGeometry s')).
    rewrite (IH s' p rect); [|reflexivity|simpl; lia].
    unfold s'. rewrite painted_painted. simpl. reflexivity.
Qed.

Lemma layerImage_shape (s : St) (p : QPainter) (rect : QRect) (img : QImage) (w : QFbWindowPtr) :
  img_size (layerImage s p rect img w) = img_size img
  /\ img_format (layerImage s p rect img w) = img_format img.
Proof.
  unfold layerImage. destruct (isVisible s w); [|now split].
  destruct (fbw_backingStore (fbWindows s w)); now split.
Qed.

Lemma layers_shape (s : St) (p : QPainter) (rect : QRect) (ws : list QFbWindowPtr) :
  forall img,
    img_size (fold_left (layerImage s p rect) ws img) = img_size img
    /\ img_format (fold_left (layerImage s p rect) ws img) = img_format img.
Proof.
  induction ws as [|w ws IH]; intros img; simpl; [now split|].
  destruct (IH (layerImage s p rect img w)) as [H1 H2].
  destruct (layerImage_shape s p rect img w) as [H3 H4].
  split; congruence.
Qed.

Lemma rectImage_shape (s : St) (img : QImage) (rect : QRect) :
  img_size (rectImage s img rect) = img_size img
  /\ img_format (rectImage s img rect) = img_format img.
Proof.
  unfold rectImage.
  destruct (layers_shape s (mkPainter CompositionMode_Source) rect (rev (mWindowStack s))
              (QPainter_fillRect (mkPainter CompositionMode_Source) img rect (backgroundColor s)))
    as [H1 H2].
  split; [rewrite H1|rewrite H2]; reflexivity.
Qed.

Lemma regionImage_shape (s : St) (rects : list QRect) :
  forall img,
    img_size (regionImage s img rects) = img_size img
    /\ img_format (regionImage s img rects) = img_format img.
Proof.
  induction rects as [|r rects IH]; intros img; simpl; [now split|].
  destruct (IH (rectImage s img r)) as [H1 H2].
  destruct (rectImage_shape s img r) as [H3 H4].
  unfold regionImage in *. simpl. split; congruence.
Qed.

(** What the rectangle loop reads of the state is not changed by
    painting. *)
Lemma rectImage_painted (s : St) (p : QPainter) (img0 : QImage) (calls : list Effect)
      (img : QImage) (rect : QRect) :
  img_format img0 = img_format (mScreenImage s) ->
  rectImage (painted p img0 calls s) img rect = rectImage s img rect.
Proof.
  intros Hf. unfold rectImage, backgroundColor, QImage_hasAlphaChannel. simpl.
  rewrite Hf. reflexivity.
Qed.

Lemma regionImage_painted (s : St) (p : QPainter) (img0 : QImage) (calls : list Effect)
      (rects : list QRect) :
  img_format img0 = img_format (mScreenImage s) ->
  forall img, regionImage (painted p img0 calls s) img rects = regionImage s img rects.
Proof.
  intros Hf. induction rects as [|r rects IH]; intros img; [reflexivity|].
  unfold regionImage in *. simpl. rewrite rectImage_painted by exact Hf. apply IH.
Qed.

Lemma rectCalls_painted (s : St) (p : QPainter) (img0 : QImage) (calls : list Effect)
      (rect : QRect) :
  img_format img0 = img_format (mScreenImage s) ->
  rectCalls (painted p img0 calls s) rect = rectCalls s rect.
Proof.
  intros Hf. unfold rectCalls, backgroundColor, QImage_hasAlphaChannel. simpl.
  rewrite Hf. reflexivity.
Qed.

Lemma paintRect_painted (s : St) (p : QPainter) (rect : QRect) :
  mPainter s = Some p ->
  paintRect (QRect_topLeft (mGeometry s)) (screenRect s) s rect
  = if QRect_isEmpty (QRect_intersected rect (screenRect s)) then s
    else painted (mkPainter CompositionMode_Source)
           (rectImage s (mScreenImage s) (QRect_intersected rect (screenRect s)))
           (rectCalls s (QRect_intersected rect (screenRect s))) s.
Proof.
  intros Hp. unfold paintRect.
  destruct (QRect_isEmpty (QRect_intersected rect (screenRect s))); [reflexivity|].
  set (r := QRect_intersected rect (screenRect s)).
  unfold painter_setCompositionMode. rewrite Hp.
  unfold painter_fillRect. simpl mPainter. cbv iota.
  set (s1 := emit (FillRect r _) _).
  change (QRect_topLeft (mGeometry s)) with (QRect_topLeft (mGeometry s1)).
  rewrite (paintLayers_painted (length (mWindowStack s1)) s1 (mkPainter CompositionMode_Source) r);
    [|reflexivity|reflexivity].
  rewrite firstn_all. unfold s1, painted, emit, set_effects, rectImage, rectCalls; simpl.
  rewrite <- !app_assoc. reflexivity.
Qed.

Lemma processedRects_cons (s : St) (r : QRect) (R : QRegion) :
  processedRects s (r :: R)
  = if QRect_isEmpty (QRect_intersected r (screenRect s)) then processedRects s R
    else QRect_intersected r (screenRect s) :: processedRects s R.
Proof.
  unfold processedRects. simpl.
  now destruct (QRect_isEmpty (QRect_intersected r (screenRect s))).
Qed.

Lemma paintRegion_painted (R : QRegion) : forall (s : St) (p : QPainter),
  mPainter s = Some p ->
  fold_left (paintRect (QRect_topLeft (mGeometry s)) (screenRect s)) R s
  = painted (match processedRects s R with [] => p | _ :: _ => mkPainter CompositionMode_Source end)
      (regionImage s (mScreenImage s) (processedRects s R))
      (flat_map (rectCalls s) (processedRects s R)) s.
Proof.
  induction R as [|r R IH]; intros s p Hp.
  - simpl. symmetry. now apply painted_id.
  - simpl fold_left. rewrite (paintRect_painted s p r Hp), processedRects_cons.
    destruct (QRect_isEmpty (QRect_intersected r (screenRect s))) eqn:E.
    + apply IH. exact Hp.
    + set (r' := QRect_intersected r (screenRect s)).
      set (s' := painted _ _ _ s).
      change (QRect_topLeft (mGeometry s)) with (QRect_topLeft (mGeometry s')).
      change (screenRect s) with (screenRect s').
      rewrite (IH s' (mkPainter CompositionMode_Source) eq_refl).
      assert (Hf : img_format (rectImage s (mScreenImage s) r') = img_format (mScreenImage s))
        by apply rectImage_shape.
      change (processedRects s' R) with (processedRects s R).
      unfold s'. rewrite painted_painted.
      rewrite (regionImage_painted s _ _ _ (processedRects s R) Hf).
      rewrite (flat_map_ext _ _ (fun r0 => rectCalls_painted s _ _ _ r0 Hf)).
      simpl. destruct (processedRects s R); reflexivity.
Qed.

(** ** One redraw in closed form *)

Lemma absorbCursorDamage_frame (s : St) :
  effects (absorbCursorDamage s) = effects s
  /\ mPainter (absorbCursorDamage s) = mPainter s
  /\ mScreenImage (absorbCursorDamage s) = mScreenImage s
  /\ mGeometry (absorbCursorDamage s) = mGeometry s
  /\ mWindowStack (absorbCursorDamage s) = mWindowStack s
  /\ mUpdatePending (absorbCursorDamage s) = mUpdatePending s
  /\ postedEvents (absorbCursorDamage s) = postedEvents s.
Proof.
  unfold absorbCursorDamage. destruct (mCursor s) as [c|]; [|now repeat split].
  destruct (isDirty c && isOnScreen c); [|now repeat split].
  destruct (dirtyRect c). now repeat split.
Qed.

Lemma ensurePainter_painted (s : St) :
  ensurePainter s
  = painted (match mPainter s with Some p => p | None => QPainter_new end) (mScreenImage s)
      (match mPainter s with Some _ => [] | None => [NewPainter] end) s.
Proof.
  unfold ensurePainter. destruct (mPainter s) as [p|] eqn:Hp.
  - symmetry. now apply painted_id.
  - reflexivity.
Qed.

Lemma rectLoop_afterRects (s1 : St) :
  fold_left (paintRect (QRect_topLeft (mGeometry s1))
               (QRect_translated (mGeometry (ensurePainter s1))
                  (QPoint_neg (QRect_topLeft (mGeometry s1)))))
    (mRepaintRegion (ensurePainter s1)) (ensurePainter s1)
  = afterRects s1.
Proof.
  rewrite ensurePainter_painted.
  set (s2 := painted _ _ _ s1).
  change (mRepaintRegion s2) with (mRepaintRegion s1).
  change (QRect_translated (mGeometry s2) (QPoint_neg (QRect_topLeft (mGeometry s1))))
    with (screenRect s2).
  change (QRect_topLeft (mGeometry s1)) with (QRect_topLeft (mGeometry s2)).
  rewrite (paintRegion_painted (mRepaintRegion s1) s2 _ eq_refl).
  unfold s2, afterRects. rewrite painted_painted.
  change (processedRects (painted _ _ _ s1) (mRepaintRegion s1))
    with (processedRects s1 (mRepaintRegion s1)).
  rewrite (regionImage_painted s1 _ _ _ _ eq_refl).
  rewrite (flat_map_ext _ _ (fun r0 => rectCalls_painted s1 _ _ _ r0 eq_refl)).
  reflexivity.
Qed.

Lemma doRedraw_unfold (s : St) :
  doRedraw s
  = let s1 := absorbCursorDamage s in
    if skipsRedraw s1 then (QRegion_new, s1)
    else let (cursorRegion, s3) := overlayCursor (afterRects s1) in
         (QRegion_united (QRegion_united QRegion_new cursorRegion) (mRepaintRegion s3),
          set_mRepaintRegion QRegion_new s3).
Proof.
  unfold doRedraw, skipsRedraw. cbv zeta.
  destruct (absorbCursorDamage_frame s) as (_ & _ & _ & Hg & _).
  rewrite <- Hg.
  destruct (QRegion_isEmpty _ && negb _); [reflexivity|].
  rewrite rectLoop_afterRects. reflexivity.
Qed.

Lemma overlayCursor_afterRects (s1 : St) :
  overlayCursor (afterRects s1)
  = if redrawsCursor s1
    then match mCursor s1 with
         | Some c =>
             let r := drawCursor c (mkPainter CompositionMode_SourceOver,
                                    mScreenImage (afterRects s1)) in
             (fst (fst r),
              set_mCursor (Some (snd (fst r)))
                (painted (fst (snd r)) (snd (snd r))
                   [SetCompositionMode CompositionMode_SourceOver; DrawCursor (fst (fst r))]
                   (afterRects s1)))
         | None => (QRegion_new, afterRects s1)
         end
    else (QRegion_new, afterRects s1).
Proof.
  unfold overlayCursor, redrawsCursor.
  change (mCursor (afterRects s1)) with (mCursor s1).
  change (mRepaintRegion (afterRects s1)) with (mRepaintRegion s1).
  destruct (mCursor s1) as [c|]; [|reflexivity].
  destruct (isDirty c || _); [|reflexivity].
  unfold painter_setCompositionMode. simpl mPainter. cbv iota. simpl mPainter. cbv iota.
  simpl mScreenImage.
  destruct (drawCursor c _) as [[t c'] [p' img']]. simpl.
  unfold painted, emit, set_effects, set_mCursor; simpl. rewrite <- !app_assoc. reflexivity.
Qed.

(** What one redraw returns, what it calls and what it leaves. *)
Lemma doRedraw_closed (s : St) :
  fst (doRedraw s) = redrawTouched s
  /\ performed s (snd (doRedraw s)) = redrawCalls s
  /\ mRepaintRegion (snd (doRedraw s)) = QRegion_new.
Proof.
  rewrite doRedraw_unfold. unfold redrawTouched, redrawCalls. cbv zeta.
  destruct (absorbCursorDamage_frame s) as (He & _).
  set (s1 := absorbCursorDamage s) in *.
  destruct (skipsRedraw s1) eqn:Hskip.
  - simpl. repeat split.
    + unfold performed. rewrite He. apply skipn_all.
    + unfold skipsRedraw in Hskip. apply andb_true_iff in Hskip.
      now apply QRegion_isEmpty_nil.
  - rewrite overlayCursor_afterRects. unfold cursorTouched.
    destruct (redrawsCursor s1) eqn:Hc.
    + unfold redrawsCursor in Hc. destruct (mCursor s1) as [c|]; [|discriminate].
      cbv zeta. simpl fst. simpl snd. repeat split.
      unfold performed. simpl effects. rewrite <- He.
      rewrite <- !app_assoc, skipn_app, skipn_all, Nat.sub_diag. reflexivity.
    + simpl fst. simpl snd. repeat split.
      unfold performed. simpl effects. rewrite <- He.
      rewrite skipn_app, skipn_all, Nat.sub_diag. simpl. now rewrite app_nil_r.
Qed.

(** ** The pixels a redraw produces *)

Lemma QImage_rect_contains (img : QImage) (q : QPoint) :
  QRect_contains (QImage_rect img) q
  = (0 <=? px q) && (px q <? sz_width (img_size img))
    && (0 <=? py q) && (py q <? sz_height (img_size img)).
Proof. unfold QRect_contains, QImage_rect, QRect_xywh; simpl. zbool. Qed.

Lemma layerImage_pixel (s : St) (rect : QRect) (img : QImage) (w : QFbWindowPtr) (q : QPoint) :
  (forall bs, fbw_backingStore (fbWindows s w) = Some bs ->
              img_size (bs_image (backingStores s bs)) = QRect_size (fbw_geometry (fbWindows s w))) ->
  pixel (layerImage s (mkPainter CompositionMode_Source) rect img w) q
  = match fbw_backingStore (fbWindows s w) with
    | Some bs =>
        if isVisible s w && QRect_contains (windowRect s w) q
           && (QRect_contains rect q && QRect_contains (QImage_rect img) q)
        then pixel (bs_image (backingStores s bs))
               (mkPoint (px q - x1 (windowRect s w)) (py q - y1 (windowRect s w)))
        else pixel img q
    | None => pixel img q
    end.
Proof.
  intros Hfit. unfold layerImage.
  destruct (fbw_backingStore (fbWindows s w)) as [bs|] eqn:Hbs.
  2:{ now destruct (isVisible s w). }
  destruct (isVisible s w); [|reflexivity].
  specialize (Hfit bs eq_refl).
  assert (Hin : QRect_contains (QImage_rect (bs_image (backingStores s bs)))
                  (mkPoint (px q - x1 (windowRect s w)) (py q - y1 (windowRect s w)))
                = QRect_contains (windowRect s w) q).
  { rewrite QImage_rect_contains, Hfit. unfold windowRect, QRect_contains, QRect_size,
      QRect_width, QRect_height, QRect_translated, QRect_translated_xy; simpl. zbool. }
  unfold QRect_left, QRect_top.
  set (wx := x1 (windowRect s w)) in *. set (wy := y1 (windowRect s w)) in *.
  unfold QPainter_drawImage, QRect_translated_xy. cbn [pixel compositionMode compose x1 y1].
  replace (px q - x1 rect + (x1 rect + - wx)) with (px q - wx) by lia.
  replace (py q - y1 rect + (y1 rect + - wy)) with (py q - wy) by lia.
  assert (Hsrc : QRect_contains
                   {| x1 := x1 rect + - wx; y1 := y1 rect + - wy;
                      x2 := x2 rect + - wx; y2 := y2 rect + - wy |}
                   (mkPoint (px q - wx) (py q - wy))
                 = QRect_contains rect q).
  { unfold QRect_contains; simpl. zbool. }
  rewrite Hsrc.
  rewrite Hin.
  destruct (QRect_contains rect q), (QRect_contains (QImage_rect img) q),
    (QRect_contains (windowRect s w) q); reflexivity.
Qed.

Lemma layers_pixel (s : St) (rect : QRect) (q : QPoint) (stack : list QFbWindowPtr) :
  (forall w bs, In w stack -> fbw_backingStore (fbWindows s w) = Some bs ->
                img_size (bs_image (backingStores s bs)) = QRect_size (fbw_geometry (fbWindows s w))) ->
  forall base,
    pixel (fold_left (layerImage s (mkPainter CompositionMode_Source) rect) (rev stack) base) q
    = if QRect_contains rect q && QRect_contains (QImage_rect base) q
      then topmostPixel s (pixel base q) stack q
      else pixel base q.
Proof.
  induction stack as [|w below IH]; intros Hfit base.
  - simpl. now destruct (_ && _).
  - simpl rev. rewrite fold_left_app. simpl fold_left.
    rewrite layerImage_pixel by (intros bs Hbs; apply (Hfit w bs); [now left|exact Hbs]).
    assert (Hshape : QImage_rect (fold_left (layerImage s (mkPainter CompositionMode_Source) rect)
                                    (rev below) base) = QImage_rect base).
    { unfold QImage_rect.
      now destruct (layers_shape s (mkPainter CompositionMode_Source) rect (rev below) base) as [-> _]. }
    rewrite Hshape.
    rewrite IH by (intros w' bs Hin; apply Hfit; now right).
    simpl topmostPixel.
    destruct (fbw_backingStore (fbWindows s w)) as [bs|]; [|reflexivity].
    destruct (QRect_contains rect q && QRect_contains (QImage_rect base) q).
    + now rewrite andb_true_r.
    + now rewrite andb_false_r.
Qed.

Lemma rectImage_pixel (s : St) (img : QImage) (rect : QRect) (q : QPoint) :
  storesFitWindows s ->
  pixel (rectImage s img rect) q
  = if QRect_contains rect q && QRect_contains (QImage_rect img) q
    then topmostPixel s (backgroundColor s) (mWindowStack s) q
    else pixel img q.
Proof.
  intros Hfit. unfold rectImage. rewrite layers_pixel by exact Hfit.
  change (QImage_rect (QPainter_fillRect _ img rect _)) with (QImage_rect img).
  simpl pixel.
  destruct (QRect_contains rect q && QRect_contains (QImage_rect img) q); reflexivity.
Qed.

Lemma regionImage_pixel (s : St) (q : QPoint) (rects : list QRect) :
  storesFitWindows s ->
  forall img,
    pixel (regionImage s img rects) q
    = if QRegion_contains rects q && QRect_contains (QImage_rect img) q
      then topmostPixel s (backgroundColor s) (mWindowStack s) q
      else pixel img q.
Proof.
  intros Hfit. induction rects as [|r rects IH]; intros img; [reflexivity|].
  change (regionImage s img (r :: rects)) with (regionImage s (rectImage s img r) rects).
  rewrite IH, rectImage_pixel by exact Hfit.
  replace (QImage_rect (rectImage s img r)) with (QImage_rect img)
    by (unfold QImage_rect; now destruct (rectImage_shape s img r) as [-> _]).
  simpl QRegion_contains.
  destruct (QRect_contains r q), (QRegion_contains rects q),
    (QRect_contains (QImage_rect img) q); reflexivity.
Qed.

Lemma processedRects_contains (s : St) (R : QRegion) (q : QPoint) :
  QRegion_contains (processedRects s R) q
  = QRegion_contains R q && QRect_contains (screenRect s) q.
Proof.
  induction R as [|r R IH]; [reflexivity|].
  rewrite processedRects_cons. simpl QRegion_contains at 2.
  destruct (QRect_isEmpty (QRect_intersected r (screenRect s))) eqn:E.
  - rewrite IH. apply QRect_empty_contains with (p := q) in E.
    rewrite QRect_contains_intersected in E.
    destruct (QRect_contains r q), (QRect_contains (screenRect s) q); simpl in *;
      try discriminate; try reflexivity; now rewrite ?andb_false_r, ?andb_true_r.
  - simpl QRegion_contains. fold (QRegion_contains (processedRects s R) q).
    rewrite IH, QRect_contains_intersected.
    destruct (QRect_contains r q), (QRect_contains (screenRect s) q),
      (QRegion_contains R q); reflexivity.
Qed.

(** On a screen without cursor, a redraw gives every damaged pixel of the
    screen the colour of the topmost visible window that covers it, or the
    background colour, and leaves the other pixels alone. *)
Lemma doRedraw_pixels (s : St) (q : QPoint) :
  storesFitWindows s ->
  mCursor s = None ->
  pixel (mScreenImage (snd (doRedraw s))) q
  = if QRegion_contains (mRepaintRegion s) q && QRect_contains (screenRect s) q
       && QRect_contains (QImage_rect (mScreenImage s)) q
    then topmostPixel s (backgroundColor s) (mWindowStack s) q
    else pixel (mScreenImage s) q.
Proof.
  intros Hfit Hc. rewrite doRedraw_unfold. cbv zeta.
  assert (Habs : absorbCursorDamage s = s) by (unfold absorbCursorDamage; now rewrite Hc).
  rewrite Habs. unfold skipsRedraw, cursorIsDirty. rewrite Hc. simpl negb. rewrite andb_true_r.
  destruct (QRegion_isEmpty (mRepaintRegion s)) eqn:E.
  - apply QRegion_isEmpty_nil in E. rewrite E. reflexivity.
  - rewrite overlayCursor_afterRects. unfold redrawsCursor. rewrite Hc.
    simpl. rewrite regionImage_pixel by exact Hfit.
    now rewrite processedRects_contains.
Qed.

(** ** What a redraw calls and returns *)

Lemma filledRects_app (a b : list Effect) :
  filledRects (a ++ b) = filledRects a ++ filledRects b.
Proof.
  induction a as [|e a IH]; [reflexivity|].
  destruct e; simpl; rewrite ?IH; reflexivity.
Qed.

Lemma filledRects_layerCalls (s : St) (rect : QRect) (ws : list QFbWindowPtr) :
  filledRects (flat_map (layerCalls s rect) ws) = [].
Proof.
  induction ws as [|w ws IH]; [reflexivity|].
  simpl. rewrite filledRects_app, IH, app_nil_r.
  unfold layerCalls. destruct (isVisible s w); [|reflexivity].
  now destruct (fbw_backingStore (fbWindows s w)).
Qed.

Lemma filledRects_rectCalls (s : St) (rects : list QRect) :
  filledRects (flat_map (rectCalls s) rects) = rects.
Proof.
  induction rects as [|r rects IH]; [reflexivity|].
  simpl. rewrite filledRects_app, IH, filledRects_layerCalls. reflexivity.
Qed.

Lemma cursorComposited_app (a b : list Effect) :
  cursorComposited (a ++ b) = cursorComposited a || cursorComposited b.
Proof. apply existsb_app. Qed.

Lemma cursorComposited_layerCalls (s : St) (rect : QRect) (ws : list QFbWindowPtr) :
  cursorComposited (flat_map (layerCalls s rect) ws) = false.
Proof.
  induction ws as [|w ws IH]; [reflexivity|].
  simpl. rewrite cursorComposited_app, IH, orb_false_r.
  unfold layerCalls. destruct (isVisible s w); [|reflexivity].
  now destruct (fbw_backingStore (fbWindows s w)).
Qed.

Lemma cursorComposited_rectCalls (s : St) (rects : list QRect) :
  cursorComposited (flat_map (rectCalls s) rects) = false.
Proof.
  induction rects as [|r rects IH]; [reflexivity|].
  simpl. unfold cursorComposited in *. simpl. rewrite existsb_app, IH, orb_false_r.
  apply cursorComposited_layerCalls.
Qed.

Lemma skipsRedraw_no_cursor (s1 : St) : skipsRedraw s1 = true -> redrawsCursor s1 = false.
Proof.
  unfold skipsRedraw, redrawsCursor, cursorIsDirty. intros H.
  apply andb_true_iff in H. destruct H as [He Hd].
  apply QRegion_isEmpty_nil in He. rewrite He.
  destruct (mCursor s1) as [c|]; [|reflexivity].
  apply negb_true_iff in Hd. now rewrite Hd.
Qed.

(** The early exit returns the state it was given. *)
Lemma doRedraw_skip (s : St) :
  QRegion_isEmpty (mRepaintRegion s) = true ->
  cursorIsDirty s = false ->
  doRedraw s = (QRegion_new, s).
Proof.
  intros Hempty Hclean.
  assert (Habs : absorbCursorDamage s = s).
  { unfold absorbCursorDamage. unfold cursorIsDirty in Hclean.
    destruct (mCursor s) as [c|]; [|reflexivity]. now rewrite Hclean. }
  unfold doRedraw. rewrite Habs, Hempty, Hclean. reflexivity.
Qed.

Lemma absorbCursorDamage_grows (s : St) (q : QPoint) :
  QRegion_contains (mRepaintRegion s) q = true ->
  QRegion_contains (mRepaintRegion (absorbCursorDamage s)) q = true.
Proof.
  unfold absorbCursorDamage. destruct (mCursor s) as [c|]; [|easy].
  destruct (isDirty c && isOnScreen c); [|easy].
  destruct (dirtyRect c) as [r c']. simpl. intros H.
  now rewrite QRegion_contains_addRect, H.
Qed.

Lemma redrawTouched_covers (s : St) (q : QPoint) :
  QRegion_contains (mRepaintRegion (absorbCursorDamage s)) q = true ->
  QRegion_contains (redrawTouched s) q = true.
Proof.
  unfold redrawTouched. cbv zeta. intros H.
  destruct (skipsRedraw (absorbCursorDamage s)) eqn:E.
  - unfold skipsRedraw in E. apply andb_true_iff in E. destruct E as [E _].
    apply QRegion_isEmpty_nil in E. rewrite E in H. discriminate.
  - unfold QRegion_united. rewrite QRegion_contains_app, H. apply orb_true_r.
Qed.

(** One visible window drawn over [rect], whatever the size of its store
    image: the pixels it gives are those of the image, placed at the
    window's position. *)
Lemma layerImage_pixel_any (s : St) (rect : QRect) (img : QImage) (w : QFbWindowPtr)
      (bs : QFbBackingStorePtr) (q : QPoint) :
  isVisible s w = true ->
  fbw_backingStore (fbWindows s w) = Some bs ->
  pixel (layerImage s (mkPainter CompositionMode_Source) rect img w) q
  = if QRect_contains rect q && QRect_contains (QImage_rect img) q
       && QRect_contains (QImage_rect (bs_image (backingStores s bs)))
            (mkPoint (px q - x1 (windowRect s w)) (py q - y1 (windowRect s w)))
    then pixel (bs_image (backingStores s bs))
           (mkPoint (px q - x1 (windowRect s w)) (py q - y1 (windowRect s w)))
    else pixel img q.
Proof.
  intros Hv Hbs. unfold layerImage. rewrite Hv, Hbs.
  unfold QRect_left, QRect_top.
  set (wx := x1 (windowRect s w)) in *. set (wy := y1 (windowRect s w)) in *.
  unfold QPainter_drawImage, QRect_translated_xy. cbn [pixel compositionMode compose x1 y1].
  replace (px q - x1 rect + (x1 rect + - wx)) with (px q - wx) by lia.
  replace (py q - y1 rect + (y1 rect + - wy)) with (py q - wy) by lia.
  assert (Hsrc : QRect_contains
                   {| x1 := x1 rect + - wx; y1 := y1 rect + - wy;
                      x2 := x2 rect + - wx; y2 := y2 rect + - wy |}
                   (mkPoint (px q - wx) (py q - wy))
                 = QRect_contains rect q).
  { unfold QRect_contains; simpl. zbool. }
  rewrite Hsrc.
  destruct (QRect_contains rect q), (QRect_contains (QImage_rect img) q); reflexivity.
Qed.

Lemma layerImage_outside (s : St) (rect : QRect) (img : QImage) (w : QFbWindowPtr) (q : QPoint) :
  (forall bs, fbw_backingStore (fbWindows s w) = Some bs ->
              img_size (bs_image (backingStores s bs)) = QRect_size (fbw_geometry (fbWindows s w))) ->
  isVisible s w = false \/ QRect_intersects (windowRect s w) rect = false ->
  pixel (layerImage s (mkPainter CompositionMode_Source) rect img w) q = pixel img q.
Proof.
  intros Hfit H. rewrite layerImage_pixel by exact Hfit.
  destruct (fbw_backingStore (fbWindows s w)); [|reflexivity].
  destruct H as [H|H]; [now rewrite H|].
  destruct (QRect_contains (windowRect s w) q) eqn:E1; [|now rewrite andb_false_r].
  destruct (QRect_contains rect q) eqn:E2; [|now rewrite andb_false_r].
  assert (Hi : QRect_intersects (windowRect s w) rect = true)
    by (apply QRect_intersects_iff; now exists q).
  congruence.
Qed.

(** The scenario with the rectangles read by their corners: the window
    covers the columns and rows 10 to 50. *)
Lemma scene_pixels (f : Format) (C : QColor) (old : QPoint -> QColor) (q : QPoint) :
  QRect_contains (QRect_corners 0 0 100 100) q = true ->
  pixel (mScreenImage
           (snd (doRedraw (setDirty (QRect_corners 0 0 100 100)
                             (Fixture.scene (Cursor := Cursor) f C old))))) q
  = if QRect_contains (QRect_corners 10 10 50 50) q then C
    else if Format_hasAlpha f then Qt_transparent else Qt_black.
Proof.
  intros Hq. rewrite doRedraw_pixels.
  - destruct q as [x y]. revert Hq.
    unfold backgroundColor, QImage_hasAlphaChannel. simpl.
    unfold windowRect, QRect_contains, QRect_translated, QRect_intersected, QRect_corners,
      QRect_translated_xy, QPoint_neg, QRect_topLeft. simpl.
    zbool.
  - intros w bs _ _. reflexivity.
  - reflexivity.
Qed.

(** The scenario with the rectangles read as (x, y, width, height): the
    window covers the columns and rows 10 to 59. *)
Lemma sceneXYWH_pixels (f : Format) (C : QColor) (old : QPoint -> QColor) (q : QPoint) :
  QRect_contains (QRect_xywh 0 0 100 100) q = true ->
  pixel (mScreenImage
           (snd (doRedraw (setDirty (QRect_xywh 0 0 100 100)
                             (Fixture.sceneXYWH (Cursor := Cursor) f C old))))) q
  = if QRect_contains (QRect_corners 10 10 59 59) q then C
    else if Format_hasAlpha f then Qt_transparent else Qt_black.
Proof.
  intros Hq. rewrite doRedraw_pixels.
  - destruct q as [x y]. revert Hq.
    unfold backgroundColor, QImage_hasAlphaChannel. simpl.
    unfold windowRect, QRect_contains, QRect_translated, QRect_intersected, QRect_corners,
      QRect_xywh, QRect_translated_xy, QPoint_neg, QRect_topLeft. simpl.
    zbool.
  - intros w bs _ _. reflexivity.
  - reflexivity.
Qed.

(** C3 (amended).  The region [doRedraw] returns covers the damage region
    it consumed, that is the accumulated region together with the
    rectangle a dirty on-screen cursor is leaving; so [setDirty rect]
    followed by a redraw returns a region that covers [rect] clipped to the
    screen geometry and moved to the screen's own coordinates (the local
    point [q] stands for the global point [q + topLeft]); and after
    [doRedraw] the accumulated damage region is empty. *)
Theorem doRedraw_touched_covers_damage (s : St) :
  (forall q, QRegion_contains (mRepaintRegion s) q = true ->
             QRegion_contains (fst (doRedraw s)) q = true)
  /\ (forall q, QRegion_contains (mRepaintRegion (absorbCursorDamage s)) q = true ->
                QRegion_contains (fst (doRedraw s)) q = true)
  /\ (forall rect q,
        QRect_contains rect (mkPoint (px q + x1 (mGeometry s)) (py q + y1 (mGeometry s))) = true ->
        QRect_contains (mGeometry s)
          (mkPoint (px q + x1 (mGeometry s)) (py q + y1 (mGeometry s))) = true ->
        QRegion_contains (fst (doRedraw (setDirty rect s))) q = true)
  /\ mRepaintRegion (snd (doRedraw s)) = QRegion_new.
Proof.
  assert (Hcov : forall (s0 : St) q, QRegion_contains (mRepaintRegion s0) q = true ->
                                     QRegion_contains (fst (doRedraw s0)) q = true).
  { intros s0 q H. destruct (doRedraw_closed s0) as [-> _].
    apply redrawTouched_covers. now apply absorbCursorDamage_grows. }
  repeat apply conj.
  - apply Hcov.
  - intros q H. destruct (doRedraw_closed s) as [-> _]. now apply redrawTouched_covers.
  - intros rect q H1 H2. apply Hcov.
    rewrite setDirty_region, QRegion_contains_addRect, setDirty_damage_contains, H1, H2.
    apply orb_true_r.
  - apply doRedraw_closed.
Qed.

(** C5.  When [doRedraw] starts with a cursor that is dirty and on screen,
    the rectangle the cursor reports through [dirtyRect()] is united, as it
    is, with the damage region before anything is painted: the rectangles
    the redraw then fills are those of the enlarged region (clipped to the
    screen), the part of the cursor's rectangle that lies on the screen is
    among them, and the returned region covers the rectangle. *)
Theorem cursor_damage_absorbed_before_painting (s : St) (c : Cursor) :
  mCursor s = Some c -> isDirty c = true -> isOnScreen c = true ->
  let lastCursor := fst (dirtyRect c) in
  mRepaintRegion (absorbCursorDamage s) = QRegion_addRect (mRepaintRegion s) lastCursor
  /\ filledRects (performed s (snd (doRedraw s)))
     = processedRects s (QRegion_addRect (mRepaintRegion s) lastCursor)
  /\ (QRect_isEmpty (QRect_intersected lastCursor (screenRect s)) = false ->
      In (QRect_intersected lastCursor (screenRect s))
         (filledRects (performed s (snd (doRedraw s)))))
  /\ (forall q, QRect_contains lastCursor q = true ->
                QRegion_contains (fst (doRedraw s)) q = true).
Proof.
  intros Hc Hd Ho lastCursor.
  assert (Hreg : mRepaintRegion (absorbCursorDamage s)
                 = QRegion_addRect (mRepaintRegion s) lastCursor).
  { unfold absorbCursorDamage, lastCursor. rewrite Hc, Hd, Ho. simpl.
    now destruct (dirtyRect c). }
  assert (Hfill : filledRects (performed s (snd (doRedraw s)))
                  = processedRects s (QRegion_addRect (mRepaintRegion s) lastCursor)).
  { destruct (doRedraw_closed s) as (_ & -> & _). unfold redrawCalls. cbv zeta.
    destruct (absorbCursorDamage_frame s) as (_ & _ & _ & Hg & _).
    assert (Hpr : processedRects (absorbCursorDamage s) (mRepaintRegion (absorbCursorDamage s))
                  = processedRects s (QRegion_addRect (mRepaintRegion s) lastCursor)).
    { rewrite Hreg. unfold processedRects, screenRect. now rewrite Hg. }
    destruct (skipsRedraw (absorbCursorDamage s)) eqn:E.
    - rewrite <- Hpr. unfold skipsRedraw in E. apply andb_true_iff in E. destruct E as [E _].
      apply QRegion_isEmpty_nil in E. now rewrite E.
    - rewrite !filledRects_app, filledRects_rectCalls, Hpr.
      destruct (mPainter (absorbCursorDamage s)); destruct (redrawsCursor (absorbCursorDamage s));
        simpl; now rewrite app_nil_r. }
  repeat apply conj.
  - exact Hreg.
  - exact Hfill.
  - intros Hne. rewrite Hfill. unfold processedRects. apply filter_In. split.
    + apply in_map_iff. exists lastCursor. split; [reflexivity|].
      unfold QRegion_addRect.
      destruct (QRect_isEmpty lastCursor) eqn:E.
      * exfalso. apply QRect_nonempty_topLeft in Hne.
        rewrite QRect_contains_intersected, (QRect_empty_contains _ _ E) in Hne. discriminate.
      * apply in_or_app. right. now left.
    + now rewrite Hne.
  - intros q Hq. destruct (doRedraw_closed s) as [-> _]. apply redrawTouched_covers.
    rewrite Hreg, QRegion_contains_addRect, Hq. apply orb_true_r.
Qed.

(** C6 (amended).  Once the damaged rectangles are painted, [doRedraw]
    composites the cursor exactly when there is a cursor that is dirty or whose
    last-painted rectangle meets the damage region (cursor and region as
    they are after the cursor's own damage has been absorbed).  When it
    does, the painter is switched to source-over just before
    [drawCursor], this is the last thing painted, and the region
    [drawCursor] reports is united into the returned region.  So a clean
    cursor is repainted by the redraw that follows a [setDirty] whose
    recorded damage (the rectangle clipped to the screen geometry and
    moved to the screen's own coordinates) meets the cursor's
    last-painted rectangle. *)
Theorem cursor_composited_iff_dirty_or_damaged (s : St) :
  let s1 := absorbCursorDamage s in
  (cursorComposited (performed s (snd (doRedraw s))) = true
   <-> exists c, mCursor s1 = Some c
                 /\ (isDirty c = true
                     \/ QRegion_intersects (mRepaintRegion s1) (lastPainted c) = true))
  /\ (cursorComposited (performed s (snd (doRedraw s))) = true ->
      exists calls,
        performed s (snd (doRedraw s))
        = calls ++ [SetCompositionMode CompositionMode_SourceOver;
                    DrawCursor (cursorTouched s1)]
        /\ cursorComposited calls = false
        /\ fst (doRedraw s) = QRegion_united (cursorTouched s1) (mRepaintRegion s1))
  /\ (forall c rect,
        mCursor s = Some c -> isDirty c = false ->
        QRect_intersects
          (QRect_translated (QRect_intersected rect (mGeometry s))
             (QPoint_neg (QRect_topLeft (mGeometry s))))
          (lastPainted c) = true ->
        cursorComposited
          (performed (setDirty rect s) (snd (doRedraw (setDirty rect s)))) = true).
Proof.
  assert (Hiff : forall s0 : St,
             cursorComposited (performed s0 (snd (doRedraw s0)))
             = redrawsCursor (absorbCursorDamage s0)).
  { intros s0. destruct (doRedraw_closed s0) as (_ & -> & _). unfold redrawCalls. cbv zeta.
    destruct (skipsRedraw (absorbCursorDamage s0)) eqn:E.
    - now rewrite (skipsRedraw_no_cursor _ E).
    - rewrite !cursorComposited_app, cursorComposited_rectCalls.
      destruct (mPainter (absorbCursorDamage s0)), (redrawsCursor (absorbCursorDamage s0));
        reflexivity. }
  intros s1. split; [|split].
  - rewrite Hiff. fold s1. unfold redrawsCursor. split.
    + destruct (mCursor s1) as [c|]; [|discriminate]. intros H.
      exists c. split; [reflexivity|]. now apply orb_true_iff in H.
    + intros [c [-> H]]. now apply orb_true_iff.
  - intros H. rewrite Hiff in H. fold s1 in H.
    destruct (doRedraw_closed s) as (-> & -> & _). unfold redrawCalls, redrawTouched.
    cbv zeta. fold s1.
    destruct (skipsRedraw s1) eqn:E.
    { rewrite (skipsRedraw_no_cursor _ E) in H. discriminate. }
    rewrite H.
    exists ((match mPainter s1 with Some _ => [] | None => [NewPainter] end)
            ++ flat_map (rectCalls s1) (processedRects s1 (mRepaintRegion s1))).
    repeat apply conj.
    + now rewrite app_assoc.
    + rewrite cursorComposited_app, cursorComposited_rectCalls. now destruct (mPainter s1).
    + reflexivity.
  - intros c rect Hc Hd Hi. rewrite Hiff.
    assert (Hc' : mCursor (setDirty rect s) = Some c).
    { unfold setDirty, scheduleUpdate. simpl. now destruct (negb _). }
    assert (Habs : absorbCursorDamage (setDirty rect s) = setDirty rect s).
    { unfold absorbCursorDamage. now rewrite Hc', Hd. }
    rewrite Habs. unfold redrawsCursor. rewrite Hc', Hd. simpl.
    apply QRegion_intersects_iff. apply QRect_intersects_iff in Hi.
    destruct Hi as [q [H1 H2]]. exists q. split; [|exact H2].
    rewrite setDirty_region, QRegion_contains_addRect, H1. apply orb_true_r.
Qed.

(** C8.  A redraw that directly follows another one, the cursor being
    absent or not dirty when it starts, returns the empty region (and
    changes nothing). *)
Theorem second_redraw_touches_nothing (s : St) :
  cursorIsDirty (snd (doRedraw s)) = false ->
  fst (doRedraw (snd (doRedraw s))) = QRegion_new
  /\ doRedraw (snd (doRedraw s)) = (QRegion_new, snd (doRedraw s)).
Proof.
  intros Hclean.
  assert (H : doRedraw (snd (doRedraw s)) = (QRegion_new, snd (doRedraw s))).
  { apply doRedraw_skip; [|exact Hclean].
    destruct (doRedraw_closed s) as (_ & _ & ->). reflexivity. }
  now rewrite H.
Qed.

(** ** What the operations leave alone *)

Lemma doRedraw_frame (s : St) :
  mWindowStack (snd (doRedraw s)) = mWindowStack s
  /\ mUpdatePending (snd (doRedraw s)) = mUpdatePending s
  /\ postedEvents (snd (doRedraw s)) = postedEvents s.
Proof.
  rewrite doRedraw_unfold. cbv zeta.
  destruct (absorbCursorDamage_frame s) as (_ & _ & _ & _ & Hs & Hu & Hp).
  destruct (skipsRedraw (absorbCursorDamage s)); [simpl; now repeat split|].
  rewrite overlayCursor_afterRects.
  destruct (redrawsCursor (absorbCursorDamage s)); [|simpl; now repeat split].
  destruct (mCursor (absorbCursorDamage s)); simpl; now repeat split.
Qed.

Lemma scheduleUpdate_stack (s : St) : mWindowStack (scheduleUpdate s) = mWindowStack s.
Proof. unfold scheduleUpdate. now destruct (negb _). Qed.

Lemma setDirty_stack (rect : QRect) (s : St) : mWindowStack (setDirty rect s) = mWindowStack s.
Proof. unfold setDirty. now rewrite scheduleUpdate_stack. Qed.

Lemma dispatch_stack (s : St) : mWindowStack (dispatch s) = mWindowStack s.
Proof.
  unfold dispatch. destruct (postedEvents s) as [|e rest]; [reflexivity|].
  unfold event. destruct (QEvent_isUpdateRequest e); [|reflexivity].
  destruct (doRedraw (set_postedEvents rest s)) as [t s'] eqn:E. simpl.
  change s' with (snd (t, s')). rewrite <- E. now rewrite (proj1 (doRedraw_frame _)).
Qed.

(** ** The window stack *)

Lemma addWindow_stack (w : QFbWindowPtr) (s s' : St) :
  addWindow w s = Finished s' -> mWindowStack s' = w :: mWindowStack s.
Proof.
  unfold addWindow. destruct (fbw_backingStore (fbWindows s w)); [|discriminate].
  intros H. inversion H; subst; clear H.
  unfold announceTopWindow. simpl. rewrite setDirty_stack.
  destruct (negb (QList.isEmpty _)); [|reflexivity].
  now destruct (findPending _ _ _ _) as [[i bs]|].
Qed.

Lemma removeOne_length (l : list nat) (x : nat) :
  Z.of_nat (length (QList.removeOne l x))
  = Z.of_nat (length l) - (if existsb (Nat.eqb x) l then 1 else 0).
Proof.
  induction l as [|y l IH]; [reflexivity|].
  cbn [QList.removeOne existsb length]. rewrite (Nat.eqb_sym x y).
  destruct (Nat.eqb y x); cbn [orb length]; rewrite ?Nat2Z.inj_succ.
  - lia.
  - rewrite IH. lia.
Qed.

Lemma indexOf_from_range (l : list nat) (x : nat) : forall i,
  QList.indexOf_from l x i = -1 /\ existsb (Nat.eqb x) l = false
  \/ i <= QList.indexOf_from l x i < i + Z.of_nat (length l)
     /\ nth_error l (Z.to_nat (QList.indexOf_from l x i - i)) = Some x
     /\ existsb (Nat.eqb x) l = true.
Proof.
  induction l as [|y l IH]; intros i; [now left|].
  simpl. rewrite (Nat.eqb_sym x y). destruct (Nat.eqb y x) eqn:E.
  - right. apply Nat.eqb_eq in E. subst. rewrite Z.sub_diag. simpl. repeat split; lia.
  - destruct (IH (i + 1)) as [[H1 H2]|(H1 & H2 & H3)].
    + now left.
    + right. simpl. repeat split; try lia; [|exact H3].
      replace (Z.to_nat (QList.indexOf_from l x (i + 1) - i))
        with (S (Z.to_nat (QList.indexOf_from l x (i + 1) - (i + 1)))) by lia.
      exact H2.
Qed.

Lemma indexOf_range (l : list nat) (x : nat) :
  QList.indexOf l x = -1 /\ existsb (Nat.eqb x) l = false
  \/ 0 <= QList.indexOf l x < Z.of_nat (length l)
     /\ nth_error l (Z.to_nat (QList.indexOf l x)) = Some x
     /\ existsb (Nat.eqb x) l = true.
Proof.
  unfold QList.indexOf. destruct (indexOf_from_range l x 0) as [H|(H1 & H2 & H3)]; [now left|].
  right. rewrite Z.sub_0_r in H2. repeat split; try lia; assumption.
Qed.

Lemma removeAt_length {A} (l : list A) (i : Z) :
  0 <= i < Z.of_nat (length l) ->
  length (QList.removeAt l i) = (length l - 1)%nat.
Proof.
  intros H. unfold QList.removeAt. rewrite length_app, length_firstn, length_skipn. lia.
Qed.

Lemma move_length {A} (l : list A) (from to : Z) :
  0 <= from < Z.of_nat (length l) ->
  length (QList.move l from to) = length l.
Proof.
  intros H. unfold QList.move.
  destruct (nth_error l (Z.to_nat from)); [|reflexivity].
  unfold QList.insertAt. rewrite length_app. simpl.
  rewrite length_firstn, length_skipn, removeAt_length by exact H. lia.
Qed.

Lemma raise_stack_length (w : QFbWindowPtr) (s : St) :
  length (mWindowStack (raise w s)) = length (mWindowStack s).
Proof.
  unfold raise. destruct (QList.indexOf (mWindowStack s) w <=? 0) eqn:E; [reflexivity|].
  unfold announceTopWindow. simpl. rewrite setDirty_stack. simpl.
  apply Z.leb_gt in E. apply move_length.
  destruct (indexOf_range (mWindowStack s) w) as [[H _]|(H & _)]. - lia.
  - exact H.
Qed.

Lemma lower_stack_length (w : QFbWindowPtr) (s : St) :
  length (mWindowStack (lower w s)) = length (mWindowStack s).
Proof.
  unfold lower. destruct ((QList.indexOf (mWindowStack s) w =? -1) || _) eqn:E; [reflexivity|].
  unfold announceTopWindow. simpl. rewrite setDirty_stack. simpl.
  apply orb_false_iff in E. destruct E as [E _]. apply Z.eqb_neq in E. apply move_length.
  destruct (indexOf_range (mWindowStack s) w) as [[H _]|(H & _)].
  - lia.
  - exact H.
Qed.

Lemma step_windowCount (op : Op) (s s' : St) :
  step op s = Finished s' ->
  windowCount s'
  = windowCount s
    + (match op with OpAddWindow _ => 1 | _ => 0 end)
    - (match op with OpRemoveWindow w => if inStack w s then 1 else 0 | _ => 0 end).
Proof.
  unfold windowCount, QList.size.
  destruct op as [w|w|w|w|rect| |garbage| ]; simpl; intros H.
  - rewrite (addWindow_stack w s s' H). simpl length. lia.
  - inversion H; subst; clear H. unfold removeWindow, announceTopWindow. simpl.
    rewrite setDirty_stack. simpl. unfold inStack. rewrite removeOne_length.
    unfold QFbWindowPtr. lia.
  - inversion H; subst. rewrite raise_stack_length. lia.
  - inversion H; subst. rewrite lower_stack_length. lia.
  - inversion H; subst. rewrite setDirty_stack. lia.
  - inversion H; subst. rewrite scheduleUpdate_stack. lia.
  - inversion H; subst. unfold initializeCompositor. rewrite scheduleUpdate_stack. simpl. lia.
  - inversion H; subst. rewrite dispatch_stack. lia.
Qed.

Lemma run_windowCount (ops : list Op) : forall (s s' : St),
  run ops s = Finished s' ->
  windowCount s' = windowCount s + countAdds ops - countRemoved ops s.
Proof.
  induction ops as [|op ops IH]; intros s s' H.
  - inversion H; subst. simpl. lia.
  - simpl in H. simpl countRemoved. destruct (step op s) as [s1|] eqn:E; [|discriminate].
    rewrite (IH s1 s' H), (step_windowCount op s s1 E).
    destruct op; cbn [countAdds]; cbv iota; lia.
Qed.

Lemma indexOf_head (l : list nat) (w : nat) :
  hd_error l = Some w -> QList.indexOf l w = 0.
Proof.
  destruct l as [|y l]; [discriminate|]. simpl. intros H. inversion H; subst.
  unfold QList.indexOf. simpl. now rewrite Nat.eqb_refl.
Qed.

Lemma indexOf_from_last (front : list nat) (w : nat) : forall i,
  ~ In w front ->
  QList.indexOf_from (front ++ [w]) w i = i + Z.of_nat (length front).
Proof.
  induction front as [|y front IH]; intros i Hn.
  - simpl. rewrite Nat.eqb_refl. lia.
  - simpl. destruct (Nat.eqb y w) eqn:E.
    + apply Nat.eqb_eq in E. subst. exfalso. apply Hn. now left.
    + rewrite IH by (intros Hin; apply Hn; now right). lia.
Qed.

Lemma raise_noop (w : QFbWindowPtr) (s : St) :
  QList.indexOf (mWindowStack s) w <= 0 -> raise w s = s.
Proof. intros H. unfold raise. apply Z.leb_le in H. now rewrite H. Qed.

Lemma lower_noop (w : QFbWindowPtr) (s : St) :
  QList.indexOf (mWindowStack s) w = -1
  \/ QList.indexOf (mWindowStack s) w = QList.size (mWindowStack s) - 1 ->
  lower w s = s.
Proof.
  intros H. unfold lower.
  replace ((QList.indexOf (mWindowStack s) w =? -1) || _) with true; [reflexivity|].
  symmetry. apply orb_true_iff. destruct H as [H|H]; [left|right]; now apply Z.eqb_eq.
Qed.

Lemma indexOf_absent (l : list nat) (w : nat) :
  existsb (Nat.eqb w) l = false -> QList.indexOf l w = -1.
Proof.
  intros H. destruct (indexOf_range l w) as [[H1 _]|(_ & _ & H3)]; [exact H1|congruence].
Qed.

(** C7 (amended).  After any sequence of operations that runs to its
    end, the stack holds as many windows as it held before, plus one for
    each [addWindow], minus one for each [removeWindow] that found its
    window; starting from a new screen this is adds minus successful
    removes.  [raise] of a window that is the first entry or not in the
    stack returns the state unchanged.  So does [lower] of a window that
    is not in the stack or whose first occurrence is at the last index,
    which is the case of a window that is the last entry and occurs
    nowhere before. *)
Theorem stack_size_and_noop_raise_lower
        (ops : list Op) (s s' : St) (w : QFbWindowPtr) (front : list QFbWindowPtr)
        (ws : QFbWindowPtr -> QFbWindow) (qs : QWindowPtr -> QWindow)
        (bs : QFbBackingStorePtr -> QFbBackingStore) (img : QImage) :
  (run ops s = Finished s' ->
   windowCount s' = windowCount s + countAdds ops - countRemoved ops s)
  /\ (run ops (QFbScreen_new ws qs bs img) = Finished s' ->
      windowCount s' = countAdds ops - countRemoved ops (QFbScreen_new ws qs bs img))
  /\ (hd_error (mWindowStack s) = Some w -> raise w s = s)
  /\ (inStack w s = false -> raise w s = s)
  /\ (QList.indexOf (mWindowStack s) w = windowCount s - 1 -> lower w s = s)
  /\ (mWindowStack s = front ++ [w] -> ~ In w front -> lower w s = s)
  /\ (inStack w s = false -> lower w s = s).
Proof.
  repeat apply conj.
  - apply run_windowCount.
  - intros H. rewrite (run_windowCount ops _ s' H). reflexivity.
  - intros H. apply raise_noop. rewrite (indexOf_head _ _ H). lia.
  - intros H. apply raise_noop. unfold inStack in H. rewrite (indexOf_absent _ _ H). lia.
  - intros H. apply lower_noop. now right.
  - intros H Hn. apply lower_noop. right. rewrite H. unfold QList.indexOf, QList.size.
    rewrite indexOf_from_last by exact Hn. rewrite length_app, Nat2Z.inj_add.
    unfold QFbWindowPtr. simpl length. lia.
  - intros H. apply lower_noop. left. now apply indexOf_absent.
Qed.

(** ** The update-pending flag *)

Lemma flagMatchesQueue_ext (s s' : St) :
  mUpdatePending s' = mUpdatePending s -> postedEvents s' = postedEvents s ->
  flagMatchesQueue s -> flagMatchesQueue s'.
Proof. unfold flagMatchesQueue, queuedRedraws. now intros -> ->. Qed.

Lemma scheduleUpdate_flagMatchesQueue (s : St) :
  flagMatchesQueue s -> flagMatchesQueue (scheduleUpdate s).
Proof.
  unfold flagMatchesQueue, queuedRedraws, scheduleUpdate.
  destruct (mUpdatePending s) eqn:E; simpl; [now rewrite E|].
  intros H. rewrite filter_app, length_app, H. reflexivity.
Qed.

Lemma setDirty_flagMatchesQueue (rect : QRect) (s : St) :
  flagMatchesQueue s -> flagMatchesQueue (setDirty rect s).
Proof.
  intros H. unfold setDirty. apply scheduleUpdate_flagMatchesQueue.
  revert H. now apply flagMatchesQueue_ext.
Qed.

Lemma announceTopWindow_flagMatchesQueue (s : St) :
  flagMatchesQueue s -> flagMatchesQueue (announceTopWindow s).
Proof. now apply flagMatchesQueue_ext. Qed.

Lemma event_update_frame (s : St) :
  mUpdatePending (snd (event UpdateRequest s)) = false
  /\ postedEvents (snd (event UpdateRequest s)) = postedEvents s
  /\ mRepaintRegion (snd (event UpdateRequest s)) = QRegion_new.
Proof.
  unfold event. simpl. destruct (doRedraw s) as [t s1] eqn:E. simpl.
  change s1 with (snd (t, s1)). rewrite <- E.
  destruct (doRedraw_frame s) as (_ & _ & Hp). destruct (doRedraw_closed s) as (_ & _ & Hr).
  now repeat split.
Qed.

Lemma dispatch_flagMatchesQueue (s : St) :
  flagMatchesQueue s -> flagMatchesQueue (dispatch s).
Proof.
  unfold dispatch. destruct (postedEvents s) as [|e rest] eqn:Eq; [easy|].
  intros H. destruct e as [|n].
  - destruct (event_update_frame (set_postedEvents rest s)) as (Hu & Hp & _).
    unfold flagMatchesQueue, queuedRedraws in *. rewrite Hu, Hp. simpl.
    rewrite Eq in H. simpl in H. destruct (mUpdatePending s); [|discriminate].
    now inversion H.
  - unfold event. simpl. unfold flagMatchesQueue, queuedRedraws in *. simpl.
    rewrite Eq in H. exact H.
Qed.

Lemma step_flagMatchesQueue (op : Op) (s s' : St) :
  flagMatchesQueue s -> step op s = Finished s' -> flagMatchesQueue s'.
Proof.
  intros Hinv. destruct op as [w|w|w|w|rect| |garbage| ]; simpl; intros H.
  - unfold addWindow in H. destruct (fbw_backingStore (fbWindows s w)); [|discriminate].
    inversion H; subst; clear H.
    apply announceTopWindow_flagMatchesQueue, setDirty_flagMatchesQueue.
    destruct (negb (QList.isEmpty _)); [|revert Hinv; now apply flagMatchesQueue_ext].
    destruct (findPending _ _ _ _) as [[i b]|]; revert Hinv; now apply flagMatchesQueue_ext.
  - inversion H; subst; clear H. unfold removeWindow.
    apply announceTopWindow_flagMatchesQueue, setDirty_flagMatchesQueue.
    revert Hinv. now apply flagMatchesQueue_ext.
  - inversion H; subst; clear H. unfold raise.
    destruct (_ <=? 0); [exact Hinv|].
    apply announceTopWindow_flagMatchesQueue, setDirty_flagMatchesQueue.
    revert Hinv. now apply flagMatchesQueue_ext.
  - inversion H; subst; clear H. unfold lower.
    destruct (_ || _); [exact Hinv|].
    apply announceTopWindow_flagMatchesQueue, setDirty_flagMatchesQueue.
    revert Hinv. now apply flagMatchesQueue_ext.
  - inversion H; subst. now apply setDirty_flagMatchesQueue.
  - inversion H; subst. now apply scheduleUpdate_flagMatchesQueue.
  - inversion H; subst. unfold initializeCompositor. apply scheduleUpdate_flagMatchesQueue.
    revert Hinv. now apply flagMatchesQueue_ext.
  - inversion H; subst. now apply dispatch_flagMatchesQueue.
Qed.

Lemma run_flagMatchesQueue (ops : list Op) : forall (s s' : St),
  flagMatchesQueue s -> run ops s = Finished s' -> flagMatchesQueue s'.
Proof.
  induction ops as [|op ops IH]; intros s s' Hinv H.
  - now inversion H; subst.
  - simpl in H. destruct (step op s) as [s1|] eqn:E; [|discriminate].
    apply (IH s1 s'); [|exact H]. now apply (step_flagMatchesQueue op s s1).
Qed.

Lemma flagMatchesQueue_at_most_one (s : St) :
  flagMatchesQueue s -> (queuedRedraws s <= 1)%nat.
Proof. unfold flagMatchesQueue. intros ->. destruct (mUpdatePending s); lia. Qed.

Lemma setDirty_pending (rect : QRect) (s : St) :
  mUpdatePending s = true ->
  mUpdatePending (setDirty rect s) = true /\ postedEvents (setDirty rect s) = postedEvents s.
Proof.
  intros H. unfold setDirty, scheduleUpdate. simpl. rewrite H. simpl. now split.
Qed.

Lemma damage_while_pending (rects : list QRect) : forall (s : St),
  mUpdatePending s = true ->
  postedEvents (fold_left (fun st r => scheduleUpdate (setDirty r st)) rects s)
  = postedEvents s.
Proof.
  induction rects as [|r rects IH]; intros s H; [reflexivity|].
  simpl. destruct (setDirty_pending r s H) as [H1 H2].
  rewrite IH.
  - rewrite scheduleUpdate_posted, H1. exact H2.
  - apply scheduleUpdate_pending.
Qed.

(** C9.  Run from a state in which the queue holds one redraw
    notification exactly when the flag is set (a new screen is such a
    state), the operations and the event loop keep it so: at most one
    notification is ever queued.  [scheduleUpdate] posts only when the
    flag is clear; while it is set, any number of [setDirty] and
    [scheduleUpdate] calls leave the queue as it is.  Handling the
    notification clears the flag whatever the redraw returns, the empty
    region included, and the next [setDirty] posts a new notification. *)
Theorem update_pending_allows_one_queued_redraw
        (ops : list Op) (s s' : St) (rects : list QRect) (rect : QRect)
        (ws : QFbWindowPtr -> QFbWindow) (qs : QWindowPtr -> QWindow)
        (bs : QFbBackingStorePtr -> QFbBackingStore) (img : QImage) :
  (flagMatchesQueue s -> run ops s = Finished s' ->
   flagMatchesQueue s' /\ (queuedRedraws s' <= 1)%nat)
  /\ (run ops (QFbScreen_new ws qs bs img) = Finished s' -> (queuedRedraws s' <= 1)%nat)
  /\ postedEvents (scheduleUpdate s)
     = (if mUpdatePending s then postedEvents s else postedEvents s ++ [UpdateRequest])
  /\ (mUpdatePending s = true ->
      postedEvents (fold_left (fun st r => scheduleUpdate (setDirty r st)) rects s)
      = postedEvents s)
  /\ mUpdatePending (snd (event UpdateRequest s)) = false
  /\ (fst (doRedraw s) = QRegion_new -> mUpdatePending (snd (event UpdateRequest s)) = false)
  /\ postedEvents (setDirty rect (snd (event UpdateRequest s)))
     = postedEvents s ++ [UpdateRequest]
  /\ (postedEvents s = [UpdateRequest] ->
      mUpdatePending (dispatch s) = false /\ postedEvents (dispatch s) = []).
Proof.
  destruct (event_update_frame s) as (Hu & Hp & _).
  repeat apply conj.
  - intros Hinv H. pose proof (run_flagMatchesQueue ops s s' Hinv H) as H'.
    split; [exact H'|]. now apply flagMatchesQueue_at_most_one.
  - intros H. apply flagMatchesQueue_at_most_one.
    apply (run_flagMatchesQueue ops (QFbScreen_new ws qs bs img) s'); [reflexivity|exact H].
  - apply scheduleUpdate_posted.
  - apply damage_while_pending.
  - exact Hu.
  - intros _. exact Hu.
  - unfold setDirty. rewrite scheduleUpdate_posted. simpl. now rewrite Hu, Hp.
  - intros Hq. unfold dispatch. rewrite Hq.
    destruct (event_update_frame (set_postedEvents [] s)) as (Hu' & Hp' & _).
    now split.
Qed.

(** ** Adding a window *)

Lemma findPending_spec (s : St) (target : QWindowPtr) (l : list QFbBackingStorePtr) :
  forall i,
    match findPending s l i target with
    | Some (j, b) =>
        exists front back,
          l = front ++ b :: back
          /\ j = i + Z.of_nat (length front)
          /\ bs_window (backingStores s b) = target
          /\ Forall (fun x => bs_window (backingStores s x) <> target) front
    | None => Forall (fun x => bs_window (backingStores s x) <> target) l
    end.
Proof.
  induction l as [|b l IH]; intros i; simpl; [constructor|].
  destruct (Nat.eqb (bs_window (backingStores s b)) target) eqn:E.
  - apply Nat.eqb_eq in E. exists [], l. simpl. repeat split; [lia|exact E|constructor].
  - apply Nat.eqb_neq in E. specialize (IH (i + 1)).
    destruct (findPending s l (i + 1) target) as [[j b']|].
    + destruct IH as (front & back & -> & -> & Hm & Hf).
      exists (b :: front), back. simpl length. repeat split; [lia|exact Hm|now constructor].
    + now constructor.
Qed.

Lemma removeAt_middle {A} (front back : list A) (x : A) :
  QList.removeAt (front ++ x :: back) (Z.of_nat (length front)) = front ++ back.
Proof.
  unfold QList.removeAt. rewrite Nat2Z.id.
  induction front as [|a front IH]; simpl; [reflexivity|].
  f_equal. exact IH.
Qed.

Lemma setDirty_heap (rect : QRect) (s : St) :
  fbWindows (setDirty rect s) = fbWindows s
  /\ mPendingBackingStores (setDirty rect s) = mPendingBackingStores s.
Proof. unfold setDirty, scheduleUpdate. now destruct (negb _). Qed.

(** C10.  [addWindow] asserts on entry that the window has a backing
    store: without one the call ends in the failed assertion and nothing
    is reconciled.  A call that completes was made on a window that had a
    store; afterwards the window has that store, or the first pending
    store made for its surface, which then has left the pending list (one
    entry at most is removed, the others stay in order); no other window
    is touched. *)
Theorem addWindow_requires_backing_store (w : QFbWindowPtr) (s s' : St) :
  (fbw_backingStore (fbWindows s w) = None -> addWindow w s = AssertionFailed)
  /\ (addWindow w s = Finished s' ->
      exists bs0,
        fbw_backingStore (fbWindows s w) = Some bs0
        /\ ((Forall (fun b => bs_window (backingStores s b) <> fbw_window (fbWindows s w))
                    (mPendingBackingStores s)
             /\ mPendingBackingStores s' = mPendingBackingStores s
             /\ fbw_backingStore (fbWindows s' w) = Some bs0)
            \/ (exists front b back,
                   mPendingBackingStores s = front ++ b :: back
                   /\ Forall (fun x => bs_window (backingStores s x)
                                       <> fbw_window (fbWindows s w)) front
                   /\ bs_window (backingStores s b) = fbw_window (fbWindows s w)
                   /\ mPendingBackingStores s' = front ++ back
                   /\ fbw_backingStore (fbWindows s' w) = Some b))
        /\ (forall x, x <> w -> fbWindows s' x = fbWindows s x)).
Proof.
  split.
  - intros H. unfold addWindow. now rewrite H.
  - unfold addWindow. destruct (fbw_backingStore (fbWindows s w)) as [bs0|] eqn:Hbs;
      [|discriminate].
    intros H. inversion H; subst; clear H. exists bs0. split; [reflexivity|].
    unfold announceTopWindow. cbn [fbWindows mPendingBackingStores emit set_effects].
    set (s1 := set_mWindowStack _ s).
    pose proof (findPending_spec s1 (fbw_window (fbWindows s1 w)) (mPendingBackingStores s1) 0)
      as Hspec.
    change (mPendingBackingStores s1) with (mPendingBackingStores s) in *.
    change (fbWindows s1) with (fbWindows s) in *.
    change (backingStores s1) with (backingStores s) in *.
    destruct (QList.isEmpty (mPendingBackingStores s)) eqn:Hempty.
    + simpl negb. cbv iota.
      match goal with |- context [setDirty ?g ?st] =>
        destruct (setDirty_heap g st) as [-> ->] end.
      split; [|reflexivity]. left. repeat split; [|exact Hbs].
      destruct (mPendingBackingStores s); [constructor|discriminate].
    + simpl negb. cbv iota.
      destruct (findPending s1 (mPendingBackingStores s) 0 (fbw_window (fbWindows s w)))
        as [[i b]|].
      * destruct Hspec as (front & back & Hl & Hi & Hm & Hf).
        match goal with |- context [setDirty ?g ?st] =>
          destruct (setDirty_heap g st) as [-> ->] end.
        unfold setBackingStore. cbn [fbWindows mPendingBackingStores set_fbWindows
                                      set_mPendingBackingStores].
        rewrite Nat.eqb_refl. split.
        -- right. exists front, b, back. repeat split; try assumption.
           rewrite Hl, Hi. simpl. apply removeAt_middle.
        -- intros x Hx. apply Nat.eqb_neq in Hx. now rewrite Hx.
      * match goal with |- context [setDirty ?g ?st] =>
          destruct (setDirty_heap g st) as [-> ->] end.
        split; [|reflexivity]. left. repeat split; [exact Hspec|exact Hbs].
Qed.


(** ** The order of the stack *)

Lemma removeAt_indexOf_from (l : list nat) (w : nat) : forall i,
  existsb (Nat.eqb w) l = true ->
  QList.removeAt l (QList.indexOf_from l w i - i) = QList.removeOne l w.
Proof.
  induction l as [|y l IH]; intros i H; [discriminate|].
  simpl in *. rewrite (Nat.eqb_sym w y) in H. destruct (Nat.eqb y w) eqn:E.
  - rewrite Z.sub_diag. reflexivity.
  - simpl in H. specialize (IH (i + 1) H).
    destruct (indexOf_from_range l w (i + 1)) as [[_ Hn]|(Hr & _)]; [congruence|].
    replace (QList.indexOf_from l w (i + 1) - i)
      with (Z.succ (QList.indexOf_from l w (i + 1) - (i + 1))) by lia.
    unfold QList.removeAt in *. rewrite Z2Nat.inj_succ by lia. simpl.
    f_equal. exact IH.
Qed.

Lemma raise_stack (w : QFbWindowPtr) (s : St) :
  0 < QList.indexOf (mWindowStack s) w ->
  mWindowStack (raise w s) = w :: QList.removeOne (mWindowStack s) w.
Proof.
  intros H. unfold raise. apply Z.leb_gt in H. rewrite H.
  unfold announceTopWindow. simpl. rewrite setDirty_stack. simpl.
  apply Z.leb_gt in H.
  destruct (indexOf_range (mWindowStack s) w) as [[Hn _]|(_ & Hnth & Hin)]; [lia|].
  unfold QList.move, QFbWindowPtr in *.
  cbn [mWindowStack set_mWindowStack] in *. rewrite Hnth. unfold QList.insertAt. simpl.
  f_equal. unfold QList.indexOf.
  rewrite <- (removeAt_indexOf_from (mWindowStack s) w 0 Hin).
  now rewrite Z.sub_0_r.
Qed.

(** C1 (amended).  Every damaged rectangle that [doRedraw] processes
    (the rectangle clipped to the screen's own bounds, when that is not
    empty) is first filled in source-replace mode, with transparent pixels
    when the output image has an alpha channel and with opaque black
    otherwise; then every visible window that has a backing store is
    drawn, from the last index of the stack to the first, the reverse of
    the stack order, in which [addWindow] and [raise] put their window
    first.  No window is tested against the rectangle: a window that is
    not visible changes nothing, and a visible one gives the pixels of its
    store image, placed at the window's position.  So it is when each
    store image has the size of its window that a window whose geometry
    does not meet the rectangle changes no pixel, and that, on a screen
    without cursor, every damaged pixel ends up with the colour of the
    topmost visible window covering it, or with the background.  On the
    100x100 screen at (0,0) with one visible 50x50 window at (10,10) and
    a 50x50 store of solid colour [C], marking the whole screen dirty and
    redrawing gives [C] on the window's rectangle, [10,59] x [10,59], and
    the background colour elsewhere; with the rectangles read by their
    corners, (0,0)-(100,100) and (10,10)-(50,50), and a 41x41 store, it
    gives [C] on [10,50] x [10,50]. *)
Theorem redraw_fills_then_composites_back_to_front
        (s s' : St) (p : QPainter) (rect : QRect) (q : QPoint) (w0 : QFbWindowPtr)
        (f : Format) (C : QColor) (old : QPoint -> QColor) :
  let r := QRect_intersected rect (screenRect s) in
  (addWindow w0 s = Finished s' -> mWindowStack s' = w0 :: mWindowStack s)
  /\ (0 < QList.indexOf (mWindowStack s) w0 ->
      mWindowStack (raise w0 s) = w0 :: QList.removeOne (mWindowStack s) w0)
  /\
  (mPainter s = Some p -> QRect_isEmpty r = false ->
   performed s (paintRect (QRect_topLeft (mGeometry s)) (screenRect s) s rect)
   = SetCompositionMode CompositionMode_Source
     :: FillRect r (if QImage_hasAlphaChannel (mScreenImage s) then Qt_transparent else Qt_black)
     :: flat_map (layerCalls s r) (rev (mWindowStack s)))
  /\ performed s (snd (doRedraw s)) = redrawCalls s
  /\ (forall w img,
        isVisible s w = false ->
        layerCalls s r w = []
        /\ layerImage s (mkPainter CompositionMode_Source) r img w = img)
  /\ (forall w img bs,
        isVisible s w = true ->
        fbw_backingStore (fbWindows s w) = Some bs ->
        layerCalls s r w
        = [Lock bs;
           DrawImage r bs
             (QRect_translated_xy r (- QRect_left (windowRect s w))
                (- QRect_top (windowRect s w)));
           Unlock bs]
        /\ pixel (layerImage s (mkPainter CompositionMode_Source) r img w) q
           = if QRect_contains r q && QRect_contains (QImage_rect img) q
                && QRect_contains (QImage_rect (bs_image (backingStores s bs)))
                     (mkPoint (px q - x1 (windowRect s w)) (py q - y1 (windowRect s w)))
             then pixel (bs_image (backingStores s bs))
                    (mkPoint (px q - x1 (windowRect s w)) (py q - y1 (windowRect s w)))
             else pixel img q)
  /\ (forall w img,
        (forall bs, fbw_backingStore (fbWindows s w) = Some bs ->
                    img_size (bs_image (backingStores s bs))
                    = QRect_size (fbw_geometry (fbWindows s w))) ->
        QRect_intersects (windowRect s w) r = false ->
        pixel (layerImage s (mkPainter CompositionMode_Source) r img w) q = pixel img q)
  /\ (storesFitWindows s -> mCursor s = None ->
      pixel (mScreenImage (snd (doRedraw s))) q
      = if QRegion_contains (mRepaintRegion s) q && QRect_contains (screenRect s) q
           && QRect_contains (QImage_rect (mScreenImage s)) q
        then topmostPixel s (backgroundColor s) (mWindowStack s) q
        else pixel (mScreenImage s) q)
  /\ (QRect_contains (QRect_xywh 0 0 100 100) q = true ->
      pixel (mScreenImage
               (snd (doRedraw (setDirty (QRect_xywh 0 0 100 100)
                                 (Fixture.sceneXYWH (Cursor := Cursor) f C old))))) q
      = if QRect_contains (QRect_corners 10 10 59 59) q then C
        else if Format_hasAlpha f then Qt_transparent else Qt_black)
  /\ (QRect_contains (QRect_corners 0 0 100 100) q = true ->
      pixel (mScreenImage
               (snd (doRedraw (setDirty (QRect_corners 0 0 100 100)
                                 (Fixture.scene (Cursor := Cursor) f C old))))) q
      = if QRect_contains (QRect_corners 10 10 50 50) q then C
        else if Format_hasAlpha f then Qt_transparent else Qt_black).
Proof.
  intros r. repeat apply conj.
  - apply addWindow_stack.
  - apply raise_stack.
  - intros Hp Hr. rewrite (paintRect_painted s p rect Hp). fold r. rewrite Hr.
    apply performed_painted.
  - apply doRedraw_closed.
  - intros w img H. unfold layerCalls, layerImage. now rewrite H.
  - intros w img bs Hv Hbs. split.
    + unfold layerCalls. now rewrite Hv, Hbs.
    + now apply layerImage_pixel_any.
  - intros w img Hfit H. apply layerImage_outside; [exact Hfit|now right].
  - intros Hfit Hc. now apply doRedraw_pixels.
  - apply sceneXYWH_pixels.
  - apply scene_pixels.
Qed.

End ScreenProperties.

(* ===================================================================== *)
(** * Further properties of the screen *)
(* ===================================================================== *)

Section MoreScreenProperties.

Context {Cursor : Type} {cursorOps : QFbCursorOps Cursor}.

Local Abbreviation St := (@State Cursor).

(** ** What [setDirty] and the announcements leave alone *)

Lemma setDirty_frame (rect : QRect) (s : St) :
  mWindowStack (setDirty rect s) = mWindowStack s
  /\ fbWindows (setDirty rect s) = fbWindows s
  /\ windows (setDirty rect s) = windows s
  /\ backingStores (setDirty rect s) = backingStores s
  /\ effects (setDirty rect s) = effects s
  /\ mGeometry (setDirty rect s) = mGeometry s
  /\ mCursor (setDirty rect s) = mCursor s
  /\ mScreenImage (setDirty rect s) = mScreenImage s
  /\ mPainter (setDirty rect s) = mPainter s
  /\ mPendingBackingStores (setDirty rect s) = mPendingBackingStores s.
Proof. unfold setDirty, scheduleUpdate. destruct (negb _); now repeat split. Qed.

(** ** The top window *)

Lemma topWindow_in_heap (s s' : St) (l : list QFbWindowPtr) :
  (forall w, fbw_window (fbWindows s' w) = fbw_window (fbWindows s w)) ->
  windows s' = windows s ->
  topWindow_in s' l = topWindow_in s l.
Proof.
  intros Hw Hq. induction l as [|w l IH]; [reflexivity|].
  simpl. now rewrite Hw, Hq, IH.
Qed.

Lemma topWindow_in_filter (s : St) (l : list QFbWindowPtr) :
  topWindow_in s l = topWindow_in s (filter (qualifies s) l).
Proof.
  induction l as [|w l IH]; [reflexivity|].
  simpl. unfold qualifies at 1.
  destruct (isWindowOrDialog _) eqn:E; simpl.
  - now rewrite E.
  - exact IH.
Qed.

Lemma topWindow_in_spec (s : St) (l : list QFbWindowPtr) :
  match topWindow_in s l with
  | Some q =>
      exists front w back,
        l = front ++ w :: back
        /\ Forall (fun x => qualifies s x = false) front
        /\ qualifies s w = true
        /\ q = fbw_window (fbWindows s w)
  | None => Forall (fun x => qualifies s x = false) l
  end.
Proof.
  induction l as [|w l IH]; simpl; [constructor|].
  destruct (isWindowOrDialog _) eqn:E.
  - exists [], w, l. repeat split; [constructor|exact E].
  - destruct (topWindow_in s l) as [q|].
    + destruct IH as (front & w' & back & -> & Hf & Hq & ->).
      exists (w :: front), w', back. repeat split; [|exact Hq].
      constructor; [exact E|exact Hf].
    + constructor; [exact E|exact IH].
Qed.

(** X1.  [topWindow] returns the [window()] of the first stack entry whose
    type is [Qt::Window] or [Qt::Dialog], every entry before it being of
    another type; it returns nothing exactly when no entry has such a
    type, in particular on an empty stack. *)
Theorem topWindow_is_first_window_or_dialog (s : St) :
  match topWindow s with
  | Some q =>
      exists front w back,
        mWindowStack s = front ++ w :: back
        /\ Forall (fun x => qualifies s x = false) front
        /\ qualifies s w = true
        /\ q = fbw_window (fbWindows s w)
  | None => Forall (fun x => qualifies s x = false) (mWindowStack s)
  end.
Proof. apply topWindow_in_spec. Qed.

Lemma filter_removeOne_other (f : nat -> bool) (l : list nat) (w : nat) :
  f w = false -> filter f (QList.removeOne l w) = filter f l.
Proof.
  intros Hw. induction l as [|y l IH]; [reflexivity|].
  simpl. destruct (Nat.eqb y w) eqn:E.
  - apply Nat.eqb_eq in E. subst. now rewrite Hw.
  - simpl. now rewrite IH.
Qed.

Lemma nth_error_split_at {A} (l : list A) (n : nat) (x : A) :
  nth_error l n = Some x -> l = firstn n l ++ x :: skipn (S n) l.
Proof.
  revert n. induction l as [|a l IH]; intros [|n] H; simpl in *; try discriminate.
  - now inversion H.
  - f_equal. now apply IH.
Qed.

Lemma filter_move_other (f : nat -> bool) (l : list nat) (from to : Z) (w : nat) :
  nth_error l (Z.to_nat from) = Some w -> f w = false ->
  filter f (QList.move l from to) = filter f l.
Proof.
  intros Hn Hw. unfold QList.move. rewrite Hn. unfold QList.insertAt.
  rewrite filter_app. simpl. rewrite Hw. rewrite <- filter_app, firstn_skipn.
  unfold QList.removeAt. rewrite (nth_error_split_at l _ w Hn) at 3.
  rewrite !filter_app. simpl. now rewrite Hw.
Qed.

Lemma removeWindow_stack (w : QFbWindowPtr) (s : St) :
  mWindowStack (removeWindow w s) = QList.removeOne (mWindowStack s) w.
Proof.
  unfold removeWindow, announceTopWindow. simpl.
  now rewrite (proj1 (setDirty_frame _ _)).
Qed.

Lemma removeWindow_heap (w : QFbWindowPtr) (s : St) :
  fbWindows (removeWindow w s) = fbWindows s /\ windows (removeWindow w s) = windows s.
Proof.
  unfold removeWindow, announceTopWindow. simpl.
  destruct (setDirty_frame (fbw_geometry (fbWindows s w))
              (set_mWindowStack (QList.removeOne (mWindowStack s) w) s))
    as (_ & -> & -> & _). now split.
Qed.

Lemma raise_cases (w : QFbWindowPtr) (s : St) :
  (QList.indexOf (mWindowStack s) w <= 0 /\ raise w s = s)
  \/ (0 < QList.indexOf (mWindowStack s) w
      /\ nth_error (mWindowStack s) (Z.to_nat (QList.indexOf (mWindowStack s) w)) = Some w
      /\ raise w s
         = announceTopWindow
             (setDirty (fbw_geometry (fbWindows s w))
                (set_mWindowStack
                   (QList.move (mWindowStack s) (QList.indexOf (mWindowStack s) w) 0) s))).
Proof.
  destruct (Z.leb_spec (QList.indexOf (mWindowStack s) w) 0) as [H|H].
  - left. split; [exact H|]. now apply raise_noop.
  - right. split; [exact H|]. split.
    + destruct (indexOf_range (mWindowStack s) w) as [[Hn _]|(_ & Hnth & _)]; [lia|exact Hnth].
    + unfold raise. apply Z.leb_gt in H. now rewrite H.
Qed.

Lemma lower_cases (w : QFbWindowPtr) (s : St) :
  ((QList.indexOf (mWindowStack s) w = -1
    \/ QList.indexOf (mWindowStack s) w = QList.size (mWindowStack s) - 1)
   /\ lower w s = s)
  \/ (0 <= QList.indexOf (mWindowStack s) w < QList.size (mWindowStack s) - 1
      /\ nth_error (mWindowStack s) (Z.to_nat (QList.indexOf (mWindowStack s) w)) = Some w
      /\ lower w s
         = announceTopWindow
             (setDirty (fbw_geometry (fbWindows s w))
                (set_mWindowStack
                   (QList.move (mWindowStack s) (QList.indexOf (mWindowStack s) w)
                      (QList.size (mWindowStack s) - 1)) s))).
Proof.
  destruct (Z.eqb_spec (QList.indexOf (mWindowStack s) w) (-1)) as [H|H].
  { left. split; [now left|]. apply lower_noop. now left. }
  destruct (Z.eqb_spec (QList.indexOf (mWindowStack s) w) (QList.size (mWindowStack s) - 1))
    as [H'|H'].
  { left. split; [now right|]. apply lower_noop. now right. }
  right. destruct (indexOf_range (mWindowStack s) w) as [[Hn _]|(Hr & Hnth & _)]; [lia|].
  split; [unfold QList.size, QFbWindowPtr in *; lia|]. split; [exact Hnth|].
  unfold lower. apply Z.eqb_neq in H, H'. now rewrite H, H'.
Qed.

Lemma topWindow_of_stack (s s' : St) :
  fbWindows s' = fbWindows s -> windows s' = windows s ->
  filter (qualifies s) (mWindowStack s') = filter (qualifies s) (mWindowStack s) ->
  topWindow s' = topWindow s.
Proof.
  intros Hf Hq Hl. unfold topWindow.
  rewrite (topWindow_in_heap s s') by (intros; now rewrite ?Hf, ?Hq).
  now rewrite topWindow_in_filter, Hl, <- topWindow_in_filter.
Qed.

Lemma addWindow_heap (w : QFbWindowPtr) (s s' : St) :
  addWindow w s = Finished s' ->
  (forall x, fbw_window (fbWindows s' x) = fbw_window (fbWindows s x))
  /\ (forall x, fbw_geometry (fbWindows s' x) = fbw_geometry (fbWindows s x))
  /\ (forall x, fbw_winId (fbWindows s' x) = fbw_winId (fbWindows s x))
  /\ windows s' = windows s
  /\ backingStores s' = backingStores s.
Proof.
  unfold addWindow. destruct (fbw_backingStore (fbWindows s w)); [|discriminate].
  intros H. inversion H; subst; clear H. unfold announceTopWindow. simpl.
  match goal with |- context [setDirty ?g ?st] =>
    destruct (setDirty_frame g st) as (_ & -> & -> & -> & _) end.
  destruct (negb (QList.isEmpty _)); [|now repeat split].
  destruct (findPending _ _ _ _) as [[i b]|]; [|now repeat split].
  simpl. repeat split; intros x; destruct (Nat.eqb x w) eqn:E; try reflexivity;
    apply Nat.eqb_eq in E; now subst.
Qed.

(** X2.  A stack entry that is neither a normal window nor a dialog (a
    tooltip, a popup) never decides the top window: adding it, removing
    it, raising it or lowering it leaves [topWindow] as it was. *)
Theorem other_window_types_never_change_topWindow (w : QFbWindowPtr) (s : St) :
  qualifies s w = false ->
  topWindow (removeWindow w s) = topWindow s
  /\ topWindow (raise w s) = topWindow s
  /\ topWindow (lower w s) = topWindow s
  /\ (forall s', addWindow w s = Finished s' -> topWindow s' = topWindow s).
Proof.
  intros Hw. repeat apply conj.
  - destruct (removeWindow_heap w s) as [Hf Hq]. apply topWindow_of_stack; try assumption.
    rewrite removeWindow_stack. now apply filter_removeOne_other.
  - destruct (raise_cases w s) as [[_ ->]|(_ & Hn & ->)]; [reflexivity|].
    apply topWindow_of_stack.
    + simpl. now rewrite (proj1 (proj2 (setDirty_frame _ _))).
    + simpl. now destruct (setDirty_frame (fbw_geometry (fbWindows s w))
                             (set_mWindowStack
                                (QList.move (mWindowStack s)
                                   (QList.indexOf (mWindowStack s) w) 0) s))
        as (_ & _ & -> & _).
    + simpl. rewrite (proj1 (setDirty_frame _ _)). simpl.
      now apply (filter_move_other _ _ _ _ w).
  - destruct (lower_cases w s) as [[_ ->]|(_ & Hn & ->)]; [reflexivity|].
    apply topWindow_of_stack.
    + simpl. now rewrite (proj1 (proj2 (setDirty_frame _ _))).
    + simpl. now destruct (setDirty_frame (fbw_geometry (fbWindows s w))
                             (set_mWindowStack
                                (QList.move (mWindowStack s)
                                   (QList.indexOf (mWindowStack s) w)
                                   (QList.size (mWindowStack s) - 1)) s))
        as (_ & _ & -> & _).
    + simpl. rewrite (proj1 (setDirty_frame _ _)). simpl.
      now apply (filter_move_other _ _ _ _ w).
  - intros s' H. destruct (addWindow_heap w s s' H) as (Hwin & _ & _ & Hq & _).
    unfold topWindow. rewrite (topWindow_in_heap s s') by assumption.
    rewrite (addWindow_stack w s s' H). simpl.
    unfold qualifies in Hw. now rewrite Hw.
Qed.


Lemma indexOf_in_stack (l : list nat) (w : nat) :
  existsb (Nat.eqb w) l = true ->
  0 <= QList.indexOf l w < Z.of_nat (length l)
  /\ nth_error l (Z.to_nat (QList.indexOf l w)) = Some w.
Proof.
  intros H. destruct (indexOf_range l w) as [[_ Hn]|(Hr & Hnth & _)]; [congruence|].
  now split.
Qed.

(** X3.  A normal window or dialog becomes the top window when it is
    added, and when it is raised while it is in the stack. *)
Theorem added_or_raised_window_becomes_topWindow (w : QFbWindowPtr) (s : St) :
  qualifies s w = true ->
  (forall s', addWindow w s = Finished s' -> topWindow s' = Some (fbw_window (fbWindows s w)))
  /\ (inStack w s = true -> topWindow (raise w s) = Some (fbw_window (fbWindows s w))).
Proof.
  intros Hw. split.
  - intros s' H. destruct (addWindow_heap w s s' H) as (Hwin & _ & _ & Hq & _).
    unfold topWindow. rewrite (topWindow_in_heap s s') by assumption.
    rewrite (addWindow_stack w s s' H). simpl.
    unfold qualifies in Hw. now rewrite Hw.
  - intros Hin. unfold inStack in Hin.
    destruct (indexOf_in_stack _ _ Hin) as [Hr Hnth].
    destruct (raise_cases w s) as [[Hle ->]|(Hlt & _ & Heq)].
    + replace (QList.indexOf (mWindowStack s) w) with 0 in Hnth by lia.
      unfold topWindow. destruct (mWindowStack s) as [|y l]; [discriminate|].
      simpl in Hnth. inversion Hnth; subst. simpl.
      unfold qualifies in Hw. now rewrite Hw.
    + unfold topWindow. rewrite (raise_stack w s Hlt).
      rewrite Heq. simpl.
      destruct (setDirty_frame (fbw_geometry (fbWindows s w))
                  (set_mWindowStack
                     (QList.move (mWindowStack s) (QList.indexOf (mWindowStack s) w) 0) s))
        as (_ & -> & -> & _). simpl.
      unfold qualifies in Hw. now rewrite Hw.
Qed.

(** ** Announcements and damage of the stack operations *)

Lemma performed_announce (s X : St) :
  effects X = effects s ->
  performed s (announceTopWindow X) = announcements (topWindow (announceTopWindow X)).
Proof.
  intros H. unfold performed, announceTopWindow, emit. simpl. rewrite H.
  rewrite <- app_assoc, skipn_app, skipn_all, Nat.sub_diag.
  unfold topWindow at 3. simpl mWindowStack.
  rewrite (topWindow_in_heap X) by reflexivity. reflexivity.
Qed.

Lemma performed_refl (s : St) : performed s s = [].
Proof. unfold performed. apply skipn_all. Qed.

(** X4.  Each change of the stack ends with the two announcements
    [handleWindowActivated] and [topWindowChanged], made once each, in
    this order, with the top window of the stack as it is after the
    change, whether or not the top window changed.  [removeWindow]
    announces even when the window was not stacked; [raise] and [lower]
    that have nothing to move announce nothing. *)
Theorem stack_changes_announce_new_topWindow (w : QFbWindowPtr) (s : St) :
  (forall s', addWindow w s = Finished s' -> performed s s' = announcements (topWindow s'))
  /\ performed s (removeWindow w s) = announcements (topWindow (removeWindow w s))
  /\ performed s (raise w s)
     = (if QList.indexOf (mWindowStack s) w <=? 0 then []
        else announcements (topWindow (raise w s)))
  /\ performed s (lower w s)
     = (if (QList.indexOf (mWindowStack s) w =? -1)
           || (QList.indexOf (mWindowStack s) w =? QList.size (mWindowStack s) - 1)
        then []
        else announcements (topWindow (lower w s))).
Proof.
  repeat apply conj.
  - unfold addWindow. destruct (fbw_backingStore (fbWindows s w)); [|discriminate].
    intros s' H. inversion H; subst; clear H. apply performed_announce.
    match goal with |- effects (setDirty ?g ?st) = _ =>
      destruct (setDirty_frame g st) as (_ & _ & _ & _ & -> & _) end.
    destruct (negb (QList.isEmpty _)); [|reflexivity].
    now destruct (findPending _ _ _ _) as [[i b]|].
  - unfold removeWindow. apply performed_announce.
    now rewrite (proj1 (proj2 (proj2 (proj2 (proj2 (setDirty_frame _ _)))))).
  - unfold raise. destruct (_ <=? 0); [apply performed_refl|].
    apply performed_announce.
    now rewrite (proj1 (proj2 (proj2 (proj2 (proj2 (setDirty_frame _ _)))))).
  - unfold lower. destruct (_ || _); [apply performed_refl|].
    apply performed_announce.
    now rewrite (proj1 (proj2 (proj2 (proj2 (proj2 (setDirty_frame _ _)))))).
Qed.


(** ** Hit testing and lookup by id *)

Lemma topLevelAt_in_entry (s : St) (p : QPoint) (l : list QFbWindowPtr) :
  topLevelAt_in s l p
  = option_map (fun w => fbw_window (fbWindows s w)) (topLevelEntryAt s l p).
Proof.
  induction l as [|w l IH]; [reflexivity|].
  simpl. unfold hits. now destruct (_ && _).
Qed.

Lemma topLevelEntryAt_spec (s : St) (p : QPoint) (l : list QFbWindowPtr) :
  match topLevelEntryAt s l p with
  | Some w =>
      exists front back,
        l = front ++ w :: back
        /\ Forall (fun x => hits s p x = false) front
        /\ hits s p w = true
  | None => Forall (fun x => hits s p x = false) l
  end.
Proof.
  induction l as [|w l IH]; simpl; [constructor|].
  destruct (hits s p w) eqn:E.
  - exists [], l. repeat split; [constructor|exact E].
  - destruct (topLevelEntryAt s l p) as [w'|].
    + destruct IH as (front & back & -> & Hf & Hh).
      exists (w :: front), back. repeat split; [|exact Hh].
      constructor; [exact E|exact Hf].
    + constructor; [exact E|exact IH].
Qed.

(** X5.  [topLevelAt(p)] returns the [window()] of the first stack entry,
    from the top, that is visible and whose geometry contains [p]; it
    returns nothing exactly when no entry is hit.  The test includes the
    edges: the bottom-right corner of a non-empty geometry is hit, the
    point one column further is not. *)
Theorem topLevelAt_is_first_visible_hit (p : QPoint) (s : St) (w0 : QFbWindowPtr) :
  topLevelAt p s
  = option_map (fun w => fbw_window (fbWindows s w))
      (topLevelEntryAt s (mWindowStack s) p)
  /\ match topLevelEntryAt s (mWindowStack s) p with
     | Some w =>
         exists front back,
           mWindowStack s = front ++ w :: back
           /\ Forall (fun x => hits s p x = false) front
           /\ QRect_contains (fbw_geometry (fbWindows s w)) p = true
           /\ isVisible s w = true
     | None => Forall (fun x => hits s p x = false) (mWindowStack s)
     end
  /\ hits s (mkPoint (x2 (fbw_geometry (fbWindows s w0))) (y2 (fbw_geometry (fbWindows s w0))))
          w0
     = negb (QRect_isEmpty (fbw_geometry (fbWindows s w0))) && isVisible s w0
  /\ hits s (mkPoint (x2 (fbw_geometry (fbWindows s w0)) + 1)
                     (y2 (fbw_geometry (fbWindows s w0)))) w0 = false.
Proof.
  repeat apply conj.
  - apply topLevelAt_in_entry.
  - pose proof (topLevelEntryAt_spec s p (mWindowStack s)) as H.
    destruct (topLevelEntryAt s (mWindowStack s) p) as [w|]; [|exact H].
    destruct H as (front & back & Hl & Hf & Hh).
    unfold hits in Hh. apply andb_true_iff in Hh. destruct Hh as [Hc Hv].
    exists front, back. now repeat split.
  - unfold hits, isVisible, QRect_contains, QRect_isEmpty. simpl.
    destruct (win_isVisible _); [|now rewrite !andb_false_r].
    rewrite !andb_true_r. zbool.
  - unfold hits, QRect_contains. simpl.
    destruct (win_isVisible _); [|now rewrite !andb_false_r].
    rewrite !andb_true_r. zbool.
Qed.

Lemma windowForId_in_spec (s : St) (wid : WId) (l : list QFbWindowPtr) :
  match windowForId_in s l wid with
  | Some w =>
      exists front back,
        l = front ++ w :: back
        /\ Forall (fun x => fbw_winId (fbWindows s x) <> wid) front
        /\ fbw_winId (fbWindows s w) = wid
  | None => Forall (fun x => fbw_winId (fbWindows s x) <> wid) l
  end.
Proof.
  induction l as [|w l IH]; simpl; [constructor|].
  destruct (Z.eqb_spec (fbw_winId (fbWindows s w)) wid) as [E|E].
  - exists [], l. repeat split; [constructor|exact E].
  - destruct (windowForId_in s l wid) as [w'|].
    + destruct IH as (front & back & -> & Hf & Hh).
      exists (w :: front), back. repeat split; [|exact Hh].
      constructor; [exact E|exact Hf].
    + constructor; [exact E|exact IH].
Qed.

(** X6.  [windowForId(id)] returns the first stack entry whose [winId()]
    is [id] and nothing exactly when no entry has it; a window that was
    just added is found under its own id, also when another stacked
    window carries the same id. *)
Theorem windowForId_finds_first_entry_with_id (wid : WId) (s : St) :
  match windowForId wid s with
  | Some w =>
      exists front back,
        mWindowStack s = front ++ w :: back
        /\ Forall (fun x => fbw_winId (fbWindows s x) <> wid) front
        /\ fbw_winId (fbWindows s w) = wid
  | None => Forall (fun x => fbw_winId (fbWindows s x) <> wid) (mWindowStack s)
  end
  /\ (forall w s', addWindow w s = Finished s' ->
                   windowForId (fbw_winId (fbWindows s w)) s' = Some w).
Proof.
  split.
  - apply windowForId_in_spec.
  - intros w s' H. destruct (addWindow_heap w s s' H) as (_ & _ & Hid & _).
    unfold windowForId. rewrite (addWindow_stack w s s' H). simpl.
    now rewrite Hid, Z.eqb_refl.
Qed.

(** ** Removing, raising and lowering *)

Lemma removeOne_absent (l : list nat) (w : nat) :
  existsb (Nat.eqb w) l = false -> QList.removeOne l w = l.
Proof.
  induction l as [|y l IH]; [reflexivity|].
  simpl. rewrite (Nat.eqb_sym w y). destruct (Nat.eqb y w); [discriminate|].
  simpl. intros H. now rewrite IH.
Qed.

Lemma removeWindow_region (w : QFbWindowPtr) (s : St) :
  mRepaintRegion (removeWindow w s)
  = QRegion_addRect (mRepaintRegion s) (damageOf s (fbw_geometry (fbWindows s w))).
Proof. unfold removeWindow, announceTopWindow. simpl. now rewrite setDirty_region. Qed.

(** X7.  [removeWindow] of a window that is not in the stack is not a
    no-op, unlike [raise] and [lower]: the stack stays as it is, yet the
    window's geometry is marked dirty, an update is requested and the
    unchanged top window is announced again. *)
Theorem removeWindow_of_unstacked_window_still_damages (w : QFbWindowPtr) (s : St) :
  inStack w s = false ->
  mWindowStack (removeWindow w s) = mWindowStack s
  /\ mRepaintRegion (removeWindow w s)
     = QRegion_addRect (mRepaintRegion s) (damageOf s (fbw_geometry (fbWindows s w)))
  /\ mUpdatePending (removeWindow w s) = true
  /\ performed s (removeWindow w s) = announcements (topWindow s)
  /\ raise w s = s
  /\ lower w s = s.
Proof.
  intros H. unfold inStack in H.
  assert (Hst : mWindowStack (removeWindow w s) = mWindowStack s)
    by (rewrite removeWindow_stack; now apply removeOne_absent).
  repeat apply conj.
  - exact Hst.
  - apply removeWindow_region.
  - unfold removeWindow, announceTopWindow. simpl. unfold setDirty. apply scheduleUpdate_pending.
  - unfold removeWindow. rewrite performed_announce
      by now rewrite (proj1 (proj2 (proj2 (proj2 (proj2 (setDirty_frame _ _)))))).
    f_equal. fold (removeWindow w s).
    destruct (removeWindow_heap w s) as [Hf Hq].
    apply topWindow_of_stack; [exact Hf|exact Hq|now rewrite Hst].
  - apply raise_noop. rewrite (indexOf_absent _ _ H). lia.
  - apply lower_noop. left. now apply indexOf_absent.
Qed.

(** X8.  Removing a window right after adding it gives back the stack
    and the top window there were before the [addWindow]. *)
Theorem addWindow_then_removeWindow_restores_stack (w : QFbWindowPtr) (s s' : St) :
  addWindow w s = Finished s' ->
  mWindowStack (removeWindow w s') = mWindowStack s
  /\ windowCount (removeWindow w s') = windowCount s
  /\ topWindow (removeWindow w s') = topWindow s.
Proof.
  intros H.
  assert (Hst : mWindowStack (removeWindow w s') = mWindowStack s).
  { rewrite removeWindow_stack, (addWindow_stack w s s' H). simpl. now rewrite Nat.eqb_refl. }
  repeat apply conj.
  - exact Hst.
  - unfold windowCount. now rewrite Hst.
  - destruct (addWindow_heap w s s' H) as (Hwin & _ & _ & Hq & _).
    destruct (removeWindow_heap w s') as [Hf' Hq'].
    unfold topWindow. rewrite Hst.
    apply topWindow_in_heap; [intros x; now rewrite Hf'|congruence].
Qed.

Lemma move_permutation {A} (l : list A) (from to : Z) : Permutation (QList.move l from to) l.
Proof.
  unfold QList.move. destruct (nth_error l (Z.to_nat from)) as [x|] eqn:E; [|reflexivity].
  unfold QList.insertAt. rewrite <- Permutation_middle, firstn_skipn.
  unfold QList.removeAt. rewrite (nth_error_split_at l _ x E) at 3.
  now rewrite <- Permutation_middle.
Qed.

Lemma raise_stack_eq (w : QFbWindowPtr) (s : St) :
  mWindowStack (raise w s)
  = if QList.indexOf (mWindowStack s) w <=? 0 then mWindowStack s
    else QList.move (mWindowStack s) (QList.indexOf (mWindowStack s) w) 0.
Proof.
  unfold raise. destruct (_ <=? 0); [reflexivity|].
  unfold announceTopWindow. simpl. now rewrite (proj1 (setDirty_frame _ _)).
Qed.

Lemma lower_stack_eq (w : QFbWindowPtr) (s : St) :
  mWindowStack (lower w s)
  = if (QList.indexOf (mWindowStack s) w =? -1)
       || (QList.indexOf (mWindowStack s) w =? QList.size (mWindowStack s) - 1)
    then mWindowStack s
    else QList.move (mWindowStack s) (QList.indexOf (mWindowStack s) w)
           (QList.size (mWindowStack s) - 1).
Proof.
  unfold lower. destruct (_ || _); [reflexivity|].
  unfold announceTopWindow. simpl. now rewrite (proj1 (setDirty_frame _ _)).
Qed.

Lemma lower_stack (w : QFbWindowPtr) (s : St) :
  0 <= QList.indexOf (mWindowStack s) w < QList.size (mWindowStack s) - 1 ->
  mWindowStack (lower w s) = QList.removeOne (mWindowStack s) w ++ [w].
Proof.
  intros H. rewrite lower_stack_eq.
  replace (QList.indexOf (mWindowStack s) w =? -1) with false by (symmetry; apply Z.eqb_neq; lia).
  replace (QList.indexOf (mWindowStack s) w =? QList.size (mWindowStack s) - 1) with false
    by (symmetry; apply Z.eqb_neq; lia).
  simpl.
  destruct (indexOf_range (mWindowStack s) w) as [[Hn _]|(Hr & Hnth & Hin)]; [lia|].
  unfold QList.move, QFbWindowPtr in *. rewrite Hnth. unfold QList.insertAt.
  assert (Hrm : QList.removeAt (mWindowStack s) (QList.indexOf (mWindowStack s) w)
                = QList.removeOne (mWindowStack s) w).
  { unfold QList.indexOf. rewrite <- (removeAt_indexOf_from (mWindowStack s) w 0 Hin).
    now rewrite Z.sub_0_r. }
  unfold QFbWindowPtr in *. rewrite Hrm.
  assert (Hlen : Z.to_nat (QList.size (mWindowStack s) - 1)
                 = length (QList.removeOne (mWindowStack s) w)).
  { rewrite <- Hrm, removeAt_length by exact Hr. unfold QList.size, QFbWindowPtr in *.
    rewrite Z2Nat.inj_sub, Nat2Z.id by lia. reflexivity. }
  unfold QFbWindowPtr in *. rewrite Hlen, firstn_all, skipn_all. reflexivity.
Qed.

(** X9.  [raise] and [lower] only reorder: the stack after them is a
    permutation of the stack before.  A stacked window that is not the
    last entry is moved by [lower] to the end, the other windows keeping
    their order. *)
Theorem raise_and_lower_only_reorder (w : QFbWindowPtr) (s : St) :
  Permutation (mWindowStack (raise w s)) (mWindowStack s)
  /\ Permutation (mWindowStack (lower w s)) (mWindowStack s)
  /\ (0 <= QList.indexOf (mWindowStack s) w < QList.size (mWindowStack s) - 1 ->
      mWindowStack (lower w s) = QList.removeOne (mWindowStack s) w ++ [w]).
Proof.
  repeat apply conj.
  - rewrite raise_stack_eq. destruct (_ <=? 0); [reflexivity|apply move_permutation].
  - rewrite lower_stack_eq. destruct (_ || _); [reflexivity|apply move_permutation].
  - apply lower_stack.
Qed.

Lemma removeOne_not_in (l : list nat) (w : nat) : NoDup l -> ~ In w (QList.removeOne l w).
Proof.
  induction l as [|y l IH]; intros Hnd; [easy|].
  inversion Hnd as [|? ? Hy Hl]; subst. simpl.
  destruct (Nat.eqb y w) eqn:E.
  - apply Nat.eqb_eq in E. now subst.
  - apply Nat.eqb_neq in E. intros [H|H]; [congruence|]. now apply IH.
Qed.

(** X10.  Raising a window twice is the same as raising it once: the
    second [raise] finds the window at index 0 and returns the state
    unchanged, without new damage or announcements.  The same holds for
    [lower] on a stack that holds no window twice. *)
Theorem raise_and_lower_are_idempotent (w : QFbWindowPtr) (s : St) :
  raise w (raise w s) = raise w s
  /\ (NoDup (mWindowStack s) -> lower w (lower w s) = lower w s).
Proof.
  split.
  - apply raise_noop. rewrite raise_stack_eq.
    destruct (Z.leb_spec (QList.indexOf (mWindowStack s) w) 0) as [H|H]; [exact H|].
    rewrite <- (Z.leb_gt) in H. pose proof (raise_stack w s) as Hs.
    rewrite raise_stack_eq, H in Hs. apply Z.leb_gt in H. rewrite (Hs H).
    rewrite indexOf_head by reflexivity. lia.
  - intros Hnd. apply lower_noop.
    destruct (lower_cases w s) as [[Hc ->]|(Hr & _ & _)]; [exact Hc|].
    right. rewrite (lower_stack w s Hr). unfold QList.indexOf, QList.size.
    rewrite indexOf_from_last by now apply removeOne_not_in.
    rewrite length_app, Nat2Z.inj_add. simpl length. lia.
Qed.


(** ** Coalesced damage *)

Lemma damageOf_contains (s : St) (rect : QRect) (p : QPoint) :
  QRect_contains (damageOf s rect) p
  = QRect_contains rect (mkPoint (px p + x1 (mGeometry s)) (py p + y1 (mGeometry s)))
    && QRect_contains (mGeometry s) (mkPoint (px p + x1 (mGeometry s)) (py p + y1 (mGeometry s))).
Proof. apply setDirty_damage_contains. Qed.

Lemma setDirtyAll_geometry (rects : list QRect) : forall s : St,
  mGeometry (setDirtyAll rects s) = mGeometry s.
Proof.
  induction rects as [|r rects IH]; intros s; [reflexivity|].
  change (setDirtyAll (r :: rects) s) with (setDirtyAll rects (setDirty r s)). rewrite IH.
  now destruct (setDirty_frame r s) as (_ & _ & _ & _ & _ & -> & _).
Qed.

Lemma existsb_pointwise {A} (f g : A -> bool) (l : list A) :
  (forall x, f x = g x) -> existsb f l = existsb g l.
Proof. intros H. induction l as [|a l IH]; simpl; [reflexivity|now rewrite H, IH]. Qed.

Lemma setDirtyAll_region (rects : list QRect) : forall (s : St) (p : QPoint),
  QRegion_contains (mRepaintRegion (setDirtyAll rects s)) p
  = QRegion_contains (mRepaintRegion s) p
    || existsb (fun r => QRect_contains (damageOf s r) p) rects.
Proof.
  induction rects as [|r rects IH]; intros s p; [simpl; now rewrite orb_false_r|].
  change (setDirtyAll (r :: rects) s) with (setDirtyAll rects (setDirty r s)).
  cbn [existsb]. rewrite IH, setDirty_region.
  fold (damageOf s r). rewrite QRegion_contains_addRect, <- orb_assoc. f_equal. f_equal.
  apply existsb_pointwise. intros r'. unfold damageOf.
  now destruct (setDirty_frame r s) as (_ & _ & _ & _ & _ & -> & _).
Qed.

Lemma setDirtyAll_posted (rects : list QRect) : forall s : St,
  postedEvents (setDirtyAll rects s)
  = (if mUpdatePending s then postedEvents s
     else match rects with [] => postedEvents s | _ :: _ => postedEvents s ++ [UpdateRequest] end)
  /\ mUpdatePending (setDirtyAll rects s)
     = (mUpdatePending s || match rects with [] => false | _ :: _ => true end).
Proof.
  induction rects as [|r rects IH]; intros s.
  - simpl. rewrite orb_false_r. now destruct (mUpdatePending s).
  - change (setDirtyAll (r :: rects) s) with (setDirtyAll rects (setDirty r s)).
    destruct (IH (setDirty r s)) as [H1 H2]. rewrite H1, H2.
    assert (Hp : mUpdatePending (setDirty r s) = true)
      by (unfold setDirty; apply scheduleUpdate_pending).
    assert (Hq : postedEvents (setDirty r s)
                 = if mUpdatePending s then postedEvents s else postedEvents s ++ [UpdateRequest])
      by (unfold setDirty; now rewrite scheduleUpdate_posted).
    rewrite Hp, Hq. simpl. rewrite orb_true_r. now split.
Qed.

(** X11.  Any number of [setDirty] calls made before the event loop
    turns coalesce: the damage region becomes the union of what it was
    with every rectangle (clipped, in screen coordinates), one
    notification is posted if none was pending, the one redraw it leads
    to returns a region that covers every one of the rectangles, and after
    that redraw nothing is queued, pending or damaged. *)
Theorem setDirty_calls_coalesce_into_one_redraw (rects : list QRect) (s : St) :
  (forall p,
      QRegion_contains (mRepaintRegion (setDirtyAll rects s)) p
      = QRegion_contains (mRepaintRegion s) p
        || existsb (fun r => QRect_contains (damageOf s r) p) rects)
  /\ postedEvents (setDirtyAll rects s)
     = (if mUpdatePending s then postedEvents s
        else match rects with
             | [] => postedEvents s
             | _ :: _ => postedEvents s ++ [UpdateRequest]
             end)
  /\ (forall r p, In r rects -> QRect_contains (damageOf s r) p = true ->
                  QRegion_contains (fst (doRedraw (setDirtyAll rects s))) p = true)
  /\ (mUpdatePending s = false -> postedEvents s = [] -> rects <> [] ->
      postedEvents (dispatch (setDirtyAll rects s)) = []
      /\ mUpdatePending (dispatch (setDirtyAll rects s)) = false
      /\ mRepaintRegion (dispatch (setDirtyAll rects s)) = QRegion_new).
Proof.
  repeat apply conj.
  - apply setDirtyAll_region.
  - apply setDirtyAll_posted.
  - intros r p Hin Hp. destruct (doRedraw_closed (setDirtyAll rects s)) as [-> _].
    apply redrawTouched_covers, absorbCursorDamage_grows.
    rewrite setDirtyAll_region. apply orb_true_iff. right.
    apply existsb_exists. now exists r.
  - intros Hu Hq Hne. destruct (setDirtyAll_posted rects s) as [Hp _].
    rewrite Hu, Hq in Hp. destruct rects as [|r rects]; [congruence|]. cbv iota in Hp.
    unfold dispatch. rewrite Hp.
    destruct (event_update_frame (set_postedEvents [] (setDirtyAll (r :: rects) s)))
      as (H1 & H2 & H3).
    now repeat split.
Qed.

(** ** What a redraw never does *)

Lemma lockDiscipline_app (a b : list Effect) : forall held,
  lockDiscipline held a = true ->
  lockDiscipline held (a ++ b) = lockDiscipline None b.
Proof.
  induction a as [|e a IH]; intros held H.
  - simpl in *. now destruct held.
  - destruct e; simpl in *; destruct held as [h|]; try discriminate;
      try (apply andb_true_iff in H; destruct H as [He H]; rewrite He; simpl);
      now apply IH.
Qed.

Lemma lockDiscipline_layerCalls (s : St) (rect : QRect) (ws : list QFbWindowPtr) :
  lockDiscipline None (flat_map (layerCalls s rect) ws) = true.
Proof.
  induction ws as [|w ws IH]; [reflexivity|].
  simpl. unfold layerCalls at 1. destruct (isVisible s w); [|exact IH].
  destruct (fbw_backingStore (fbWindows s w)) as [bs|]; [|exact IH].
  simpl. now rewrite Nat.eqb_refl.
Qed.

Lemma lockDiscipline_rectCalls (s : St) (rects : list QRect) :
  lockDiscipline None (flat_map (rectCalls s) rects) = true.
Proof.
  induction rects as [|r rects IH]; [reflexivity|].
  simpl. rewrite lockDiscipline_app; [exact IH|apply lockDiscipline_layerCalls].
Qed.

(** X12.  The calls of a redraw keep the locking discipline of the
    backing stores: a store is locked just before its image is drawn and
    unlocked just after, one store at most is locked at a time, the
    background and the cursor are painted while none is locked, and none
    is left locked. *)
Theorem redraw_locks_each_store_around_its_draw (s : St) :
  lockDiscipline None (performed s (snd (doRedraw s))) = true.
Proof.
  destruct (doRedraw_closed s) as (_ & -> & _). unfold redrawCalls. cbv zeta.
  destruct (skipsRedraw _); [reflexivity|].
  rewrite app_assoc.
  rewrite lockDiscipline_app.
  - now destruct (redrawsCursor _).
  - destruct (mPainter _); simpl; apply lockDiscipline_rectCalls.
Qed.

Lemma QRect_within_intersected (a b : QRect) :
  QRect_isEmpty (QRect_intersected a b) = false ->
  QRect_within (QRect_intersected a b) b = true.
Proof.
  unfold QRect_within. intros ->. unfold QRect_intersected; simpl. zbool.
Qed.

Lemma paintTargets_app (a b : list Effect) :
  paintTargets (a ++ b) = paintTargets a ++ paintTargets b.
Proof.
  induction a as [|e a IH]; [reflexivity|].
  destruct e; simpl; rewrite ?IH; reflexivity.
Qed.

Lemma paintTargets_layerCalls (s : St) (rect : QRect) (ws : list QFbWindowPtr) :
  Forall (fun r => r = rect) (paintTargets (flat_map (layerCalls s rect) ws)).
Proof.
  induction ws as [|w ws IH]; [constructor|].
  simpl. rewrite paintTargets_app. apply Forall_app. split; [|exact IH].
  unfold layerCalls. destruct (isVisible s w); [|constructor].
  destruct (fbw_backingStore (fbWindows s w)); simpl; repeat constructor.
Qed.

Lemma paintTargets_rectCalls (s : St) (b : QRect) (rects : list QRect) :
  Forall (fun r => QRect_within r b = true) rects ->
  Forall (fun r => QRect_within r b = true) (paintTargets (flat_map (rectCalls s) rects)).
Proof.
  induction rects as [|r rects IH]; intros H; [constructor|].
  inversion H as [|? ? Hr Hrest]; subst.
  cbn [flat_map]. rewrite paintTargets_app. apply Forall_app. split; [|now apply IH].
  unfold rectCalls. cbn [paintTargets]. constructor; [exact Hr|].
  eapply Forall_impl; [|apply paintTargets_layerCalls].
  intros x ->. exact Hr.
Qed.

Lemma processedRects_within (s : St) (R : QRegion) :
  Forall (fun r => QRect_within r (screenRect s) = true) (processedRects s R).
Proof.
  unfold processedRects. apply Forall_forall. intros r Hin.
  apply filter_In in Hin. destruct Hin as [Hin Hne].
  apply in_map_iff in Hin. destruct Hin as (x & <- & _).
  apply QRect_within_intersected. now apply negb_true_iff.
Qed.

Lemma QRect_within_contains (a b : QRect) (p : QPoint) :
  QRect_within a b = true -> QRect_contains a p = true -> QRect_contains b p = true.
Proof.
  unfold QRect_within, QRect_contains. intros H Hp.
  repeat (apply andb_true_iff in H; destruct H as [H ?]).
  repeat (apply andb_true_iff in Hp; destruct Hp as [Hp ?]).
  rewrite ?Z.leb_le in *. repeat (apply andb_true_iff; split); apply Z.leb_le; lia.
Qed.

(** X13.  Every rectangle a redraw hands to [fillRect] or [drawImage]
    has at least one point and lies inside the screen's own rectangle;
    no point outside the screen is painted by them, and when the image
    has the size of the geometry no point outside the image either. *)
Theorem redraw_paints_only_inside_the_screen (s : St) :
  Forall (fun r => QRect_within r (screenRect s) = true)
         (paintTargets (performed s (snd (doRedraw s))))
  /\ (forall r p, In r (paintTargets (performed s (snd (doRedraw s)))) ->
                  QRect_contains r p = true -> QRect_contains (screenRect s) p = true)
  /\ (sizeMatches s ->
      forall r p, In r (paintTargets (performed s (snd (doRedraw s)))) ->
                  QRect_contains r p = true ->
                  QRect_contains (QImage_rect (mScreenImage s)) p = true).
Proof.
  assert (H : Forall (fun r => QRect_within r (screenRect s) = true)
                     (paintTargets (performed s (snd (doRedraw s))))).
  { destruct (doRedraw_closed s) as (_ & -> & _). unfold redrawCalls. cbv zeta.
    destruct (skipsRedraw _); [constructor|].
    rewrite !paintTargets_app. apply Forall_app. split; [|apply Forall_app; split].
    - destruct (mPainter _); constructor.
    - destruct (absorbCursorDamage_frame s) as (_ & _ & _ & Hg & _).
      replace (screenRect s) with (screenRect (absorbCursorDamage s))
        by (unfold screenRect; now rewrite Hg).
      apply paintTargets_rectCalls, processedRects_within.
    - destruct (redrawsCursor _); constructor. }
  split; [exact H|]. split.
  - intros r p Hin Hp. rewrite Forall_forall in H.
    exact (QRect_within_contains r _ p (H r Hin) Hp).
  - intros Hsz r p Hin Hp. rewrite Forall_forall in H.
    pose proof (QRect_within_contains r _ p (H r Hin) Hp) as Hs.
    revert Hs. unfold sizeMatches in Hsz.
    unfold QImage_rect, screenRect, QRect_contains, QRect_translated, QRect_translated_xy,
      QRect_xywh. rewrite Hsz. simpl. unfold QRect_width, QRect_height.
    intros Hs. repeat (apply andb_true_iff in Hs; destruct Hs as [Hs ?]).
    rewrite ?Z.leb_le in *. repeat (apply andb_true_iff; split); apply Z.leb_le; lia.
Qed.

Lemma doRedraw_frame_all (s : St) :
  mWindowStack (snd (doRedraw s)) = mWindowStack s
  /\ mPendingBackingStores (snd (doRedraw s)) = mPendingBackingStores s
  /\ fbWindows (snd (doRedraw s)) = fbWindows s
  /\ windows (snd (doRedraw s)) = windows s
  /\ backingStores (snd (doRedraw s)) = backingStores s
  /\ mGeometry (snd (doRedraw s)) = mGeometry s
  /\ mFormat (snd (doRedraw s)) = mFormat s
  /\ mUpdatePending (snd (doRedraw s)) = mUpdatePending s
  /\ postedEvents (snd (doRedraw s)) = postedEvents s
  /\ effects (snd (doRedraw s)) = effects s ++ performed s (snd (doRedraw s)).
Proof.
  assert (Habs : mWindowStack (absorbCursorDamage s) = mWindowStack s
                 /\ mPendingBackingStores (absorbCursorDamage s) = mPendingBackingStores s
                 /\ fbWindows (absorbCursorDamage s) = fbWindows s
                 /\ windows (absorbCursorDamage s) = windows s
                 /\ backingStores (absorbCursorDamage s) = backingStores s
                 /\ mGeometry (absorbCursorDamage s) = mGeometry s
                 /\ mFormat (absorbCursorDamage s) = mFormat s
                 /\ mUpdatePending (absorbCursorDamage s) = mUpdatePending s
                 /\ postedEvents (absorbCursorDamage s) = postedEvents s
                 /\ effects (absorbCursorDamage s) = effects s).
  { unfold absorbCursorDamage. destruct (mCursor s) as [c|]; [|now repeat split].
    destruct (isDirty c && isOnScreen c); [|now repeat split].
    destruct (dirtyRect c). now repeat split. }
  destruct Habs as (H1 & H2 & H3 & H4 & H5 & H6 & H7 & H8 & H9 & H10).
  unfold performed. rewrite doRedraw_unfold. cbv zeta.
  destruct (skipsRedraw (absorbCursorDamage s)).
  { cbn [snd]. rewrite H10, skipn_all, app_nil_r. now repeat split. }
  rewrite overlayCursor_afterRects.
  assert (Hsk : forall l : list Effect, effects s ++ skipn (length (effects s)) (effects s ++ l)
                                        = effects s ++ l).
  { intros l. now rewrite skipn_app, skipn_all, Nat.sub_diag. }
  destruct (redrawsCursor (absorbCursorDamage s)).
  - destruct (mCursor (absorbCursorDamage s)); cbv zeta; cbn [snd];
      unfold painted; cbn [mWindowStack mPendingBackingStores fbWindows windows backingStores
                           mGeometry mFormat mUpdatePending postedEvents effects
                           set_mRepaintRegion set_mCursor set_effects set_mScreenImage
                           set_mPainter afterRects];
      unfold afterRects, painted; cbn [mWindowStack mPendingBackingStores fbWindows windows backingStores
                           mGeometry mFormat mUpdatePending postedEvents effects
                           set_mRepaintRegion set_mCursor set_effects set_mScreenImage
                           set_mPainter];
      rewrite H10, <- ?app_assoc, Hsk; now repeat split.
  - cbn [snd]. unfold afterRects, painted;
      cbn [mWindowStack mPendingBackingStores fbWindows windows backingStores
                           mGeometry mFormat mUpdatePending postedEvents effects
                           set_mRepaintRegion set_mCursor set_effects set_mScreenImage
                           set_mPainter].
    rewrite H10, Hsk. now repeat split.
Qed.

(** X14.  A redraw changes the cursor, the painter, the output image, the
    damage region and nothing else of the screen: the window stack, the
    pending backing stores, the windows and their stores, the geometry,
    the format, the pending flag and the event queue are as before, and
    the calls made earlier stay recorded. *)
Theorem redraw_leaves_stack_windows_and_queue_alone (s : St) :
  mWindowStack (snd (doRedraw s)) = mWindowStack s
  /\ mPendingBackingStores (snd (doRedraw s)) = mPendingBackingStores s
  /\ fbWindows (snd (doRedraw s)) = fbWindows s
  /\ windows (snd (doRedraw s)) = windows s
  /\ backingStores (snd (doRedraw s)) = backingStores s
  /\ mGeometry (snd (doRedraw s)) = mGeometry s
  /\ mFormat (snd (doRedraw s)) = mFormat s
  /\ mUpdatePending (snd (doRedraw s)) = mUpdatePending s
  /\ postedEvents (snd (doRedraw s)) = postedEvents s
  /\ effects (snd (doRedraw s)) = effects s ++ performed s (snd (doRedraw s)).
Proof. apply doRedraw_frame_all. Qed.


(** ** The painter over a run *)

Lemma countNewPainter_app (a b : list Effect) :
  countNewPainter (a ++ b) = (countNewPainter a + countNewPainter b)%nat.
Proof. unfold countNewPainter. now rewrite filter_app, length_app. Qed.

Lemma countNewPainter_layerCalls (s : St) (rect : QRect) (ws : list QFbWindowPtr) :
  countNewPainter (flat_map (layerCalls s rect) ws) = 0%nat.
Proof.
  induction ws as [|w ws IH]; [reflexivity|].
  simpl. rewrite countNewPainter_app, IH. unfold layerCalls.
  destruct (isVisible s w); [|reflexivity].
  now destruct (fbw_backingStore (fbWindows s w)).
Qed.

Lemma countNewPainter_rectCalls (s : St) (rects : list QRect) :
  countNewPainter (flat_map (rectCalls s) rects) = 0%nat.
Proof.
  induction rects as [|r rects IH]; [reflexivity|].
  cbn [flat_map]. rewrite countNewPainter_app, IH. unfold rectCalls.
  change (countNewPainter (?a :: ?b :: ?l)) with (countNewPainter l).
  now rewrite countNewPainter_layerCalls.
Qed.

Lemma doRedraw_painter (s : St) :
  (skipsRedraw (absorbCursorDamage s) = true -> mPainter (snd (doRedraw s)) = mPainter s)
  /\ (skipsRedraw (absorbCursorDamage s) = false -> mPainter (snd (doRedraw s)) <> None).
Proof.
  rewrite doRedraw_unfold. cbv zeta.
  destruct (absorbCursorDamage_frame s) as (_ & Hp & _).
  destruct (skipsRedraw (absorbCursorDamage s)).
  { cbn [snd]. split; [intros _; exact Hp|discriminate]. }
  split; [discriminate|intros _].
  rewrite overlayCursor_afterRects.
  destruct (redrawsCursor (absorbCursorDamage s)).
  - destruct (mCursor (absorbCursorDamage s)); simpl; discriminate.
  - simpl. discriminate.
Qed.

Lemma doRedraw_painterMadeOnce (s : St) :
  painterMadeOnce s -> painterMadeOnce (snd (doRedraw s)).
Proof.
  unfold painterMadeOnce. intros H.
  destruct (doRedraw_frame_all s) as (_ & _ & _ & _ & _ & _ & _ & _ & _ & He).
  rewrite He, countNewPainter_app, H.
  destruct (doRedraw_closed s) as (_ & Hc & _). rewrite Hc. unfold redrawCalls. cbv zeta.
  destruct (doRedraw_painter s) as [Hp Hne].
  destruct (absorbCursorDamage_frame s) as (_ & Hpa & _).
  destruct (skipsRedraw (absorbCursorDamage s)).
  - rewrite (Hp eq_refl). now destruct (mPainter s).
  - specialize (Hne eq_refl). rewrite !countNewPainter_app, countNewPainter_rectCalls.
    rewrite Hpa.
    destruct (mPainter (snd (doRedraw s))); [|congruence].
    destruct (mPainter s); destruct (redrawsCursor _); reflexivity.
Qed.

(** ** The shape of the stack operations *)

Lemma addWindow_shape (w : QFbWindowPtr) (s s' : St) :
  addWindow w s = Finished s' ->
  exists (X : St) (r : QRect),
    s' = announceTopWindow (setDirty r X)
    /\ mScreenImage X = mScreenImage s
    /\ mGeometry X = mGeometry s
    /\ effects X = effects s.
Proof.
  unfold addWindow. destruct (fbw_backingStore _); [|discriminate].
  intros H. injection H as <-. eexists. eexists. split; [reflexivity|].
  destruct (negb _); [|now repeat split]. now destruct (findPending _ _ _ _) as [[i b]|].
Qed.

Lemma announce_setDirty_effects (r : QRect) (X : St) :
  effects (announceTopWindow (setDirty r X))
  = effects X ++ announcements (topWindow (setDirty r X)).
Proof.
  destruct (setDirty_frame r X) as (_ & _ & _ & _ & He & _).
  unfold announceTopWindow, emit, announcements. cbn [effects set_effects].
  now rewrite He, <- app_assoc.
Qed.

Lemma step_effects_grow (op : Op) (s s' : St) :
  step op s = Finished s' -> exists l, effects s' = effects s ++ l.
Proof.
  intros Hs. destruct op as [w|w|w|w|rect| |g|]; cbn [step] in Hs.
  - destruct (addWindow_shape w s s' Hs) as (X & r & -> & _ & _ & He).
    rewrite announce_setDirty_effects, He. now eexists.
  - injection Hs as <-. unfold removeWindow. rewrite announce_setDirty_effects. now eexists.
  - injection Hs as <-. destruct (raise_cases w s) as [[_ ->]|(_ & _ & ->)].
    + exists []. now rewrite app_nil_r.
    + rewrite announce_setDirty_effects. now eexists.
  - injection Hs as <-. destruct (lower_cases w s) as [[_ ->]|(_ & _ & ->)].
    + exists []. now rewrite app_nil_r.
    + rewrite announce_setDirty_effects. now eexists.
  - injection Hs as <-. destruct (setDirty_frame rect s) as (_ & _ & _ & _ & He & _).
    exists []. now rewrite He, app_nil_r.
  - injection Hs as <-. exists []. rewrite app_nil_r. unfold scheduleUpdate. now destruct (negb _).
  - injection Hs as <-. exists []. rewrite app_nil_r.
    unfold initializeCompositor, scheduleUpdate. now destruct (negb _).
  - injection Hs as <-. unfold dispatch. destruct (postedEvents s) as [|e rest].
    + exists []. now rewrite app_nil_r.
    + unfold event. destruct (QEvent_isUpdateRequest e).
      * destruct (doRedraw (set_postedEvents rest s)) as [t s1] eqn:E. cbn [snd].
        change s1 with (snd (t, s1)). rewrite <- E. cbn [effects set_mUpdatePending].
        destruct (doRedraw_frame_all (set_postedEvents rest s))
          as (_ & _ & _ & _ & _ & _ & _ & _ & _ & He).
        rewrite He. now eexists.
      * exists []. now rewrite app_nil_r.
Qed.

Lemma run_effects_grow (ops : list Op) : forall s s' : St,
  run ops s = Finished s' -> exists l, effects s' = effects s ++ l.
Proof.
  induction ops as [|op ops IH]; intros s s' Hr; cbn [run] in Hr.
  - injection Hr as <-. exists []. now rewrite app_nil_r.
  - destruct (step op s) as [s1|] eqn:E; [|discriminate].
    destruct (step_effects_grow op s s1 E) as [l1 H1].
    destruct (IH s1 s' Hr) as [l2 H2].
    exists (l1 ++ l2). now rewrite H2, H1, app_assoc.
Qed.

(** ** The painter over a run *)

Lemma painterMadeOnce_ext (s s' : St) :
  mPainter s' = mPainter s ->
  countNewPainter (effects s') = countNewPainter (effects s) ->
  painterMadeOnce s -> painterMadeOnce s'.
Proof. unfold painterMadeOnce. intros -> ->. exact (fun H => H). Qed.

Lemma announceTopWindow_painterMadeOnce (s : St) :
  painterMadeOnce s -> painterMadeOnce (announceTopWindow s).
Proof.
  apply painterMadeOnce_ext; [reflexivity|].
  unfold announceTopWindow, emit. cbn [effects set_effects].
  rewrite !countNewPainter_app.
  change (countNewPainter [HandleWindowActivated (topWindow s)]) with 0%nat.
  change (countNewPainter [TopWindowChanged (topWindow s)]) with 0%nat. lia.
Qed.

Lemma setDirty_painterMadeOnce (rect : QRect) (s : St) :
  painterMadeOnce s -> painterMadeOnce (setDirty rect s).
Proof.
  destruct (setDirty_frame rect s) as (_ & _ & _ & _ & He & _ & _ & _ & Hp & _).
  apply painterMadeOnce_ext; [exact Hp|now rewrite He].
Qed.

Lemma scheduleUpdate_painterMadeOnce (s : St) :
  painterMadeOnce s -> painterMadeOnce (scheduleUpdate s).
Proof. unfold scheduleUpdate. destruct (negb _); [|exact (fun H => H)]. now apply painterMadeOnce_ext. Qed.

Lemma dispatch_painterMadeOnce (s : St) :
  painterMadeOnce s -> painterMadeOnce (dispatch s).
Proof.
  intros H. unfold dispatch. destruct (postedEvents s) as [|e rest]; [exact H|].
  assert (H0 : painterMadeOnce (set_postedEvents rest s)) by exact H.
  unfold event. destruct (QEvent_isUpdateRequest e); [|exact H0].
  destruct (doRedraw (set_postedEvents rest s)) as [t s'] eqn:E. cbn [snd].
  change s' with (snd (t, s')). rewrite <- E.
  exact (doRedraw_painterMadeOnce _ H0).
Qed.

Lemma step_painterMadeOnce (op : Op) (s s' : St) :
  painterMadeOnce s -> step op s = Finished s' -> painterMadeOnce s'.
Proof.
  intros H Hs. destruct op as [w|w|w|w|rect| |g|]; cbn [step] in Hs.
  - unfold addWindow in Hs. destruct (fbw_backingStore _); [|discriminate].
    injection Hs as <-. apply announceTopWindow_painterMadeOnce, setDirty_painterMadeOnce.
    revert H. apply painterMadeOnce_ext.
    + destruct (negb _); [|reflexivity]. now destruct (findPending _ _ _ _) as [[i b]|].
    + destruct (negb _); [|reflexivity]. now destruct (findPending _ _ _ _) as [[i b]|].
  - injection Hs as <-. unfold removeWindow.
    apply announceTopWindow_painterMadeOnce, setDirty_painterMadeOnce. exact H.
  - injection Hs as <-. destruct (raise_cases w s) as [[_ ->]|(_ & _ & ->)]; [exact H|].
    apply announceTopWindow_painterMadeOnce, setDirty_painterMadeOnce. exact H.
  - injection Hs as <-. destruct (lower_cases w s) as [[_ ->]|(_ & _ & ->)]; [exact H|].
    apply announceTopWindow_painterMadeOnce, setDirty_painterMadeOnce. exact H.
  - injection Hs as <-. now apply setDirty_painterMadeOnce.
  - injection Hs as <-. now apply scheduleUpdate_painterMadeOnce.
  - injection Hs as <-. unfold initializeCompositor.
    apply scheduleUpdate_painterMadeOnce. exact H.
  - injection Hs as <-. now apply dispatch_painterMadeOnce.
Qed.

Lemma run_painterMadeOnce (ops : list Op) : forall s s' : St,
  painterMadeOnce s -> run ops s = Finished s' -> painterMadeOnce s'.
Proof.
  induction ops as [|op ops IH]; intros s s' H Hr; cbn [run] in Hr.
  - now injection Hr as <-.
  - destruct (step op s) as [s1|] eqn:E; [|discriminate].
    exact (IH s1 s' (step_painterMadeOnce op s s1 H E) Hr).
Qed.

(** X15.  Over any sequence of window operations, damage requests,
    update requests, compositor initialisations and turns of the event
    loop that runs to its end, the screen constructs its painter at most
    once: started without a painter, at most one construction is
    recorded, and the painter exists exactly when it is; a painter that
    exists is kept and no second one is made. *)
Theorem painter_is_constructed_at_most_once (ops : list Op) (s s' : St) :
  painterMadeOnce s ->
  run ops s = Finished s' ->
  painterMadeOnce s'
  /\ (countNewPainter (effects s') <= 1)%nat
  /\ (mPainter s <> None ->
      mPainter s' <> None /\ countNewPainter (performed s s') = 0%nat).
Proof.
  intros H0 Hr.
  pose proof (run_painterMadeOnce ops s s' H0 Hr) as H.
  split; [exact H|]. unfold painterMadeOnce in H, H0. split.
  - rewrite H. destruct (mPainter s'); lia.
  - intros Hp. destruct (run_effects_grow ops s s' Hr) as [l Hl].
    unfold performed. rewrite Hl, skipn_app, skipn_all, Nat.sub_diag. cbn [skipn app].
    rewrite Hl, countNewPainter_app, H0 in H.
    destruct (mPainter s); [|congruence].
    destruct (mPainter s'); [split; [discriminate|lia]|lia].
Qed.

(** ** Damage that misses the screen *)

(** X16.  On an idle screen (no update pending, an empty queue, no damage,
    no dirty cursor) a [setDirty] whose rectangle misses the screen still
    posts a redraw notification; delivering it repaints nothing and puts
    the screen back exactly as it was. *)
Theorem offscreen_damage_costs_one_empty_redraw (rect : QRect) (s : St) :
  mUpdatePending s = false ->
  postedEvents s = [] ->
  mRepaintRegion s = QRegion_new ->
  cursorIsDirty s = false ->
  QRect_isEmpty (damageOf s rect) = true ->
  postedEvents (setDirty rect s) = [UpdateRequest]
  /\ mRepaintRegion (setDirty rect s) = QRegion_new
  /\ dispatch (setDirty rect s) = s.
Proof.
  intros Hu Hq Hr Hc He.
  unfold setDirty. fold (damageOf s rect). unfold QRegion_addRect. rewrite He.
  destruct s as [u c d f p g im R st pb fw qw sb pe ef].
  cbn in Hu, Hq, Hr, Hc. subst u pe R.
  unfold scheduleUpdate. cbn. repeat split.
  unfold dispatch, event. cbn.
  unfold doRedraw, absorbCursorDamage, cursorIsDirty.
  destruct c as [c|]; cbn in Hc |- *.
  - rewrite Hc. cbn. rewrite Hc. cbn. reflexivity.
  - reflexivity.
Qed.

(** ** The size of the screen image *)

Lemma sizeMatches_ext (s s' : St) :
  img_size (mScreenImage s') = img_size (mScreenImage s) ->
  mGeometry s' = mGeometry s ->
  sizeMatches s -> sizeMatches s'.
Proof. unfold sizeMatches. intros -> ->. exact (fun H => H). Qed.

Lemma doRedraw_image_size (s : St) :
  cursorKeepsImageSize ->
  img_size (mScreenImage (snd (doRedraw s))) = img_size (mScreenImage s).
Proof.
  intros Hk. rewrite doRedraw_unfold. cbv zeta.
  destruct (absorbCursorDamage_frame s) as (_ & _ & Hi & _).
  destruct (skipsRedraw (absorbCursorDamage s)); [cbn [snd]; now rewrite Hi|].
  rewrite overlayCursor_afterRects.
  assert (Ha : img_size (mScreenImage (afterRects (absorbCursorDamage s)))
               = img_size (mScreenImage s)).
  { unfold afterRects, painted. cbn [mScreenImage set_effects set_mScreenImage].
    rewrite (proj1 (regionImage_shape _ _ _)). now rewrite Hi. }
  destruct (redrawsCursor (absorbCursorDamage s)); [|exact Ha].
  destruct (mCursor (absorbCursorDamage s)) as [c|]; [|exact Ha].
  cbv zeta. cbn [snd]. unfold painted at 1.
  cbn [mScreenImage set_effects set_mScreenImage set_mCursor set_mRepaintRegion].
  rewrite (Hk c _). cbn [snd]. exact Ha.
Qed.

Lemma announce_setDirty_image (r : QRect) (X : St) :
  mScreenImage (announceTopWindow (setDirty r X)) = mScreenImage X
  /\ mGeometry (announceTopWindow (setDirty r X)) = mGeometry X.
Proof.
  destruct (setDirty_frame r X) as (_ & _ & _ & _ & _ & Hg & _ & Hi & _).
  unfold announceTopWindow, emit. cbn [mScreenImage mGeometry set_effects]. now split.
Qed.

Lemma step_sizeMatches (op : Op) (s s' : St) :
  cursorKeepsImageSize ->
  sizeMatches s -> step op s = Finished s' -> sizeMatches s' /\ mGeometry s' = mGeometry s.
Proof.
  intros Hk H Hs.
  assert (Hgoal : img_size (mScreenImage s') = img_size (mScreenImage s)
                  /\ mGeometry s' = mGeometry s ->
                  sizeMatches s' /\ mGeometry s' = mGeometry s).
  { intros [A B]. split; [|exact B]. exact (sizeMatches_ext s s' A B H). }
  destruct op as [w|w|w|w|rect| |g|]; cbn [step] in Hs.
  - apply Hgoal. destruct (addWindow_shape w s s' Hs) as (X & r & -> & Hi & Hg & _).
    destruct (announce_setDirty_image r X) as [A B]. rewrite A, B, Hi, Hg. now split.
  - apply Hgoal. injection Hs as <-. unfold removeWindow.
    destruct (announce_setDirty_image
                (fbw_geometry (fbWindows (set_mWindowStack (QList.removeOne (mWindowStack s) w) s) w))
                (set_mWindowStack (QList.removeOne (mWindowStack s) w) s)) as [A B].
    rewrite A, B. now split.
  - injection Hs as <-. apply Hgoal.
    destruct (raise_cases w s) as [[_ ->]|(_ & _ & ->)]; [now split|].
    destruct (announce_setDirty_image (fbw_geometry (fbWindows s w))
                (set_mWindowStack (QList.move (mWindowStack s) (QList.indexOf (mWindowStack s) w) 0) s))
      as [A B].
    rewrite A, B. now split.
  - injection Hs as <-. apply Hgoal.
    destruct (lower_cases w s) as [[_ ->]|(_ & _ & ->)]; [now split|].
    destruct (announce_setDirty_image (fbw_geometry (fbWindows s w))
                (set_mWindowStack
                   (QList.move (mWindowStack s) (QList.indexOf (mWindowStack s) w)
                      (QList.size (mWindowStack s) - 1)) s))
      as [A B].
    rewrite A, B. now split.
  - apply Hgoal. injection Hs as <-.
    destruct (setDirty_frame rect s) as (_ & _ & _ & _ & _ & Hg & _ & Hi & _).
    now rewrite Hi, Hg.
  - apply Hgoal. injection Hs as <-. unfold scheduleUpdate. now destruct (negb _).
  - injection Hs as <-. unfold initializeCompositor, scheduleUpdate, sizeMatches.
    now destruct (negb _).
  - injection Hs as <-. apply Hgoal. unfold dispatch.
    destruct (postedEvents s) as [|e rest]; [now split|].
    unfold event. destruct (QEvent_isUpdateRequest e); [|now split].
    destruct (doRedraw (set_postedEvents rest s)) as [t s1] eqn:E. cbn [snd].
    change s1 with (snd (t, s1)). rewrite <- E.
    cbn [mScreenImage mGeometry set_mUpdatePending].
    rewrite (doRedraw_image_size _ Hk).
    destruct (doRedraw_frame_all (set_postedEvents rest s)) as (_ & _ & _ & _ & _ & Hg & _).
    rewrite Hg. now split.
Qed.

Lemma run_sizeMatches (ops : list Op) : forall s s' : St,
  cursorKeepsImageSize ->
  sizeMatches s -> run ops s = Finished s' -> sizeMatches s' /\ mGeometry s' = mGeometry s.
Proof.
  induction ops as [|op ops IH]; intros s s' Hk H Hr; cbn [run] in Hr.
  - injection Hr as <-. now split.
  - destruct (step op s) as [s1|] eqn:E; [|discriminate].
    destruct (step_sizeMatches op s s1 Hk H E) as [H1 G1].
    destruct (IH s1 s' Hk H1 Hr) as [H2 G2]. split; [exact H2|congruence].
Qed.

(** X17.  [initializeCompositor] gives the screen image the size of the
    screen geometry, and, with a cursor whose [drawCursor] keeps the size
    of the image it paints on, every later window operation, damage
    request, update request and redraw keeps the two equal and leaves the
    geometry as it is. *)
Theorem screen_image_keeps_the_geometry_size
        (garbage : QPoint -> QColor) (ops : list Op) (s s' : St) :
  cursorKeepsImageSize ->
  run ops (initializeCompositor garbage s) = Finished s' ->
  sizeMatches (initializeCompositor garbage s)
  /\ sizeMatches s'
  /\ mGeometry s' = mGeometry s.
Proof.
  intros Hk Hr.
  assert (H0 : sizeMatches (initializeCompositor garbage s)).
  { unfold initializeCompositor, scheduleUpdate, sizeMatches. now destruct (negb _). }
  assert (G0 : mGeometry (initializeCompositor garbage s) = mGeometry s).
  { unfold initializeCompositor, scheduleUpdate. now destruct (negb _). }
  destruct (run_sizeMatches ops _ s' Hk H0 Hr) as [H1 G1].
  split; [exact H0|]. split; [exact H1|congruence].
Qed.

(** ** Hit testing and compositing agree *)

Lemma hits_windowRect (s : St) (w : QFbWindowPtr) (p : QPoint) :
  hits s (toGlobal s p) w = isVisible s w && QRect_contains (windowRect s w) p.
Proof.
  unfold hits, isVisible, windowRect, toGlobal, QRect_contains, QRect_translated,
    QRect_translated_xy, QPoint_neg, QRect_topLeft; simpl.
  destruct (win_isVisible _); rewrite ?andb_true_r, ?andb_false_r; [|reflexivity].
  zbool.
Qed.

Lemma topmostPixel_entry (s : St) (bg : QColor) (stack : list QFbWindowPtr) (p : QPoint) :
  (forall w, In w stack -> fbw_backingStore (fbWindows s w) <> None) ->
  topmostPixel s bg stack p
  = match topLevelEntryAt s stack (toGlobal s p) with
    | Some w => windowPixelAt s bg w p
    | None => bg
    end.
Proof.
  induction stack as [|w stack IH]; intros H; [reflexivity|].
  cbn [topmostPixel topLevelEntryAt]. rewrite hits_windowRect.
  destruct (fbw_backingStore (fbWindows s w)) as [b|] eqn:E.
  - destruct (isVisible s w && QRect_contains (windowRect s w) p).
    + unfold windowPixelAt. now rewrite E.
    + apply IH. intros x Hx. apply H. now right.
  - exfalso. apply (H w); [now left|exact E].
Qed.

(** X18.  When every stacked window has a backing store of its own size
    and there is no cursor, a redraw leaves at each damaged point of the
    screen the pixel of the window that [topLevelAt] reports for that
    point (taken at the point's global position), and the background
    where [topLevelAt] finds no window. *)
Theorem redraw_shows_the_window_topLevelAt_finds (s : St) (p : QPoint) :
  allHaveStores s ->
  storesFitWindows s ->
  mCursor s = None ->
  damagedOnScreen s p = true ->
  pixel (mScreenImage (snd (doRedraw s))) p
  = match topLevelEntryAt s (mWindowStack s) (toGlobal s p) with
    | Some w => windowPixelAt s (backgroundColor s) w p
    | None => backgroundColor s
    end
  /\ topLevelAt (toGlobal s p) s
     = option_map (fun w => fbw_window (fbWindows s w))
         (topLevelEntryAt s (mWindowStack s) (toGlobal s p)).
Proof.
  intros Hall Hfit Hc Hd. split.
  - rewrite (doRedraw_pixels s p Hfit Hc). unfold damagedOnScreen in Hd. rewrite Hd.
    apply topmostPixel_entry. exact Hall.
  - apply topLevelAt_in_entry.
Qed.

(** ** Which stores a redraw draws from *)

Lemma absorbCursorDamage_heap (s : St) :
  fbWindows (absorbCursorDamage s) = fbWindows s
  /\ windows (absorbCursorDamage s) = windows s
  /\ backingStores (absorbCursorDamage s) = backingStores s.
Proof.
  unfold absorbCursorDamage. destruct (mCursor s) as [c|]; [|now repeat split].
  destruct (isDirty c && isOnScreen c); [|now repeat split].
  destruct (dirtyRect c). now repeat split.
Qed.

Lemma layerCalls_sources (s : St) (rect : QRect) (P : Effect -> Prop) (ws : list QFbWindowPtr) :
  (forall w bs, In w ws -> isVisible s w = true -> fbw_backingStore (fbWindows s w) = Some bs ->
     P (Lock bs) /\ P (Unlock bs)
     /\ P (DrawImage rect bs
             (QRect_translated_xy rect (- x1 (windowRect s w)) (- y1 (windowRect s w))))) ->
  Forall P (flat_map (layerCalls s rect) ws).
Proof.
  induction ws as [|w ws IH]; intros H; [constructor|].
  cbn [flat_map]. apply Forall_app. split.
  - unfold layerCalls. destruct (isVisible s w) eqn:V; [|constructor].
    destruct (fbw_backingStore (fbWindows s w)) as [b|] eqn:E; [|constructor].
    destruct (H w b (or_introl eq_refl) V E) as (A & B & C).
    repeat constructor; assumption.
  - apply IH. intros x b Hx. apply H. now right.
Qed.

(** X19.  A redraw locks, draws from and unlocks only backing stores of
    windows that are on the stack and visible; each image is drawn with a
    source rectangle that is its target moved by the window's position on
    the screen; hidden windows and windows without a store cause no call. *)
Theorem redraw_draws_only_visible_stacked_windows (s : St) :
  Forall (fun e =>
            match e with
            | Lock bs | Unlock bs =>
                exists w, In w (mWindowStack s) /\ isVisible s w = true
                          /\ fbw_backingStore (fbWindows s w) = Some bs
            | DrawImage target bs source =>
                exists w, In w (mWindowStack s) /\ isVisible s w = true
                          /\ fbw_backingStore (fbWindows s w) = Some bs
                          /\ source = QRect_translated_xy target (- x1 (windowRect s w))
                                        (- y1 (windowRect s w))
            | _ => True
            end)
         (performed s (snd (doRedraw s))).
Proof.
  destruct (doRedraw_closed s) as (_ & -> & _). unfold redrawCalls. cbv zeta.
  destruct (absorbCursorDamage_frame s) as (_ & _ & _ & Hg & Hst & _).
  destruct (absorbCursorDamage_heap s) as (Hf & Hw & _).
  set (s1 := absorbCursorDamage s) in *.
  destruct (skipsRedraw s1); [constructor|].
  apply Forall_app. split; [destruct (mPainter s1); repeat constructor|].
  apply Forall_app. split; [|destruct (redrawsCursor s1); repeat constructor].
  induction (processedRects s1 (mRepaintRegion s1)) as [|r rs IH]; [constructor|].
  cbn [flat_map]. apply Forall_app. split; [|exact IH].
  unfold rectCalls. constructor; [exact I|]. constructor; [exact I|].
  apply layerCalls_sources. intros w b Hin V E.
  assert (Hin' : In w (mWindowStack s)) by (rewrite <- Hst; now apply in_rev).
  assert (V' : isVisible s w = true) by (unfold isVisible in *; now rewrite <- Hf, <- Hw).
  assert (E' : fbw_backingStore (fbWindows s w) = Some b) by now rewrite <- Hf.
  assert (R : windowRect s1 w = windowRect s w) by (unfold windowRect; now rewrite Hf, Hg).
  rewrite R. repeat split; exists w; repeat split; assumption.
Qed.

(** ** A cursor that moved over an undamaged screen *)

(** X20.  With no damage and a dirty cursor that is not on the screen, a
    redraw repaints no rectangle: it makes the painter if there is none,
    selects source-over blending and lets the cursor draw itself on the
    image as it stands; what the cursor reports is the region returned. *)
Theorem dirty_cursor_is_drawn_without_repainting (s : St) (c : Cursor) :
  mCursor s = Some c ->
  isDirty c = true ->
  isOnScreen c = false ->
  mRepaintRegion s = QRegion_new ->
  fst (doRedraw s)
  = fst (fst (drawCursor c (mkPainter CompositionMode_SourceOver, mScreenImage s)))
  /\ performed s (snd (doRedraw s))
     = (match mPainter s with Some _ => [] | None => [NewPainter] end)
       ++ [SetCompositionMode CompositionMode_SourceOver;
           DrawCursor (fst (fst (drawCursor c (mkPainter CompositionMode_SourceOver,
                                               mScreenImage s))))]
  /\ mScreenImage (snd (doRedraw s))
     = snd (snd (drawCursor c (mkPainter CompositionMode_SourceOver, mScreenImage s)))
  /\ mCursor (snd (doRedraw s))
     = Some (snd (fst (drawCursor c (mkPainter CompositionMode_SourceOver, mScreenImage s))))
  /\ filledRects (performed s (snd (doRedraw s))) = [].
Proof.
  intros Hc Hd Ho Hr.
  assert (Habs : absorbCursorDamage s = s).
  { unfold absorbCursorDamage. rewrite Hc, Hd, Ho. reflexivity. }
  assert (Hcalls : performed s (snd (doRedraw s))
     = (match mPainter s with Some _ => [] | None => [NewPainter] end)
       ++ [SetCompositionMode CompositionMode_SourceOver;
           DrawCursor (fst (fst (drawCursor c (mkPainter CompositionMode_SourceOver,
                                               mScreenImage s))))]).
  { destruct (doRedraw_closed s) as (_ & -> & _). unfold redrawCalls. cbv zeta.
    rewrite Habs. unfold skipsRedraw, redrawsCursor, cursorIsDirty, cursorTouched.
    rewrite Hc, Hd, Hr. reflexivity. }
  split; [|split; [exact Hcalls|]].
  - destruct (doRedraw_closed s) as (-> & _). unfold redrawTouched. cbv zeta.
    rewrite Habs. unfold skipsRedraw, redrawsCursor, cursorIsDirty, cursorTouched.
    rewrite Hc, Hd, Hr. cbn. unfold QRegion_united. now rewrite app_nil_r.
  - rewrite Hcalls. rewrite doRedraw_unfold. cbv zeta. rewrite Habs.
    unfold skipsRedraw, cursorIsDirty. rewrite Hc, Hd, Hr. cbn [QRegion_isEmpty negb andb].
    rewrite overlayCursor_afterRects. unfold redrawsCursor. rewrite Hc, Hd.
    cbn [orb]. cbv zeta. cbn [snd].
    assert (Hi : mScreenImage (afterRects s) = mScreenImage s).
    { unfold afterRects. rewrite Hr. reflexivity. }
    rewrite Hi. repeat split.
    now destruct (mPainter s).
Qed.

(** ** A raised window on the next redraw *)

Lemma topmostPixel_heap (s s' : St) (bg : QColor) (stack : list QFbWindowPtr) (p : QPoint) :
  fbWindows s' = fbWindows s -> windows s' = windows s ->
  backingStores s' = backingStores s -> mGeometry s' = mGeometry s ->
  topmostPixel s' bg stack p = topmostPixel s bg stack p.
Proof.
  intros F W B G. induction stack as [|w stack IH]; [reflexivity|].
  cbn [topmostPixel]. unfold isVisible, windowRect. now rewrite F, W, B, G, IH.
Qed.

Lemma raise_moved (w : QFbWindowPtr) (s : St) :
  0 < QList.indexOf (mWindowStack s) w ->
  fbWindows (raise w s) = fbWindows s
  /\ windows (raise w s) = windows s
  /\ backingStores (raise w s) = backingStores s
  /\ mGeometry (raise w s) = mGeometry s
  /\ mCursor (raise w s) = mCursor s
  /\ mScreenImage (raise w s) = mScreenImage s
  /\ mRepaintRegion (raise w s)
     = QRegion_addRect (mRepaintRegion s) (damageOf s (fbw_geometry (fbWindows s w))).
Proof.
  intros Hi. destruct (raise_cases w s) as [[Hle _]|(_ & _ & ->)]; [lia|].
  set (X := set_mWindowStack _ s).
  destruct (setDirty_frame (fbw_geometry (fbWindows s w)) X)
    as (_ & Hf & Hw & Hb & _ & Hg & Hc & Him & _).
  pose proof (setDirty_region (fbw_geometry (fbWindows s w)) X) as Hr.
  unfold announceTopWindow, emit.
  cbn [fbWindows windows backingStores mGeometry mCursor mScreenImage mRepaintRegion set_effects].
  rewrite Hf, Hw, Hb, Hg, Hc, Him, Hr. now repeat split.
Qed.

(** X21.  After [raise] has moved a visible window with a fitting backing
    store to the top of the stack, the next redraw shows that window's
    backing store at every point of the window that lies on the screen and
    in the output image, whatever was damaged before and whatever the
    other windows are. *)
Theorem raised_window_is_shown_by_the_next_redraw
        (w : QFbWindowPtr) (bs : QFbBackingStorePtr) (p : QPoint) (s : St) :
  mCursor s = None ->
  storesFitWindows s ->
  0 < QList.indexOf (mWindowStack s) w ->
  isVisible s w = true ->
  fbw_backingStore (fbWindows s w) = Some bs ->
  QRect_contains (windowRect s w) p = true ->
  QRect_contains (screenRect s) p = true ->
  QRect_contains (QImage_rect (mScreenImage s)) p = true ->
  pixel (mScreenImage (snd (doRedraw (raise w s)))) p
  = pixel (bs_image (backingStores s bs))
          (mkPoint (px p - x1 (windowRect s w)) (py p - y1 (windowRect s w))).
Proof.
  intros Hc Hfit Hi Hv Hb Hwp Hsp Hip.
  destruct (raise_moved w s Hi) as (F & W & B & G & C & Im & R).
  assert (Hfit' : storesFitWindows (raise w s)).
  { intros x b Hin. rewrite F, B. apply Hfit.
    rewrite raise_stack_eq in Hin. destruct (_ <=? 0); [exact Hin|].
    exact (Permutation_in _ (move_permutation _ _ _) Hin). }
  rewrite (doRedraw_pixels (raise w s) p Hfit' (eq_trans C Hc)).
  assert (Hscr : screenRect (raise w s) = screenRect s) by (unfold screenRect; now rewrite G).
  rewrite Hscr, Im, Hsp, Hip, R, QRegion_contains_addRect, damageOf_contains.
  assert (Hd : QRect_contains (fbw_geometry (fbWindows s w))
                 (mkPoint (px p + x1 (mGeometry s)) (py p + y1 (mGeometry s)))
               && QRect_contains (mGeometry s)
                    (mkPoint (px p + x1 (mGeometry s)) (py p + y1 (mGeometry s))) = true).
  { revert Hwp Hsp.
    unfold windowRect, screenRect, QRect_contains, QRect_translated, QRect_translated_xy,
      QPoint_neg, QRect_topLeft; simpl.
    rewrite !andb_true_iff, !Z.leb_le. lia. }
  rewrite Hd, orb_true_r. cbn [andb].
  rewrite (topmostPixel_heap s (raise w s) _ _ p F W B G).
  rewrite (raise_stack w s Hi). cbn [topmostPixel].
  now rewrite Hb, Hv, Hwp.
Qed.

(** ** The screen before it has a geometry *)

(** X22.  A newly constructed screen has no window and a null geometry.
    A redraw does nothing on it; [setDirty] with any rectangle records no
    damage, yet posts a redraw notification whose delivery paints nothing
    and puts the screen back as constructed. *)
Theorem new_screen_has_no_area_to_damage
        (ws : QFbWindowPtr -> QFbWindow) (qs : QWindowPtr -> QWindow)
        (bs : QFbBackingStorePtr -> QFbBackingStore) (img : QImage)
        (rect : QRect) (p : QPoint) (wid : WId) :
  windowCount (QFbScreen_new (Cursor := Cursor) ws qs bs img) = 0
  /\ topWindow (QFbScreen_new (Cursor := Cursor) ws qs bs img) = None
  /\ topLevelAt p (QFbScreen_new (Cursor := Cursor) ws qs bs img) = None
  /\ windowForId wid (QFbScreen_new (Cursor := Cursor) ws qs bs img) = None
  /\ doRedraw (QFbScreen_new ws qs bs img) = (QRegion_new, QFbScreen_new ws qs bs img)
  /\ mRepaintRegion (setDirty rect (QFbScreen_new (Cursor := Cursor) ws qs bs img)) = QRegion_new
  /\ postedEvents (setDirty rect (QFbScreen_new (Cursor := Cursor) ws qs bs img))
     = [UpdateRequest]
  /\ dispatch (setDirty rect (QFbScreen_new ws qs bs img)) = QFbScreen_new ws qs bs img.
Proof.
  assert (He : QRect_isEmpty
                 (damageOf (QFbScreen_new (Cursor := Cursor) ws qs bs img) rect) = true).
  { unfold damageOf, QFbScreen_new, QRect_isEmpty, QRect_translated, QRect_translated_xy,
      QRect_intersected, QRect_null; simpl. zbool. }
  repeat split.
  - unfold setDirty. fold (damageOf (QFbScreen_new (Cursor := Cursor) ws qs bs img) rect).
    unfold QRegion_addRect. rewrite He. reflexivity.
  - unfold setDirty. fold (damageOf (QFbScreen_new (Cursor := Cursor) ws qs bs img) rect).
    unfold QRegion_addRect. rewrite He. reflexivity.
Qed.

(** ** What [initializeCompositor] leaves to later damage *)

(** X23.  [initializeCompositor] on an idle screen with no damage and no
    dirty cursor allocates the image and posts a redraw notification, but
    damages nothing: delivering the notification makes no call and leaves
    the image as allocated, its pixels uninitialised. *)
Theorem initializeCompositor_paints_nothing_by_itself
        (garbage : QPoint -> QColor) (s : St) :
  mUpdatePending s = false ->
  postedEvents s = [] ->
  mRepaintRegion s = QRegion_new ->
  cursorIsDirty s = false ->
  postedEvents (initializeCompositor garbage s) = [UpdateRequest]
  /\ dispatch (initializeCompositor garbage s)
     = set_mScreenImage (mkImage (QRect_size (mGeometry s)) (mFormat s) garbage) s
  /\ performed s (dispatch (initializeCompositor garbage s)) = []
  /\ (forall q, pixel (mScreenImage (dispatch (initializeCompositor garbage s))) q = garbage q).
Proof.
  intros Hu Hq Hr Hc.
  assert (Hd : dispatch (initializeCompositor garbage s)
               = set_mScreenImage (mkImage (QRect_size (mGeometry s)) (mFormat s) garbage) s).
  { destruct s as [u c d f p g im R st pb fw qw sb pe ef].
    cbn in Hu, Hq, Hr, Hc. subst u pe R.
    unfold initializeCompositor, scheduleUpdate, dispatch, event. cbn.
    unfold doRedraw, absorbCursorDamage, cursorIsDirty.
    destruct c as [c|]; cbn in Hc |- *.
    - rewrite Hc. cbn. rewrite Hc. cbn. reflexivity.
    - reflexivity. }
  split; [|split; [exact Hd|split]].
  - unfold initializeCompositor, scheduleUpdate. cbn [mUpdatePending set_mScreenImage].
    rewrite Hu. cbn. now rewrite Hq.
  - rewrite Hd. unfold performed. cbn [effects set_mScreenImage]. apply skipn_all.
  - intros q. now rewrite Hd.
Qed.

End MoreScreenProperties.

(* ===================================================================== *)
(** * The theorems at work on concrete screens *)
(* ===================================================================== *)

Import Fixture.

(** C1 (amended) on the scenario screen: the pixel (55,55) lies in the
    window and shows its colour; the calls made for the rectangle (0,0)
    20x20 of a screen with one window; a window away from the rectangle
    leaves it alone; [raise] puts its window first. *)
Lemma redraw_fills_then_composites_witness :
  let s := ensurePainter (cursorScreen None) in
  pixel (mScreenImage
           (snd (doRedraw (setDirty (QRect_xywh 0 0 100 100)
                             (sceneXYWH (Cursor := SpriteCursor) Format_RGB32 red
                                (fun _ => grey)))))) (mkPoint 55 55) = red
  /\ performed s (paintRect (mkPoint 0 0) (QRect_xywh 0 0 100 100) s (QRect_xywh 0 0 20 20))
     = [SetCompositionMode CompositionMode_Source;
        FillRect (QRect_xywh 0 0 20 20) Qt_black;
        Lock 1%nat;
        DrawImage (QRect_xywh 0 0 20 20) 1%nat (QRect_xywh (-10) (-10) 20 20);
        Unlock 1%nat]
  /\ pixel (mScreenImage (snd (doRedraw (setDirty (QRect_xywh 0 0 20 20) (cursorScreen None)))))
       (mkPoint 15 15) = grey
  /\ pixel (layerImage s (mkPainter CompositionMode_Source) (QRect_xywh 0 0 5 5)
              (mScreenImage s) 1%nat) (mkPoint 3 3) = Qt_black
  /\ mWindowStack (raise 1%nat (stackScreen [2%nat; 1%nat] []))
     = 1%nat :: QList.removeOne [2%nat; 1%nat] 1%nat.
Proof.
  intros s.
  pose proof (redraw_fills_then_composites_back_to_front
                (setDirty (QRect_xywh 0 0 20 20) (cursorScreen None)) s QPainter_new
                (QRect_xywh 0 0 20 20) (mkPoint 15 15) 1%nat
                Format_RGB32 red (fun _ => grey)) as H1.
  pose proof (redraw_fills_then_composites_back_to_front
                s s QPainter_new (QRect_xywh 0 0 20 20) (mkPoint 55 55) 1%nat
                Format_RGB32 red (fun _ => grey)) as H2.
  pose proof (redraw_fills_then_composites_back_to_front
                s s QPainter_new (QRect_xywh 0 0 5 5) (mkPoint 3 3) 1%nat
                Format_RGB32 red (fun _ => grey)) as H3.
  pose proof (redraw_fills_then_composites_back_to_front
                (stackScreen [2%nat; 1%nat] []) s QPainter_new (QRect_xywh 0 0 5 5)
                (mkPoint 3 3) 1%nat Format_RGB32 red (fun _ => grey)) as H4.
  cbv zeta in H1, H2, H3, H4.
  destruct H1 as (_ & _ & _ & _ & _ & _ & _ & Hpix & _).
  destruct H2 as (_ & _ & Hcalls & _ & _ & _ & _ & _ & Hscene & _).
  destruct H3 as (_ & _ & _ & _ & _ & _ & Hout & _).
  destruct H4 as (_ & Hraise & _).
  split; [|split; [|split; [|split]]].
  - apply Hscene. reflexivity.
  - apply Hcalls; reflexivity.
  - apply Hpix; [intros w bs _ _; reflexivity|reflexivity].
  - apply (Hout 1%nat (mScreenImage s)); [intros bs _; reflexivity|reflexivity].
  - apply Hraise. reflexivity.
Defined.

(** C1's scenario with its rectangles read as (x, y, width, height), the
    way [QRect] is constructed: the pixel (55,55) is outside
    [10,50] x [10,50] and yet shows the window's colour, not the
    background: the 50x50 window at (10,10) reaches column and row 59. *)
Lemma scenario_window_reaches_59 :
  QRect_contains (QRect_xywh 0 0 100 100) (mkPoint 55 55) = true
  /\ QRect_contains (QRect_corners 10 10 50 50) (mkPoint 55 55) = false
  /\ pixel (mScreenImage
              (snd (doRedraw (setDirty (QRect_xywh 0 0 100 100)
                                (sceneXYWH (Cursor := SpriteCursor) Format_RGB32 red
                                   (fun _ => grey)))))) (mkPoint 55 55) = red
  /\ red <> Qt_black
  /\ ~ (forall q,
          QRect_contains (QRect_xywh 0 0 100 100) q = true ->
          pixel (mScreenImage
                   (snd (doRedraw (setDirty (QRect_xywh 0 0 100 100)
                                     (sceneXYWH (Cursor := SpriteCursor) Format_RGB32 red
                                        (fun _ => grey)))))) q
          = if QRect_contains (QRect_corners 10 10 50 50) q then red else Qt_black).
Proof.
  split; [reflexivity|]. split; [reflexivity|]. split; [reflexivity|].
  split; [discriminate|].
  intros H. specialize (H (mkPoint 55 55) eq_refl). discriminate H.
Qed.

(** C1 as stated fails when a backing store is larger than its window:
    on the 100x100 screen the visible 50x50 window at (10,10) keeps a
    100x100 store of solid red.  Its geometry, [10,59] x [10,59], does
    not meet the damaged rectangle (70,70) 10x10, and yet the redraw
    leaves the store's red at (75,75), not the background: the window is
    drawn without any test against the rectangle. *)
Lemma oversized_store_paints_outside_its_window :
  isVisible (oversizedStoreScene (Cursor := SpriteCursor) Format_RGB32 red (fun _ => grey))
    1%nat = true
  /\ QRect_intersects
       (windowRect (oversizedStoreScene (Cursor := SpriteCursor) Format_RGB32 red
                      (fun _ => grey)) 1%nat)
       (QRect_xywh 70 70 10 10) = false
  /\ pixel (mScreenImage
              (snd (doRedraw (setDirty (QRect_xywh 70 70 10 10)
                                (oversizedStoreScene (Cursor := SpriteCursor) Format_RGB32 red
                                   (fun _ => grey)))))) (mkPoint 75 75) = red
  /\ backgroundColor
       (oversizedStoreScene (Cursor := SpriteCursor) Format_RGB32 red (fun _ => grey))
     = Qt_black
  /\ red <> Qt_black
  /\ ~ (forall (s : @State SpriteCursor) (rect : QRect) (w : QFbWindowPtr) (img : QImage)
               (q : QPoint),
          QRect_intersects (windowRect s w) (QRect_intersected rect (screenRect s)) = false ->
          pixel (layerImage s (mkPainter CompositionMode_Source)
                   (QRect_intersected rect (screenRect s)) img w) q
          = pixel img q).
Proof.
  split; [reflexivity|]. split; [reflexivity|]. split; [reflexivity|].
  split; [reflexivity|]. split; [discriminate|].
  intros H.
  specialize (H (oversizedStoreScene Format_RGB32 red (fun _ => grey))
                (QRect_xywh 70 70 10 10) 1%nat
                (QImage_solid (mkSize 100 100) Format_RGB32 Qt_black) (mkPoint 75 75) eq_refl).
  discriminate H.
Qed.

(** C2 on a 100x100 screen: a rectangle at (200,200) lies outside and
    leaves the damage region alone. *)
Lemma setDirty_accumulates_damage_witness :
  mRepaintRegion (setDirty (QRect_xywh 200 200 10 10) (cursorScreen None))
  = mRepaintRegion (cursorScreen None).
Proof.
  apply (proj2 (proj2 (proj2 (proj2
           (setDirty_accumulates_damage (QRect_xywh 200 200 10 10) (cursorScreen None)))))).
  intros [x y]. unfold QRect_contains. simpl.
  destruct (Z.leb_spec 200 x); [|simpl; discriminate].
  destruct (Z.leb_spec x 99); [lia|].
  intros _. now rewrite andb_false_r.
Defined.

(** C3 as stated fails on a screen whose top-left corner is (100,0): the
    global point (105,5) lies in the dirty rectangle and in the screen,
    and the returned region, which is in the screen's own coordinates,
    does not contain it. *)
Lemma touched_region_is_not_in_global_coordinates :
  QRect_contains
    (QRect_intersected (QRect_xywh 100 0 10 10) (mGeometry offsetScreen)) (mkPoint 105 5) = true
  /\ QRegion_contains
       (fst (doRedraw (setDirty (QRect_xywh 100 0 10 10) offsetScreen))) (mkPoint 105 5) = false
  /\ ~ (forall (s : @State SpriteCursor) (rect : QRect) (q : QPoint),
          QRect_contains (QRect_intersected rect (mGeometry s)) q = true ->
          QRegion_contains (fst (doRedraw (setDirty rect s))) q = true).
Proof.
  split; [reflexivity|]. split; [reflexivity|].
  intros H. specialize (H offsetScreen (QRect_xywh 100 0 10 10) (mkPoint 105 5) eq_refl).
  discriminate H.
Qed.

(** C3 (amended) on the same screen: the local point (5,5), which stands
    for the global point (105,5), is in the returned region. *)
Lemma doRedraw_touched_covers_damage_witness :
  QRegion_contains
    (fst (doRedraw (setDirty (QRect_xywh 100 0 10 10) offsetScreen))) (mkPoint 5 5) = true
  /\ mRepaintRegion (snd (doRedraw (setDirty (QRect_xywh 100 0 10 10) offsetScreen)))
     = QRegion_new.
Proof.
  destruct (doRedraw_touched_covers_damage offsetScreen) as (_ & _ & H & _).
  split.
  - apply (H (QRect_xywh 100 0 10 10) (mkPoint 5 5)); reflexivity.
  - apply (doRedraw_touched_covers_damage (setDirty (QRect_xywh 100 0 10 10) offsetScreen)).
Defined.

(** C4 with a clean cursor and no damage. *)
Lemma doRedraw_nothing_to_do_witness :
  doRedraw (cursorScreen (Some movedCursor)) = (QRegion_new, cursorScreen (Some movedCursor)).
Proof.
  apply (doRedraw_nothing_to_do (cursorScreen (Some movedCursor))); reflexivity.
Defined.

(** C5 with a dirty cursor leaving (20,20) 4x4: that rectangle is
    filled again and is part of the returned region. *)
Lemma cursor_damage_absorbed_witness :
  In (QRect_xywh 20 20 4 4)
     (filledRects (performed (cursorScreen (Some dirtyCursor))
                     (snd (doRedraw (cursorScreen (Some dirtyCursor))))))
  /\ QRegion_contains (fst (doRedraw (cursorScreen (Some dirtyCursor)))) (mkPoint 21 21) = true.
Proof.
  pose proof (cursor_damage_absorbed_before_painting
                (cursorScreen (Some dirtyCursor)) dirtyCursor eq_refl eq_refl eq_refl) as H.
  cbv zeta in H. destruct H as (_ & _ & Hfill & Hcov).
  split.
  - apply Hfill. reflexivity.
  - apply Hcov. reflexivity.
Defined.

(** C6 with a clean cursor last painted at (20,20) 4x4: damage at
    (22,22) 10x10 meets that rectangle and the cursor is composited. *)
Lemma cursor_composited_witness :
  cursorComposited
    (performed (setDirty (QRect_xywh 22 22 10 10) (cursorScreen (Some movedCursor)))
       (snd (doRedraw (setDirty (QRect_xywh 22 22 10 10) (cursorScreen (Some movedCursor))))))
  = true
  /\ exists calls,
      performed (setDirty (QRect_xywh 22 22 10 10) (cursorScreen (Some movedCursor)))
        (snd (doRedraw (setDirty (QRect_xywh 22 22 10 10) (cursorScreen (Some movedCursor)))))
      = calls ++ [SetCompositionMode CompositionMode_SourceOver;
                  DrawCursor [QRect_xywh 60 60 4 4]]
      /\ cursorComposited calls = false.
Proof.
  pose proof (cursor_composited_iff_dirty_or_damaged (cursorScreen (Some movedCursor))) as H.
  pose proof (cursor_composited_iff_dirty_or_damaged
                (setDirty (QRect_xywh 22 22 10 10) (cursorScreen (Some movedCursor)))) as H'.
  cbv zeta in H, H'. destruct H as (_ & _ & Hpart). destruct H' as (Hiff & Hlast & _).
  assert (Hc : cursorComposited
                 (performed (setDirty (QRect_xywh 22 22 10 10) (cursorScreen (Some movedCursor)))
                    (snd (doRedraw (setDirty (QRect_xywh 22 22 10 10)
                                      (cursorScreen (Some movedCursor)))))) = true).
  { apply (Hpart movedCursor (QRect_xywh 22 22 10 10)); reflexivity. }
  split; [exact Hc|].
  destruct (Hlast Hc) as (calls & H1 & H2 & _).
  exists calls. split; [exact H1|exact H2].
Defined.

(** C6 as stated fails at the edge of the screen: a clean cursor was last
    painted at (98,98) 4x4 on the 100x100 screen.  The rectangle
    (100,100) 4x4 overlaps that rectangle, but lies outside the screen,
    so [setDirty] records nothing, and the redraw returns early without
    compositing the cursor. *)
Lemma setDirty_overlap_off_screen_leaves_cursor_unpainted :
  isDirty edgeCursor = false
  /\ QRect_intersects (QRect_xywh 100 100 4 4) (lastPainted edgeCursor) = true
  /\ mRepaintRegion (setDirty (QRect_xywh 100 100 4 4) (cursorScreen (Some edgeCursor)))
     = QRegion_new
  /\ fst (doRedraw (setDirty (QRect_xywh 100 100 4 4) (cursorScreen (Some edgeCursor))))
     = QRegion_new
  /\ cursorComposited
       (performed (setDirty (QRect_xywh 100 100 4 4) (cursorScreen (Some edgeCursor)))
          (snd (doRedraw (setDirty (QRect_xywh 100 100 4 4)
                            (cursorScreen (Some edgeCursor)))))) = false
  /\ ~ (forall (s : @State SpriteCursor) (c : SpriteCursor) (rect : QRect),
          mCursor s = Some c -> isDirty c = false ->
          QRect_intersects rect (lastPainted c) = true ->
          cursorComposited
            (performed (setDirty rect s) (snd (doRedraw (setDirty rect s)))) = true).
Proof.
  split; [reflexivity|]. split; [reflexivity|]. split; [reflexivity|].
  split; [reflexivity|]. split; [reflexivity|].
  intros H.
  specialize (H (cursorScreen (Some edgeCursor)) edgeCursor (QRect_xywh 100 100 4 4)
                eq_refl eq_refl eq_refl).
  discriminate H.
Qed.

(** C7 as stated fails when a window is stacked twice: after
    [addWindow] of 1, 2 and 1 again the stack is 1, 2, 1; window 1 is its
    last entry, and [lower] of window 1 moves its first occurrence and
    leaves 2, 1, 1. *)
Lemma lower_moves_a_window_stacked_twice :
  mWindowStack
    (Outcome_value (stackScreen [] [])
       (run [OpAddWindow 1%nat; OpAddWindow 2%nat; OpAddWindow 1%nat] (stackScreen [] [])))
  = [1%nat; 2%nat; 1%nat]
  /\ last [1%nat; 2%nat; 1%nat] 0%nat = 1%nat
  /\ mWindowStack (lower 1%nat (stackScreen [1%nat; 2%nat; 1%nat] [])) = [2%nat; 1%nat; 1%nat]
  /\ lower 1%nat (stackScreen [1%nat; 2%nat; 1%nat] []) <> stackScreen [1%nat; 2%nat; 1%nat] [].
Proof.
  split; [vm_compute; reflexivity|]. split; [reflexivity|]. split; [vm_compute; reflexivity|].
  intros H. apply (f_equal mWindowStack) in H. vm_compute in H. discriminate H.
Qed.

(** C7 on a sequence with two adds, one remove that finds nothing and one
    that finds its window; and [raise], [lower] of windows already in
    place. *)
Lemma stack_size_and_noop_witness :
  windowCount
    (Outcome_value (stackScreen [] [])
       (run [OpAddWindow 1%nat; OpAddWindow 2%nat; OpRemoveWindow 3%nat; OpRaise 1%nat;
             OpLower 1%nat; OpRemoveWindow 2%nat] (stackScreen [] [])))
  = 0 + 2 - 1
  /\ raise 2%nat (stackScreen [2%nat; 1%nat] []) = stackScreen [2%nat; 1%nat] []
  /\ lower 1%nat (stackScreen [2%nat; 1%nat] []) = stackScreen [2%nat; 1%nat] []
  /\ raise 3%nat (stackScreen [2%nat; 1%nat] []) = stackScreen [2%nat; 1%nat] [].
Proof.
  split; [|split; [|split]].
  - destruct (stack_size_and_noop_raise_lower
                [OpAddWindow 1%nat; OpAddWindow 2%nat; OpRemoveWindow 3%nat; OpRaise 1%nat;
                 OpLower 1%nat; OpRemoveWindow 2%nat]
                (stackScreen [] [])
                (Outcome_value (stackScreen [] [])
                   (run [OpAddWindow 1%nat; OpAddWindow 2%nat; OpRemoveWindow 3%nat;
                         OpRaise 1%nat; OpLower 1%nat; OpRemoveWindow 2%nat]
                      (stackScreen [] [])))
                1%nat [] stackWindows stackQWindows stackStores
                (QImage_solid (mkSize 0 0) Format_RGB16 Qt_black)) as (H & _).
    assert (Hrun : run [OpAddWindow 1%nat; OpAddWindow 2%nat; OpRemoveWindow 3%nat;
                        OpRaise 1%nat; OpLower 1%nat; OpRemoveWindow 2%nat]
                     (stackScreen [] [])
                   = Finished
                       (Outcome_value (stackScreen [] [])
                          (run [OpAddWindow 1%nat; OpAddWindow 2%nat; OpRemoveWindow 3%nat;
                                OpRaise 1%nat; OpLower 1%nat; OpRemoveWindow 2%nat]
                             (stackScreen [] []))))
      by (vm_compute; reflexivity).
    specialize (H Hrun). vm_compute in H. vm_compute. exact H.
  - destruct (stack_size_and_noop_raise_lower [] (stackScreen [2%nat; 1%nat] [])
                (stackScreen [2%nat; 1%nat] []) 2%nat [] stackWindows stackQWindows stackStores
                (QImage_solid (mkSize 0 0) Format_RGB16 Qt_black)) as (_ & _ & H & _).
    exact (H eq_refl).
  - destruct (stack_size_and_noop_raise_lower [] (stackScreen [2%nat; 1%nat] [])
                (stackScreen [2%nat; 1%nat] []) 1%nat [2%nat] stackWindows stackQWindows
                stackStores (QImage_solid (mkSize 0 0) Format_RGB16 Qt_black))
      as (_ & _ & _ & _ & _ & H & _).
    apply (H eq_refl). intros [H'|[]]. discriminate H'.
  - destruct (stack_size_and_noop_raise_lower [] (stackScreen [2%nat; 1%nat] [])
                (stackScreen [2%nat; 1%nat] []) 3%nat [] stackWindows stackQWindows stackStores
                (QImage_solid (mkSize 0 0) Format_RGB16 Qt_black)) as (_ & _ & _ & H & _).
    exact (H eq_refl).
Defined.

(** C8 after a redraw that repainted damage and a dirty cursor. *)
Lemma second_redraw_touches_nothing_witness :
  fst (doRedraw (snd (doRedraw (setDirty (QRect_xywh 0 0 20 20)
                                  (cursorScreen (Some dirtyCursor)))))) = QRegion_new.
Proof.
  apply (second_redraw_touches_nothing
           (setDirty (QRect_xywh 0 0 20 20) (cursorScreen (Some dirtyCursor)))).
  reflexivity.
Defined.

(** C9 on a burst of damage, one turn of the event loop and new damage. *)
Lemma update_pending_witness :
  (queuedRedraws
     (Outcome_value (cursorScreen None)
        (run [OpSetDirty (QRect_xywh 0 0 5 5); OpSetDirty (QRect_xywh 50 50 5 5);
              OpScheduleUpdate; OpDispatch; OpSetDirty (QRect_xywh 1 1 2 2)]
           (cursorScreen None))) <= 1)%nat
  /\ postedEvents
       (fold_left (fun st r => scheduleUpdate (setDirty r st))
          [QRect_xywh 0 0 5 5; QRect_xywh 50 50 5 5]
          (setDirty (QRect_xywh 1 1 2 2) (cursorScreen None)))
     = [UpdateRequest]
  /\ mUpdatePending (dispatch (setDirty (QRect_xywh 1 1 2 2) (cursorScreen None))) = false.
Proof.
  split; [|split].
  - destruct (update_pending_allows_one_queued_redraw
                [OpSetDirty (QRect_xywh 0 0 5 5); OpSetDirty (QRect_xywh 50 50 5 5);
                 OpScheduleUpdate; OpDispatch; OpSetDirty (QRect_xywh 1 1 2 2)]
                (cursorScreen None)
                (Outcome_value (cursorScreen None)
                   (run [OpSetDirty (QRect_xywh 0 0 5 5); OpSetDirty (QRect_xywh 50 50 5 5);
                         OpScheduleUpdate; OpDispatch; OpSetDirty (QRect_xywh 1 1 2 2)]
                      (cursorScreen None)))
                [] QRect_null stackWindows stackQWindows stackStores
                (QImage_solid (mkSize 0 0) Format_RGB16 Qt_black)) as (H & _).
    assert (Hrun : run [OpSetDirty (QRect_xywh 0 0 5 5); OpSetDirty (QRect_xywh 50 50 5 5);
                        OpScheduleUpdate; OpDispatch; OpSetDirty (QRect_xywh 1 1 2 2)]
                     (cursorScreen None)
                   = Finished
                       (Outcome_value (cursorScreen None)
                          (run [OpSetDirty (QRect_xywh 0 0 5 5);
                                OpSetDirty (QRect_xywh 50 50 5 5);
                                OpScheduleUpdate; OpDispatch; OpSetDirty (QRect_xywh 1 1 2 2)]
                             (cursorScreen None))))
      by (vm_compute; reflexivity).
    exact (proj2 (H eq_refl Hrun)).
  - destruct (update_pending_allows_one_queued_redraw []
                (setDirty (QRect_xywh 1 1 2 2) (cursorScreen None))
                (cursorScreen None) [QRect_xywh 0 0 5 5; QRect_xywh 50 50 5 5] QRect_null
                stackWindows stackQWindows stackStores
                (QImage_solid (mkSize 0 0) Format_RGB16 Qt_black)) as (_ & _ & _ & H & _).
    exact (H eq_refl).
  - destruct (update_pending_allows_one_queued_redraw []
                (setDirty (QRect_xywh 1 1 2 2) (cursorScreen None))
                (cursorScreen None) [] QRect_null stackWindows stackQWindows stackStores
                (QImage_solid (mkSize 0 0) Format_RGB16 Qt_black))
      as (_ & _ & _ & _ & _ & _ & _ & H).
    exact (proj1 (H eq_refl)).
Defined.

(** C10 with the pending stores 5, 7, 7: store 7 was made for the surface
    of window 2, whose own store is 2; window 3 has no store. *)
Lemma addWindow_requires_backing_store_witness :
  addWindow 3%nat (stackScreen [] [5%nat; 7%nat; 7%nat]) = AssertionFailed
  /\ exists s',
      addWindow 2%nat (stackScreen [] [5%nat; 7%nat; 7%nat]) = Finished s'
      /\ fbw_backingStore (fbWindows s' 2%nat) = Some 7%nat
      /\ mPendingBackingStores s' = [5%nat; 7%nat]
      /\ fbWindows s' 1%nat = stackWindows 1%nat.
Proof.
  split.
  - apply (addWindow_requires_backing_store 3%nat (stackScreen [] [5%nat; 7%nat; 7%nat])
             (stackScreen [] [])). reflexivity.
  - set (s' := Outcome_value (stackScreen [] [])
                 (addWindow 2%nat (stackScreen [] [5%nat; 7%nat; 7%nat]))).
    exists s'. split; [reflexivity|].
    destruct (addWindow_requires_backing_store 2%nat
                (stackScreen [] [5%nat; 7%nat; 7%nat]) s') as [_ H].
    destruct (H eq_refl) as (bs0 & _ & _ & Hother).
    split; [reflexivity|]. split; [reflexivity|].
    apply Hother. discriminate.
Defined.

(* ===================================================================== *)
(** * The further properties at work on concrete screens *)
(* ===================================================================== *)

Lemma deskScreen_storesFitWindows (stack : list QFbWindowPtr) :
  storesFitWindows (deskScreen stack).
Proof.
  intros w bs _ H. cbn in H |- *.
  destruct w as [|[|[|w]]]; cbn in H |- *; injection H as <-; reflexivity.
Qed.

(** X2 with the tooltip 3 stacked between the windows 1 and 2: window 1
    stays the top window whatever is done with the tooltip. *)
Lemma other_window_types_witness :
  topWindow (removeWindow 3%nat (deskScreen [1%nat; 3%nat; 2%nat])) = Some 11%nat
  /\ topWindow (raise 3%nat (deskScreen [1%nat; 3%nat; 2%nat])) = Some 11%nat
  /\ topWindow (lower 3%nat (deskScreen [1%nat; 3%nat; 2%nat])) = Some 11%nat
  /\ topWindow (Outcome_value (deskScreen [])
                  (addWindow 3%nat (deskScreen [1%nat; 3%nat; 2%nat]))) = Some 11%nat.
Proof.
  destruct (other_window_types_never_change_topWindow 3%nat
              (deskScreen [1%nat; 3%nat; 2%nat]) eq_refl) as (A & B & C & D).
  split; [exact A|]. split; [exact B|]. split; [exact C|].
  exact (D _ eq_refl).
Defined.

(** X3 with window 2 under window 1: added again or raised, window 2 is
    the top window. *)
Lemma added_or_raised_window_witness :
  topWindow (Outcome_value (deskScreen [])
               (addWindow 2%nat (deskScreen [1%nat; 2%nat]))) = Some 12%nat
  /\ topWindow (raise 2%nat (deskScreen [1%nat; 2%nat])) = Some 12%nat.
Proof.
  destruct (added_or_raised_window_becomes_topWindow 2%nat
              (deskScreen [1%nat; 2%nat]) eq_refl) as [A B].
  split; [exact (A _ eq_refl)|exact (B eq_refl)].
Defined.

(** X7 with window 2 removed from a stack that holds window 1 only. *)
Lemma removeWindow_of_unstacked_window_witness :
  mWindowStack (removeWindow 2%nat (deskScreen [1%nat])) = [1%nat]
  /\ mRepaintRegion (removeWindow 2%nat (deskScreen [1%nat])) = [QRect_xywh 20 20 30 30]
  /\ mUpdatePending (removeWindow 2%nat (deskScreen [1%nat])) = true
  /\ performed (deskScreen [1%nat]) (removeWindow 2%nat (deskScreen [1%nat]))
     = [HandleWindowActivated (Some 11%nat); TopWindowChanged (Some 11%nat)]
  /\ raise 2%nat (deskScreen [1%nat]) = deskScreen [1%nat]
  /\ lower 2%nat (deskScreen [1%nat]) = deskScreen [1%nat].
Proof.
  destruct (removeWindow_of_unstacked_window_still_damages 2%nat (deskScreen [1%nat]) eq_refl)
    as (A & B & C & D & E & F).
  split; [exact A|]. split; [exact B|]. split; [exact C|]. split; [exact D|].
  split; [exact E|exact F].
Defined.

(** X8 with the tooltip 3 added above windows 1 and 2 and removed again. *)
Lemma addWindow_then_removeWindow_witness :
  mWindowStack (removeWindow 3%nat
                  (Outcome_value (deskScreen [])
                     (addWindow 3%nat (deskScreen [1%nat; 2%nat])))) = [1%nat; 2%nat]
  /\ windowCount (removeWindow 3%nat
                    (Outcome_value (deskScreen [])
                       (addWindow 3%nat (deskScreen [1%nat; 2%nat])))) = 2
  /\ topWindow (removeWindow 3%nat
                  (Outcome_value (deskScreen [])
                     (addWindow 3%nat (deskScreen [1%nat; 2%nat])))) = Some 11%nat.
Proof.
  exact (addWindow_then_removeWindow_restores_stack 3%nat (deskScreen [1%nat; 2%nat])
           (Outcome_value (deskScreen []) (addWindow 3%nat (deskScreen [1%nat; 2%nat])))
           eq_refl).
Defined.

(** X15 on two rounds of damage and redraw: the first redraw makes the
    painter, the second one uses it. *)
Lemma painter_is_constructed_at_most_once_witness :
  painterMadeOnce
    (Outcome_value (cursorScreen None)
       (run [OpSetDirty (QRect_xywh 1 1 2 2); OpDispatch;
             OpSetDirty (QRect_xywh 5 5 2 2); OpDispatch] (cursorScreen None)))
  /\ (countNewPainter
        (effects
           (Outcome_value (cursorScreen None)
              (run [OpSetDirty (QRect_xywh 1 1 2 2); OpDispatch;
                    OpSetDirty (QRect_xywh 5 5 2 2); OpDispatch] (cursorScreen None))))
      <= 1)%nat.
Proof.
  assert (Hr : run [OpSetDirty (QRect_xywh 1 1 2 2); OpDispatch;
                    OpSetDirty (QRect_xywh 5 5 2 2); OpDispatch] (cursorScreen None)
               = Finished
                   (Outcome_value (cursorScreen None)
                      (run [OpSetDirty (QRect_xywh 1 1 2 2); OpDispatch;
                            OpSetDirty (QRect_xywh 5 5 2 2); OpDispatch] (cursorScreen None))))
    by (vm_compute; reflexivity).
  destruct (painter_is_constructed_at_most_once _ (cursorScreen None) _ eq_refl Hr)
    as (A & B & _).
  exact (conj A B).
Defined.

(** X16 with damage at (200,200) on the idle 100x100 screen. *)
Lemma offscreen_damage_witness :
  postedEvents (setDirty (QRect_xywh 200 200 10 10) (cursorScreen None)) = [UpdateRequest]
  /\ mRepaintRegion (setDirty (QRect_xywh 200 200 10 10) (cursorScreen None)) = QRegion_new
  /\ dispatch (setDirty (QRect_xywh 200 200 10 10) (cursorScreen None)) = cursorScreen None.
Proof.
  exact (offscreen_damage_costs_one_empty_redraw (QRect_xywh 200 200 10 10) (cursorScreen None)
           eq_refl eq_refl eq_refl eq_refl eq_refl).
Defined.

(** X17 with the sprite cursor, which paints on the image it is handed:
    after [initializeCompositor], damage and a redraw with a dirty cursor,
    the image still has the size of the 100x100 geometry. *)
Lemma screen_image_keeps_the_geometry_size_witness :
  sizeMatches
    (Outcome_value (cursorScreen None)
       (run [OpSetDirty (QRect_xywh 1 1 2 2); OpDispatch]
          (initializeCompositor (fun _ => grey) (cursorScreen (Some dirtyCursor)))))
  /\ mGeometry
       (Outcome_value (cursorScreen None)
          (run [OpSetDirty (QRect_xywh 1 1 2 2); OpDispatch]
             (initializeCompositor (fun _ => grey) (cursorScreen (Some dirtyCursor)))))
     = QRect_xywh 0 0 100 100.
Proof.
  assert (Hk : cursorKeepsImageSize (Cursor := SpriteCursor)).
  { intros c pd. cbn. unfold sprite_drawCursor.
    destruct (negb (sc_visible c)); [reflexivity|].
    destruct (QRect_isEmpty (sc_currentRect c)); reflexivity. }
  assert (Hr : run [OpSetDirty (QRect_xywh 1 1 2 2); OpDispatch]
                 (initializeCompositor (fun _ => grey) (cursorScreen (Some dirtyCursor)))
               = Finished
                   (Outcome_value (cursorScreen None)
                      (run [OpSetDirty (QRect_xywh 1 1 2 2); OpDispatch]
                         (initializeCompositor (fun _ => grey)
                            (cursorScreen (Some dirtyCursor))))))
    by (vm_compute; reflexivity).
  destruct (screen_image_keeps_the_geometry_size (fun _ => grey) _
              (cursorScreen (Some dirtyCursor)) _ Hk Hr) as (_ & A & B).
  exact (conj A B).
Defined.

(** X18 on the desk with everything damaged: at (25,25), where windows 1
    and 2 overlap, [topLevelAt] reports window 1 and the redraw shows the
    grey of its store. *)
Lemma redraw_shows_the_window_topLevelAt_finds_witness :
  pixel (mScreenImage
           (snd (doRedraw (setDirty (QRect_xywh 0 0 100 100) (deskScreen [1%nat; 2%nat])))))
        (mkPoint 25 25) = grey
  /\ topLevelAt (mkPoint 25 25)
       (setDirty (QRect_xywh 0 0 100 100) (deskScreen [1%nat; 2%nat])) = Some 11%nat.
Proof.
  assert (Hall : allHaveStores (setDirty (QRect_xywh 0 0 100 100) (deskScreen [1%nat; 2%nat]))).
  { intros w _. destruct w as [|[|[|w]]]; discriminate. }
  assert (Hfit : storesFitWindows
                   (setDirty (QRect_xywh 0 0 100 100) (deskScreen [1%nat; 2%nat]))).
  { intros w bs _ H. cbn in H |- *.
    destruct w as [|[|[|w]]]; cbn in H |- *; injection H as <-; reflexivity. }
  exact (redraw_shows_the_window_topLevelAt_finds
           (setDirty (QRect_xywh 0 0 100 100) (deskScreen [1%nat; 2%nat])) (mkPoint 25 25)
           Hall Hfit eq_refl eq_refl).
Defined.

(** X20 with a dirty cursor that was never painted, on a screen without
    damage and without painter. *)
Lemma dirty_cursor_is_drawn_without_repainting_witness :
  fst (doRedraw (cursorScreen (Some unpaintedCursor))) = [QRect_xywh 60 60 4 4]
  /\ performed (cursorScreen (Some unpaintedCursor))
       (snd (doRedraw (cursorScreen (Some unpaintedCursor))))
     = [NewPainter; SetCompositionMode CompositionMode_SourceOver;
        DrawCursor [QRect_xywh 60 60 4 4]].
Proof.
  destruct (dirty_cursor_is_drawn_without_repainting (cursorOps := spriteCursorOps)
              (cursorScreen (Some unpaintedCursor))
              unpaintedCursor eq_refl eq_refl eq_refl eq_refl) as (A & B & _).
  exact (conj A B).
Defined.

(** X21 on the desk: window 2, raised over window 1, shows its red store
    at (25,25), where the two overlap. *)
Lemma raised_window_is_shown_witness :
  pixel (mScreenImage (snd (doRedraw (raise 2%nat (deskScreen [1%nat; 2%nat])))))
        (mkPoint 25 25) = red.
Proof.
  exact (raised_window_is_shown_by_the_next_redraw 2%nat 2%nat (mkPoint 25 25)
           (deskScreen [1%nat; 2%nat]) eq_refl
           (deskScreen_storesFitWindows [1%nat; 2%nat]) eq_refl eq_refl eq_refl
           eq_refl eq_refl eq_refl).
Defined.

(** X23 on the idle 100x100 screen, the new image being all grey. *)
Lemma initializeCompositor_paints_nothing_witness :
  postedEvents (initializeCompositor (fun _ => grey) (cursorScreen None)) = [UpdateRequest]
  /\ performed (cursorScreen None)
       (dispatch (initializeCompositor (fun _ => grey) (cursorScreen None))) = []
  /\ pixel (mScreenImage (dispatch (initializeCompositor (fun _ => grey) (cursorScreen None))))
           (mkPoint 3 3) = grey.
Proof.
  destruct (initializeCompositor_paints_nothing_by_itself (fun _ => grey) (cursorScreen None)
              eq_refl eq_refl eq_refl eq_refl) as (A & _ & C & D).
  split; [exact A|]. split; [exact C|exact (D (mkPoint 3 3))].
Defined.
